(** * UsenetStreamer: NZB triage engine, runner and NNTP pool

    A shallow embedding of [src/services/triage/index.js] and
    [nzbTriageRunner.js], with the properties of the specification that
    concern them.

    Conventions of the embedding.
    - A Node [Buffer] is a [list Z] (one element per byte, [0..255]);
      an indexed write is stdpp's list insert, which like a typed array
      ignores a write past the end.
    - JavaScript strings are [string]s whose characters are the code units
      [0..255]; [toLowerCase] is the case map of JavaScript on these code
      units (the letters A-Z and the Latin-1 capitals).
    - JavaScript numbers are whole doubles or infinite ([Double.num]); the
      difference of two of them is rounded as IEEE 754 rounds it.
    - JavaScript [Set]s and [Map]s keep insertion order, so they are lists
      without duplicates and association lists with [Map.set] semantics.
    - Everything outside the process (NNTP answers, HTTP fetches, the random
      source, the order in which timers and callbacks fire) is an explicit
      argument or an event of a step relation. *)

From Stdlib Require Import ZArith Lia Bool Ascii String.
From stdpp Require Import base tactics option list strings pretty sorting gmap.

Local Open Scope Z_scope.

(** ** Results of fallible code *)

Inductive Result (E A : Type) : Type :=
| Ok (a : A)
| Err (e : E).
Arguments Ok {E A} a.
Arguments Err {E A} e.

(** ** Byte buffers *)

Module Buf.

Definition Buffer := list Z.

(** [buffer[i]]: [None] is JavaScript's [undefined]. *)
Definition get (b : Buffer) (i : nat) : option Z := b !! i.

(** [buffer.readUInt16LE(i)], used only where both bytes are in range. *)
Definition readUInt16LE (b : Buffer) (i : nat) : Z :=
  Z.lor (default 0 (b !! i)) (Z.shiftl (default 0 (b !! S i)) 8).

(** [a.startsWith(p)] on byte strings. *)
Fixpoint starts_with (p l : list Z) : bool :=
  match p, l with
  | [], _ => true
  | _ :: _, [] => false
  | x :: p', y :: l' => (x =? y) && starts_with p' l'
  end.

(** [s.split('\r\n')]. [cur] is the current piece, reversed. *)
Fixpoint split_crlf_from (cur : list Z) (s : list Z) : list (list Z) :=
  match s with
  | [] => [rev cur]
  | c :: rest =>
      match rest with
      | d :: rest' =>
          if (c =? 13) && (d =? 10)
          then rev cur :: split_crlf_from [] rest'
          else split_crlf_from (c :: cur) rest
      | [] => split_crlf_from (c :: cur) rest
      end
  end.

Definition split_crlf (s : list Z) : list (list Z) := split_crlf_from [] s.

(** The bytes of an ASCII string. *)
Definition of_string (s : string) : list Z :=
  map (fun a => Z.of_nat (nat_of_ascii a)) (list_ascii_of_string s).

End Buf.

(** ** yEnc decoder ([decodeYencBuffer]) *)

Module Yenc.
Import Buf.

Inductive DecodeError := DECODE_ERROR.

Definition ybegin : list Z := Eval cbv in of_string "=ybegin".
Definition ypart : list Z := Eval cbv in of_string "=ypart".
Definition yend : list Z := Eval cbv in of_string "=yend".

(** State of the two nested loops: either the function has returned [out]
    from inside the loop, or the loop goes on with [out] and [writeIndex]. *)
Inductive Loop :=
| Returned (out : Buffer)
| Running (out : Buffer) (writeIndex : nat).

(** Inner [for (let i = 0; i < src.length; i += 1)] loop over one line. *)
Fixpoint decode_src (maxBytes : nat) (src : list Z) (out : Buffer) (writeIndex : nat)
  : Loop :=
  match src with
  | [] => Running out writeIndex
  | byte :: rest =>
      if byte =? 0x3D then
        match rest with
        | [] => Running out writeIndex
        | n :: rest' =>
            let byte := Z.land (n - 64) 0xff in
            let byte := Z.land (byte - 42) 0xff in
            let out := <[writeIndex := byte]> out in
            let writeIndex := S writeIndex in
            if (maxBytes <=? writeIndex)%nat then Returned out
            else decode_src maxBytes rest' out writeIndex
        end
      else
        let byte := Z.land (byte - 42) 0xff in
        let out := <[writeIndex := byte]> out in
        let writeIndex := S writeIndex in
        if (maxBytes <=? writeIndex)%nat then Returned out
        else decode_src maxBytes rest out writeIndex
  end.

(** Outer [for (const line of lines)] loop. *)
Fixpoint decode_lines (maxBytes : nat) (lines : list (list Z)) (decoding : bool)
    (out : Buffer) (writeIndex : nat) : Loop :=
  match lines with
  | [] => Running out writeIndex
  | line :: lines' =>
      if negb decoding then
        decode_lines maxBytes lines' (starts_with ybegin line) out writeIndex
      else if starts_with ypart line then
        decode_lines maxBytes lines' decoding out writeIndex
      else if starts_with yend line then
        Running out writeIndex
      else
        match decode_src maxBytes line out writeIndex with
        | Returned out => Returned out
        | Running out writeIndex =>
            decode_lines maxBytes lines' decoding out writeIndex
        end
  end.

Definition decodeYencBuffer (bodyBuffer : Buffer) (maxBytes : nat)
  : Result DecodeError Buffer :=
  let out := replicate maxBytes 0 in
  let lines := split_crlf bodyBuffer in
  match decode_lines maxBytes lines false out 0%nat with
  | Returned out => Ok out
  | Running out writeIndex =>
      if (writeIndex =? 0)%nat then Err DECODE_ERROR
      else Ok (take writeIndex out)
  end.

(** The decoding as the specification words it. *)

(** One line: [c = 0x3D] consumes the next byte [n] and gives
    [(n - 64 - 42) mod 256]; any other [c] gives [(c - 42) mod 256]. *)
Fixpoint spec_line (src : list Z) : list Z :=
  match src with
  | [] => []
  | c :: rest =>
      if c =? 0x3D then
        match rest with
        | [] => []
        | n :: rest' => ((n - 64 - 42) mod 256) :: spec_line rest'
        end
      else ((c - 42) mod 256) :: spec_line rest
  end.

(** The payload lines: after the first line that begins with [=ybegin],
    without the [=ypart] lines, up to the first line that begins with
    [=yend]. *)
Fixpoint spec_payload_lines (decoding : bool) (lines : list (list Z))
  : list (list Z) :=
  match lines with
  | [] => []
  | line :: lines' =>
      if negb decoding then spec_payload_lines (starts_with ybegin line) lines'
      else if starts_with ypart line then spec_payload_lines decoding lines'
      else if starts_with yend line then []
      else line :: spec_payload_lines decoding lines'
  end.

Definition spec_payload (body : Buffer) : list Z :=
  concat (map spec_line (spec_payload_lines false (split_crlf body))).

(** Number of bytes a call hands back; a failed call hands back none. *)
Definition produced (r : Result DecodeError Buffer) : nat :=
  match r with
  | Ok out => length out
  | Err _ => 0%nat
  end.

(** What the loops have reached after [acc] was written and [emitted] is
    to be written next, under a cap of [m] bytes. *)
Definition loop_after (m : nat) (acc emitted : list Z) : Loop :=
  let full := acc ++ emitted in
  match emitted with
  | [] => Running (full ++ replicate (m - length full) 0) (length full)
  | _ :: _ =>
      if (m <=? length full)%nat then Returned (take m full)
      else Running (full ++ replicate (m - length full) 0) (length full)
  end.

(** The loop invariant on the bytes written so far. *)
Definition room (m : nat) (acc : list Z) : Prop :=
  (length acc < m)%nat \/ (m = 0%nat /\ acc = []).

(** A one-line article: the bytes 72, 214, 19, 0 in yEnc, where 214 and 19
    need the escape. *)
Definition sample_article : Buffer :=
  of_string "=ybegin line=128 size=4 name=x" ++ [13; 10]
  ++ [114; 0x3D; 64; 0x3D; 125; 42] ++ [13; 10]
  ++ of_string "=yend size=4".

End Yenc.

(** ** Archive inspector ([inspectArchiveBuffer]) *)

Module Inspector.
Import Buf.

(** The closed set of finding statuses. *)
Inductive Status :=
| rar_stored | sevenzip_stored
| rar_compressed | rar_encrypted | rar_solid
| rar5_unsupported | sevenzip_unsupported
| rar_header_not_found | rar_insufficient_data | rar_corrupt_header
| sevenzip_insufficient_data
| stat_missing | stat_error | body_missing | body_error | decode_error
| segment_ok | segment_missing | segment_error
| archive_not_found | archive_no_segments | io_error | missing_filename.

Definition status_label (s : Status) : string :=
  match s with
  | rar_stored => "rar-stored" | sevenzip_stored => "sevenzip-stored"
  | rar_compressed => "rar-compressed" | rar_encrypted => "rar-encrypted"
  | rar_solid => "rar-solid" | rar5_unsupported => "rar5-unsupported"
  | sevenzip_unsupported => "sevenzip-unsupported"
  | rar_header_not_found => "rar-header-not-found"
  | rar_insufficient_data => "rar-insufficient-data"
  | rar_corrupt_header => "rar-corrupt-header"
  | sevenzip_insufficient_data => "sevenzip-insufficient-data"
  | stat_missing => "stat-missing" | stat_error => "stat-error"
  | body_missing => "body-missing" | body_error => "body-error"
  | decode_error => "decode-error"
  | segment_ok => "segment-ok" | segment_missing => "segment-missing"
  | segment_error => "segment-error"
  | archive_not_found => "archive-not-found"
  | archive_no_segments => "archive-no-segments"
  | io_error => "io-error" | missing_filename => "missing-filename"
  end.

(** The [details] field of an inspection result. *)
Inductive Details :=
| NoDetails
| NameOnly (name : list Z)
| NameMethod (name : list Z) (method : option Z)
| Rar5Assumed
| SevenZipMethod (methodByte : option Z).

Record Inspection := { status : Status; details : Details }.

Definition only (s : Status) : Inspection := {| status := s; details := NoDetails |}.

Definition RAR4_SIGNATURE : list Z := [0x52; 0x61; 0x72; 0x21; 0x1A; 0x07; 0x00].
Definition RAR5_SIGNATURE : list Z := [0x52; 0x61; 0x72; 0x21; 0x1A; 0x07; 0x01; 0x00].

(** [Boolean(flags & mask)]. *)
Definition has_flag (flags mask : Z) : bool := negb (Z.land flags mask =? 0).

(** Position of the file name in a file header that starts at [offset]. *)
Definition name_pos (offset : nat) (headerFlags : Z) : nat :=
  let pos := (offset + 7 + 4 + 4 + 1 + 4 + 4 + 1 + 1 + 2 + 4)%nat in
  let pos := if has_flag headerFlags 0x0100 then (pos + 4)%nat else pos in
  if has_flag headerFlags 0x0200 then (pos + 4)%nat else pos.

(** [buffer.slice(a, a + len)]: the bytes of the name. The program reads
    them as UTF-8 and drops the NUL characters of the text; the name is kept
    here as the bytes it is read from. *)
Definition slice_name (buffer : Buffer) (a len : nat) : list Z :=
  take len (drop a buffer).

(** Body of [if (headerType === 0x74) { ... }] in [inspectRar4]. *)
Definition inspect_file_header (buffer : Buffer) (offset : nat) (headerFlags : Z)
  : Inspection :=
  let pos := (offset + 7)%nat in
  if (length buffer <? pos + 11)%nat then only rar_insufficient_data else
  let pos := (pos + 4 + 4 + 1 + 4 + 4)%nat in
  if (length buffer <=? pos)%nat then only rar_insufficient_data else
  let pos := (pos + 1)%nat in
  let methodByte := get buffer pos in
  let pos := (pos + 1)%nat in
  if (length buffer <? pos + 2)%nat then only rar_insufficient_data else
  let nameSize := Z.to_nat (readUInt16LE buffer pos) in
  let pos := name_pos offset headerFlags in
  if (length buffer <? pos + nameSize)%nat then only rar_insufficient_data else
  let name := slice_name buffer pos nameSize in
  let encrypted := has_flag headerFlags 0x0004 in
  let solid := has_flag headerFlags 0x0010 in
  if encrypted then {| status := rar_encrypted; details := NameOnly name |}
  else if solid then {| status := rar_solid; details := NameOnly name |}
  else if negb (bool_decide (methodByte = Some 0x30))
  then {| status := rar_compressed; details := NameMethod name methodByte |}
  else {| status := rar_stored; details := NameMethod name methodByte |}.

(** The [while (offset + 7 <= buffer.length)] loop of [inspectRar4]; every
    turn moves [offset] forward by at least 7, so [length buffer] turns are
    enough ([None]: out of fuel). *)
Fixpoint inspectRar4_loop (fuel : nat) (buffer : Buffer) (offset : nat)
  : option Inspection :=
  match fuel with
  | O => None
  | S fuel' =>
      if (length buffer <? offset + 7)%nat then Some (only rar_header_not_found) else
      let headerType := get buffer (offset + 2) in
      let headerFlags := readUInt16LE buffer (offset + 3) in
      let headerSize := Z.to_nat (readUInt16LE buffer (offset + 5)) in
      if (headerSize <? 7)%nat then Some (only rar_corrupt_header) else
      if (length buffer <? offset + headerSize)%nat
      then Some (only rar_insufficient_data) else
      if bool_decide (headerType = Some 0x74)
      then Some (inspect_file_header buffer offset headerFlags)
      else inspectRar4_loop fuel' buffer (offset + headerSize)
  end.

Definition inspectRar4 (buffer : Buffer) : Inspection :=
  default (only rar_header_not_found)
    (inspectRar4_loop (S (length buffer)) buffer (length RAR4_SIGNATURE)).

Definition inspectRar5 (buffer : Buffer) : Inspection :=
  {| status := rar_stored; details := Rar5Assumed |}.

Definition inspectSevenZip (buffer : Buffer) : Inspection :=
  if (length buffer <? 32)%nat then only sevenzip_insufficient_data else
  let firstByte := get buffer 6 in
  if bool_decide (firstByte = Some 0x00) then only sevenzip_stored
  else {| status := sevenzip_unsupported; details := SevenZipMethod firstByte |}.

Definition inspectArchiveBuffer (buffer : Buffer) : Inspection :=
  if starts_with RAR4_SIGNATURE buffer then inspectRar4 buffer
  else if starts_with RAR5_SIGNATURE buffer then inspectRar5 buffer
  else if (6 <=? length buffer)%nat
          && bool_decide (get buffer 0 = Some 0x37)
          && bool_decide (get buffer 1 = Some 0x7A)
  then inspectSevenZip buffer
  else only rar_header_not_found.

(** The offsets at which a turn of the [inspectRar4] loop starts: 7, and
    from there over every complete header that is not a file header. *)
Inductive Scanned (buffer : Buffer) : nat -> Prop :=
| scanned_first : Scanned buffer (length RAR4_SIGNATURE)
| scanned_next (offset : nat) :
    Scanned buffer offset ->
    (offset + 7 <= length buffer)%nat ->
    get buffer (offset + 2) <> Some 0x74 ->
    (7 <= Z.to_nat (readUInt16LE buffer (offset + 5)))%nat ->
    (offset + Z.to_nat (readUInt16LE buffer (offset + 5)) <= length buffer)%nat ->
    Scanned buffer (offset + Z.to_nat (readUInt16LE buffer (offset + 5))).

(** A file header at [offset] all of whose fields, name included, lie in
    the buffer. *)
Definition FileHeaderAt (buffer : Buffer) (offset : nat) : Prop :=
  (offset + 7 <= length buffer)%nat
  /\ get buffer (offset + 2) = Some 0x74
  /\ (7 <= Z.to_nat (readUInt16LE buffer (offset + 5)))%nat
  /\ (offset + Z.to_nat (readUInt16LE buffer (offset + 5)) <= length buffer)%nat
  /\ (offset + 28 <= length buffer)%nat
  /\ (name_pos offset (readUInt16LE buffer (offset + 3))
      + Z.to_nat (readUInt16LE buffer (offset + 26)) <= length buffer)%nat.

(** Where the scan stops at [offset]: fewer than 7 bytes are left, or the
    block header gives a size below 7, or the block reaches past the end, or
    the block is a file header. *)
Definition StopsAt (buffer : Buffer) (offset : nat) : Prop :=
  (length buffer < offset + 7)%nat
  \/ ((offset + 7 <= length buffer)%nat
      /\ ((Z.to_nat (readUInt16LE buffer (offset + 5)) < 7)%nat
          \/ (length buffer < offset + Z.to_nat (readUInt16LE buffer (offset + 5)))%nat
          \/ get buffer (offset + 2) = Some 0x74)).

(** A buffer whose only block is a main header that reaches past the end,
    and one whose file header, flagged as encrypted, ends before its
    fields. *)
Definition rar4_cut_main : Buffer := RAR4_SIGNATURE ++ [0; 0; 0x73; 0; 0; 13; 0].
Definition rar4_cut_file : Buffer := RAR4_SIGNATURE ++ [0; 0; 0x74; 4; 0; 7; 0].

(** The order of the decisions on a file header, as the specification
    gives it. *)
Definition spec_rar4_decision (flags : Z) (methodByte : option Z) : Status :=
  if negb (Z.land flags 0x0004 =? 0) then rar_encrypted
  else if negb (Z.land flags 0x0010 =? 0) then rar_solid
  else if negb (bool_decide (methodByte = Some 0x30)) then rar_compressed
  else rar_stored.

(** A RAR4 volume: signature, a 13-byte main header, then the file header
    of a file named [a.mk] with the given low byte of the flags and the
    given method. *)
Definition rar4_volume (flags method : Z) : Buffer :=
  RAR4_SIGNATURE
  ++ [0; 0; 0x73; 0; 0; 13; 0; 0; 0; 0; 0; 0; 0]
  ++ [0; 0; 0x74; flags; 0; 36; 0;
      9; 0; 0; 0;  9; 0; 0; 0;  2;  0; 0; 0; 0;  0; 0; 0; 0;
      20; method;  4; 0;  0; 0; 0; 0;
      97; 46; 109; 107].

Definition rar4_stored_volume : Buffer := rar4_volume 0 0x30.

End Inspector.

(** ** Strings *)

Module Str.

Definition is_digit (c : ascii) : bool :=
  let n := nat_of_ascii c in (48 <=? n)%nat && (n <=? 57)%nat.

(** The case map of [toLowerCase] on the code units [0..255]: the letters
    [A-Z] (65-90) and the Latin-1 capitals (192-222, but for the
    multiplication sign 215) go 32 up; every other code unit stays. *)
Definition lower (c : ascii) : ascii :=
  let n := nat_of_ascii c in
  if ((65 <=? n)%nat && (n <=? 90)%nat)
     || ((192 <=? n)%nat && (n <=? 222)%nat && negb (n =? 215)%nat)
  then ascii_of_nat (n + 32) else c.

Definition lower_chars (l : list ascii) : list ascii := map lower l.

Definition toLowerCase (s : string) : string :=
  string_of_list_ascii (lower_chars (list_ascii_of_string s)).

(** White space removed by [trim]. *)
Definition is_space (c : ascii) : bool :=
  let n := nat_of_ascii c in
  ((9 <=? n)%nat && (n <=? 13)%nat) || (n =? 32)%nat || (n =? 160)%nat.

Fixpoint trim_start (l : list ascii) : list ascii :=
  match l with
  | c :: l' => if is_space c then trim_start l' else l
  | [] => []
  end.

Definition trim (s : string) : string :=
  string_of_list_ascii
    (rev (trim_start (rev (trim_start (list_ascii_of_string s))))).

(** [l.startsWith(p)], and with letters compared without case, as a regular
    expression with the [i] flag compares them. *)
Fixpoint starts_with_chars (p l : list ascii) : bool :=
  match p, l with
  | [], _ => true
  | _ :: _, [] => false
  | x :: p', y :: l' => Ascii.eqb x y && starts_with_chars p' l'
  end.

Fixpoint strip_prefix_ci (p l : list ascii) : option (list ascii) :=
  match p, l with
  | [], _ => Some l
  | _ :: _, [] => None
  | x :: p', y :: l' =>
      if Ascii.eqb (lower x) (lower y) then strip_prefix_ci p' l' else None
  end.

(** [s.includes(p)]. *)
Fixpoint includes_chars (p l : list ascii) : bool :=
  starts_with_chars p l ||
  match l with
  | [] => false
  | _ :: l' => includes_chars p l'
  end.

Definition includes (s p : string) : bool :=
  includes_chars (list_ascii_of_string p) (list_ascii_of_string s).

(** The longest run of digits at the head of [l], dropped. *)
Fixpoint drop_digits (l : list ascii) : list ascii :=
  match l with
  | c :: l' => if is_digit c then drop_digits l' else l
  | [] => []
  end.

Definition head_is_digit (l : list ascii) : bool :=
  match l with
  | c :: _ => is_digit c
  | [] => false
  end.

End Str.

(** ** Canonical archive key ([canonicalArchiveKey]) *)

Module ArchiveKey.
Import Str.

Definition dot_rar : list ascii := list_ascii_of_string ".rar".
Definition dot_part : list ascii := list_ascii_of_string ".part".
Definition dot_r : list ascii := list_ascii_of_string ".r".

(** A match of [/\.part\d+\.rar$/i]: the text before the match. The
    pattern is anchored at the end and a dot is no digit, so a string has at
    most one match, read here from the end of the string backwards: [.rar],
    the whole run of digits (at least one), [.part]. *)
Definition match_part_rar (s : list ascii) : option (list ascii) :=
  match strip_prefix_ci (rev dot_rar) (rev s) with
  | None => None
  | Some r1 =>
      if head_is_digit r1 then
        match strip_prefix_ci (rev dot_part) (drop_digits r1) with
        | None => None
        | Some r2 => Some (rev r2)
        end
      else None
  end.

(** A match of [/\.r\d{2}$/i]: the text before the match. *)
Definition match_rNN (s : list ascii) : option (list ascii) :=
  match rev s with
  | d2 :: d1 :: r1 =>
      if is_digit d2 && is_digit d1 then
        match strip_prefix_ci (rev dot_r) r1 with
        | None => None
        | Some r2 => Some (rev r2)
        end
      else None
  | _ => None
  end.

(** [key.replace(/\.part\d+\.rar$/i, '.rar')]. *)
Definition replace_part_rar (s : list ascii) : list ascii :=
  match match_part_rar s with
  | Some stem => stem ++ dot_rar
  | None => s
  end.

(** [key.replace(/\.r\d{2}$/i, '.rar')]. *)
Definition replace_rNN (s : list ascii) : list ascii :=
  match match_rNN s with
  | Some stem => stem ++ dot_rar
  | None => s
  end.

Definition key_chars (name : list ascii) : list ascii :=
  let key := lower_chars name in
  let key := replace_part_rar key in
  let key := replace_rNN key in
  key.

(** [canonicalArchiveKey(name)]; [None] is [null], the answer for a name
    that is empty. *)
Definition canonicalArchiveKey (name : string) : option string :=
  if bool_decide (name = EmptyString) then None
  else Some (string_of_list_ascii (key_chars (list_ascii_of_string name))).

(** [canonicalArchiveKey(canonicalArchiveKey(name))]: [null] is falsy, so
    the key of [null] is [null]. *)
Definition key_twice (name : string) : option string :=
  match canonicalArchiveKey name with
  | Some k => canonicalArchiveKey k
  | None => None
  end.

(** The key still ends in a [.partNNN.rar] suffix. *)
Definition ends_in_part_rar (k : string) : bool :=
  bool_decide (is_Some (match_part_rar (list_ascii_of_string k))).

(** A string that [toLowerCase] leaves as it is. *)
Definition lowered (l : list ascii) : Prop := lower_chars l = l.

End ArchiveKey.

(** ** Triage analyzer ([analyzeSingleNzb]) *)

Module Analyzer.
Import Buf Inspector Str.

(** An error's [code] is a string ([STAT_MISSING], [ECONNRESET], ...) or a
    number (the NNTP answer [430]). *)
Inductive Code := CodeStr (s : string) | CodeNum (n : Z).

#[global] Instance Code_eq_dec : EqDecision Code.
Proof. solve_decision. Defined.

(** The fields of a thrown error that the code looks at; a [code] of
    [None] is [undefined], a [dropClient] of [false] is an absent field. *)
Record JsError := { code : option Code; message : string; dropClient : bool }.

Definition code_is (e : JsError) (s : string) : bool :=
  bool_decide (code e = Some (CodeStr s)).

(** [err?.code === 'STAT_MISSING' || err?.code === 430]. *)
Definition is_stat_missing (e : JsError) : bool :=
  code_is e "STAT_MISSING" || bool_decide (code e = Some (CodeNum 430)).

Definition code_text (c : Code) : string :=
  match c with
  | CodeStr s => s
  | CodeNum n => pretty n
  end.

(** [err.code] is truthy. *)
Definition code_truthy (c : option Code) : bool :=
  match c with
  | None => false
  | Some (CodeStr s) => negb (bool_decide (s = EmptyString))
  | Some (CodeNum n) => negb (n =? 0)
  end.

Record Segment := { seg_number : Z; seg_bytes : Z; seg_id : string }.

(** A file of the parsed NZB; [extension] is derived from [filename]. *)
Record File := { subject : string; filename : option string; segments : list Segment }.

Inductive Source := src_local | src_nntp | src_nntp_stat.

Record Finding := {
  source : Source;
  f_filename : option string;
  f_subject : string;
  f_status : Status;
  f_segmentId : option string;
  f_message : option string;
  f_path : option string;
  f_details : Details
}.

Inductive Verdict := accept | reject.

Record NzbDecision := {
  decision : Verdict;
  blockers : list string;
  warnings : list string;
  fileCount : nat;
  nzbTitle : option string;
  nzbIndex : nat;
  archiveFindings : list Finding
}.

(** [set.add(x)] on a [Set] kept in insertion order. *)
Definition set_add (x : string) (s : list string) : list string :=
  if bool_decide (x ∈ s) then s else s ++ [x].

Definition set_has (x : string) (s : list string) : bool := bool_decide (x ∈ s).

(** [getExtension]: the text from the last dot on, in lower case. *)
Fixpoint from_last_dot (l : list ascii) : option (list ascii) :=
  match l with
  | [] => None
  | c :: l' =>
      match from_last_dot l' with
      | Some e => Some e
      | None => if Ascii.eqb c "." then Some l else None
      end
  end.

Definition getExtension (filename : option string) : option string :=
  match filename with
  | None => None
  | Some f =>
      if bool_decide (f = EmptyString) then None
      else match from_last_dot (list_ascii_of_string f) with
           | Some e => Some (string_of_list_ascii (lower_chars e))
           | None => None
           end
  end.

Definition ARCHIVE_EXTENSIONS : list string :=
  [".rar"; ".r00"; ".r01"; ".r02"; ".7z"]%string.

(** [/^\.r\d{2}$/i.test(ext)]. *)
Definition is_rNN (ext : string) : bool :=
  match list_ascii_of_string ext with
  | [d; r; d1; d2] =>
      Ascii.eqb d "." && Ascii.eqb (lower r) "r" && is_digit d1 && is_digit d2
  | _ => false
  end.

Definition isArchiveFile (file : File) : bool :=
  match getExtension (filename file) with
  | None => false
  | Some ext =>
      if bool_decide (ext = EmptyString) then false
      else if set_has ext ARCHIVE_EXTENSIONS then true
      else is_rNN ext
  end.

(** [dedupeArchiveCandidates], the [seen] set threaded through the loop. *)
Fixpoint dedupe_from (seen : list string) (archives : list File) : list File :=
  match archives with
  | [] => []
  | archive :: rest =>
      match ArchiveKey.canonicalArchiveKey
              (default (subject archive) (filename archive)) with
      | None => dedupe_from seen rest
      | Some key =>
          if set_has key seen then dedupe_from seen rest
          else archive :: dedupe_from (set_add key seen) rest
      end
  end.

Definition dedupeArchiveCandidates (archives : list File) : list File :=
  dedupe_from [] archives.

(** [collectUniqueSegments]: the pairs [{file, segmentId}]. *)
Fixpoint collect_segments (seen : list string) (file : File) (segs : list Segment)
  : list (File * string) * list string :=
  match segs with
  | [] => ([], seen)
  | seg :: segs' =>
      let segmentId := seg_id seg in
      if bool_decide (segmentId = EmptyString) || set_has segmentId seen
      then collect_segments seen file segs'
      else let '(u, seen') := collect_segments (set_add segmentId seen) file segs' in
           ((file, segmentId) :: u, seen')
  end.

Fixpoint collect_files (seen : list string) (files : list File) : list (File * string) :=
  match files with
  | [] => []
  | file :: files' =>
      let '(u, seen') := collect_segments seen file (segments file) in
      u ++ collect_files seen' files'
  end.

Definition collectUniqueSegments (files : list File) : list (File * string) :=
  collect_files [] files.

(** *** The random source

    [Math.random()] is a stream [rnd]; the state carries the number of
    draws made. [Math.floor(Math.random() * (i + 1))] is a number in
    [0..i]: the draw taken modulo [i + 1]. *)

Section Pick.
Context {A : Type}.

(** [[a[i], a[j]] = [a[j], a[i]]]. *)
Definition swap (l : list A) (i j : nat) : list A :=
  match l !! i, l !! j with
  | Some x, Some y => <[i := y]> (<[j := x]> l)
  | _, _ => l
  end.

(** The Fisher-Yates loop [for (let i = len - 1; i > 0; i -= 1)]. *)
Fixpoint shuffle_down (i : nat) (rnd : nat -> nat) (k : nat) (l : list A)
  : list A * nat :=
  match i with
  | O => (l, k)
  | S i' =>
      let j := (rnd k mod (S i))%nat in
      shuffle_down i' rnd (S k) (swap l i j)
  end.

Definition pickRandomElements (items : list A) (maxCount : nat)
    (rnd : nat -> nat) (k : nat) : list A * nat :=
  match items with
  | [] => ([], k)
  | _ :: _ =>
      let count := Nat.min maxCount (length items) in
      let '(shuffled, k') := shuffle_down (length items - 1) rnd k items in
      (take count shuffled, k')
  end.

End Pick.

(** *** The world outside the analyzer *)

(** What [fs.stat] and reading the file give for a path. *)
Inductive FsEntry :=
| FsFile (content : Buffer)
| FsNotFile
| FsENOENT
| FsError (msg : string).

Record Env := {
  (** [pool.acquire()] and the check for a null client in [runWithClient],
      for the n-th use of the pool. *)
  acquire : nat -> Result JsError unit;
  (** How [statSegmentWithClient] settles for the n-th use of the pool. *)
  stat : nat -> string -> Result JsError unit;
  (** How [fetchSegmentBodyWithClient] settles. *)
  body : string -> Result JsError Buffer;
  fs : string -> FsEntry;
  rnd : nat -> nat
}.

Record Config := {
  archiveDirs : list string;
  maxDecodedBytes : nat;
  statSampleCount : option Z;
  archiveSampleCount : option Z
}.

Record Ctx := {
  config : Config;
  nntpPool : bool;
  nntpError : option JsError;
  ctx_nzbIndex : nat
}.

(** The mutable locals of [analyzeSingleNzb], with the log of the STAT
    probes asked for ([statLog], oldest first), the number of uses of the
    pool and the number of random draws. *)
Record St := {
  st_blockers : list string;
  st_warnings : list string;
  st_findings : list Finding;
  checkedSegments : list string;
  statLog : list string;
  calls : nat;
  draws : nat
}.

Definition st_init : St :=
  {| st_blockers := []; st_warnings := []; st_findings := [];
     checkedSegments := []; statLog := []; calls := 0; draws := 0 |}.

Definition add_blocker (b : string) (st : St) : St :=
  {| st_blockers := set_add b (st_blockers st); st_warnings := st_warnings st;
     st_findings := st_findings st; checkedSegments := checkedSegments st;
     statLog := statLog st; calls := calls st; draws := draws st |}.

Definition add_warning (w : string) (st : St) : St :=
  {| st_blockers := st_blockers st; st_warnings := set_add w (st_warnings st);
     st_findings := st_findings st; checkedSegments := checkedSegments st;
     statLog := statLog st; calls := calls st; draws := draws st |}.

Definition push_finding (f : Finding) (st : St) : St :=
  {| st_blockers := st_blockers st; st_warnings := st_warnings st;
     st_findings := st_findings st ++ [f]; checkedSegments := checkedSegments st;
     statLog := statLog st; calls := calls st; draws := draws st |}.

Definition mark_checked (id : string) (st : St) : St :=
  {| st_blockers := st_blockers st; st_warnings := st_warnings st;
     st_findings := st_findings st; checkedSegments := set_add id (checkedSegments st);
     statLog := statLog st; calls := calls st; draws := draws st |}.

(** One use of the pool for a STAT on [id]. *)
Definition log_stat (id : string) (st : St) : St :=
  {| st_blockers := st_blockers st; st_warnings := st_warnings st;
     st_findings := st_findings st; checkedSegments := checkedSegments st;
     statLog := statLog st ++ [id]; calls := S (calls st); draws := draws st |}.

Definition set_draws (k : nat) (st : St) : St :=
  {| st_blockers := st_blockers st; st_warnings := st_warnings st;
     st_findings := st_findings st; checkedSegments := checkedSegments st;
     statLog := statLog st; calls := calls st; draws := k |}.

(** *** Findings *)

Definition stat_finding (who : File) (st : Status) (segmentId : string)
    (msg : option string) : Finding :=
  {| source := src_nntp_stat; f_filename := filename who; f_subject := subject who;
     f_status := st; f_segmentId := Some segmentId; f_message := msg;
     f_path := None; f_details := NoDetails |}.

(** [handleArchiveStatus]: the answer is whether the status confirms a
    stored archive. *)
Definition handleArchiveStatus (status : Status) (st : St) : bool * St :=
  match status with
  | rar_stored | sevenzip_stored => (true, st)
  | rar_compressed | rar_encrypted | rar_solid
  | rar5_unsupported | sevenzip_unsupported =>
      (false, add_blocker (status_label status) st)
  | stat_missing | body_missing => (false, add_blocker "missing-articles" st)
  | archive_not_found | archive_no_segments | rar_insufficient_data
  | rar_header_not_found | io_error | stat_error | body_error | decode_error
  | missing_filename =>
      (false, add_warning (status_label status) st)
  | _ => (false, st)
  end.

(** [statSegment(pool, segmentId)]: [runWithClient] around
    [statSegmentWithClient]. *)
Definition statSegment (env : Env) (segmentId : string) (st : St)
  : Result JsError unit * St :=
  let n := calls st in
  (match acquire env n with
   | Err e => Err e
   | Ok _ => stat env n segmentId
   end, log_stat segmentId st).

(** The [try { ... } catch (err) { ... }] around a STAT probe. *)
Definition record_stat (who : File) (segmentId : string)
    (r : Result JsError unit) (st : St) : St :=
  match r with
  | Ok _ => push_finding (stat_finding who segment_ok segmentId None) st
  | Err err =>
      if is_stat_missing err then
        push_finding (stat_finding who segment_missing segmentId None)
          (add_blocker "missing-articles" st)
      else
        push_finding (stat_finding who segment_error segmentId (Some (message err)))
          (add_warning "nntp-stat-error" st)
  end.

(** The closure [runStatCheck] of [analyzeSingleNzb]. *)
Definition runStatCheck (env : Env) (archive : File) (segment : Segment) (st : St)
  : St :=
  let segmentId := seg_id segment in
  if bool_decide (segmentId = EmptyString) || set_has segmentId (checkedSegments st)
  then st
  else
    let st := mark_checked segmentId st in
    let '(r, st) := statSegment env segmentId st in
    record_stat archive segmentId r st.

(** [segment?.id && !checkedSegments.has(segment.id)]. *)
Definition unchecked (st : St) (segment : Segment) : bool :=
  negb (bool_decide (seg_id segment = EmptyString))
  && negb (set_has (seg_id segment) (checkedSegments st)).

Definition nntp_unavailable (ctx : Ctx) (st : St) : St :=
  match nntpError ctx with
  | Some e =>
      add_warning ("nntp-error:" +:+ match code e with
                                     | Some c => code_text c
                                     | None => message e
                                     end) st
  | None => add_warning "nntp-disabled" st
  end.

(** [Math.max(lo, Math.floor(x ?? dflt))] for a whole number [x]. *)
Definition sample_count (lo dflt : Z) (x : option Z) : nat :=
  Z.to_nat (Z.max lo (default dflt x)).

(** *** Local check *)

Definition replace_string (f : list ascii -> list ascii) (s : string) : string :=
  string_of_list_ascii (f (list_ascii_of_string s)).

Definition buildCandidateNames (filename : string) : list string :=
  let candidates := set_add filename [] in
  let candidates :=
    if bool_decide (is_Some (ArchiveKey.match_part_rar (list_ascii_of_string filename)))
    then set_add (replace_string ArchiveKey.replace_part_rar filename) candidates
    else candidates in
  if bool_decide (is_Some (ArchiveKey.match_rNN (list_ascii_of_string filename)))
  then set_add (replace_string ArchiveKey.replace_rNN filename) candidates
  else candidates.

Record LocalResult := {
  l_status : Status; l_path : option string;
  l_details : Details; l_message : option string
}.

(** [path.join(dir, candidate)], taken as the name the file system is asked. *)
Definition path_join (dir candidate : string) : string := dir +:+ "/" +:+ candidate.

(** [analyzeArchiveFile]: the first 256 KiB go to the inspector. *)
Definition analyzeArchiveFile (content : Buffer) : Inspection :=
  inspectArchiveBuffer (take (256 * 1024) content).

Fixpoint try_names (fs : string -> FsEntry) (dir : string) (names : list string)
  : option LocalResult :=
  match names with
  | [] => None
  | candidate :: names' =>
      let candidatePath := path_join dir candidate in
      match fs candidatePath with
      | FsFile content =>
          let analysis := analyzeArchiveFile content in
          Some {| l_status := status analysis; l_path := Some candidatePath;
                  l_details := details analysis; l_message := None |}
      | FsError msg =>
          Some {| l_status := io_error; l_path := None;
                  l_details := NoDetails; l_message := Some msg |}
      | FsNotFile | FsENOENT => try_names fs dir names'
      end
  end.

Fixpoint try_dirs (fs : string -> FsEntry) (dirs names : list string) : LocalResult :=
  match dirs with
  | [] => {| l_status := archive_not_found; l_path := None;
             l_details := NoDetails; l_message := None |}
  | dir :: dirs' =>
      match try_names fs dir names with
      | Some r => r
      | None => try_dirs fs dirs' names
      end
  end.

Definition inspectLocalArchive (file : File) (dirs : list string)
    (fs : string -> FsEntry) : LocalResult :=
  match filename file with
  | None =>
      {| l_status := missing_filename; l_path := None;
         l_details := NoDetails; l_message := None |}
  | Some name => try_dirs fs dirs (buildCandidateNames name)
  end.

(** The [for (const archive of archiveCandidates)] loop of the local check;
    the boolean is [storedArchiveFound]. *)
Fixpoint local_check (ctx : Ctx) (env : Env) (archives : list File)
    (stored : bool) (st : St) : bool * St :=
  match archives with
  | [] => (stored, st)
  | archive :: rest =>
      let localResult := inspectLocalArchive archive (archiveDirs (config ctx)) (fs env) in
      let st := push_finding
                  {| source := src_local; f_filename := filename archive;
                     f_subject := subject archive; f_status := l_status localResult;
                     f_segmentId := None; f_message := l_message localResult;
                     f_path := l_path localResult;
                     f_details := l_details localResult |} st in
      let '(hit, st) := handleArchiveStatus (l_status localResult) st in
      local_check ctx env rest (stored || hit) st
  end.

(** *** Remote check *)

Record NntpResult := {
  n_status : Status; n_segmentId : option string;
  n_details : Details;
  (** [details.segmentId] and [details.message] of a failed STAT or BODY. *)
  n_detailId : option string; n_message : option string
}.

Definition nntp_result (s : Status) (segmentId : string) (msg : option string)
  : NntpResult :=
  {| n_status := s; n_segmentId := Some segmentId;
     n_details := NoDetails; n_detailId := Some segmentId; n_message := msg |}.

(** [inspectArchiveViaNntp]; [Err] is an exception that leaves the function
    (the pool has no client to give). *)
Definition inspectArchiveViaNntp (file : File) (ctx : Ctx) (env : Env) (st : St)
  : Result JsError NntpResult * St :=
  let no_segments :=
    {| n_status := archive_no_segments; n_segmentId := None;
       n_details := NoDetails; n_detailId := None; n_message := None |} in
  match segments file with
  | [] => (Ok no_segments, st)
  | first :: _ =>
      let segmentId := seg_id first in
      if bool_decide (segmentId = EmptyString) then (Ok no_segments, st)
      else
        let n := calls st in
        let st := log_stat segmentId st in
        match acquire env n with
        | Err e => (Err e, st)
        | Ok _ =>
            match stat env n segmentId with
            | Err err =>
                if is_stat_missing err
                then (Ok (nntp_result stat_missing segmentId None), st)
                else (Ok (nntp_result stat_error segmentId (Some (message err))), st)
            | Ok _ =>
                match body env segmentId with
                | Err err =>
                    if code_is err "BODY_MISSING"
                    then (Ok (nntp_result body_missing segmentId None), st)
                    else if code_is err "BODY_ERROR"
                    then (Ok (nntp_result body_error segmentId (Some (message err))), st)
                    else if code_is err "DECODE_ERROR"
                    then (Ok (nntp_result decode_error segmentId (Some (message err))), st)
                    else (Ok (nntp_result body_error segmentId (Some (message err))), st)
                | Ok bodyBuffer =>
                    match Yenc.decodeYencBuffer bodyBuffer (maxDecodedBytes (config ctx)) with
                    | Err Yenc.DECODE_ERROR =>
                        (Ok (nntp_result decode_error segmentId
                               (Some "No yEnc payload detected"%string)), st)
                    | Ok decoded =>
                        let archiveResult := inspectArchiveBuffer decoded in
                        (Ok {| n_status := status archiveResult;
                               n_segmentId := Some segmentId;
                               n_details := details archiveResult;
                               n_detailId := None;
                               n_message := None |}, st)
                    end
                end
            end
        end
  end.

(** *** Extra STAT sampling *)

(** The candidates with their position in [archiveCandidates]; the position
    stands for the identity of the object, which [archive !== primaryArchive]
    compares. *)
Definition numbered (archives : list File) : list (nat * File) :=
  imap (fun i a => (i, a)) archives.

Definition has_segments (a : File) : bool :=
  match segments a with
  | [] => false
  | _ :: _ => true
  end.

(** [Promise.all(samples.map((segment) => runStatCheck(archive, segment)))]:
    the synchronous heads of the calls run in the order of the array. *)
Fixpoint stat_each (env : Env) (archive : File) (samples : list Segment) (st : St)
  : St :=
  match samples with
  | [] => st
  | segment :: rest => stat_each env archive rest (runStatCheck env archive segment st)
  end.

(** The first half of the extra sampling: more segments of the primary
    archive. *)
Definition extra_primary (ctx : Ctx) (env : Env) (primaryArchive : option (nat * File))
    (st : St) : St :=
  let extraStatChecks := sample_count 0 0 (statSampleCount (config ctx)) in
  match primaryArchive with
  | Some (_, primary) =>
      if (0 <? extraStatChecks)%nat && has_segments primary then
        let availablePrimarySegments := filter (fun s => unchecked st s) (segments primary) in
        let '(primarySamples, k) :=
          pickRandomElements availablePrimarySegments
            (Nat.min extraStatChecks (length availablePrimarySegments))
            (rnd env) (draws st) in
        stat_each env primary primarySamples (set_draws k st)
      else st
  | None => st
  end.

(** [archive.segments.find((entry) => entry?.id && !checkedSegments.has(entry.id))]. *)
Definition first_unchecked (st : St) (archive : File) : option Segment :=
  snd <$> list_find (fun s => unchecked st s) (segments archive).

Fixpoint stat_archives (env : Env) (sampleArchives : list (nat * File)) (st : St) : St :=
  match sampleArchives with
  | [] => st
  | (_, archive) :: rest =>
      match first_unchecked st archive with
      | None => stat_archives env rest st
      | Some segment => stat_archives env rest (runStatCheck env archive segment st)
      end
  end.

(** [archive.segments[0]?.id] is there and unchecked. *)
Definition first_segment_unchecked (st : St) (archive : File) : bool :=
  match segments archive with
  | first :: _ => unchecked st first
  | [] => false
  end.

(** The archives the second half samples from. *)
Definition other_archives (archiveCandidates : list File)
    (primaryArchive : option (nat * File)) (st : St) : list (nat * File) :=
  let archivesWithSegments :=
    filter (fun ia => has_segments ia.2
                      && negb (bool_decide (Some ia.1 = fst <$> primaryArchive)))
           (numbered archiveCandidates) in
  filter (fun ia => first_segment_unchecked st ia.2) archivesWithSegments.

(** The second half: the first unchecked segment of other archives. *)
Definition extra_others (ctx : Ctx) (env : Env) (archiveCandidates : list File)
    (primaryArchive : option (nat * File)) (st : St) : St :=
  let archiveSampleCount := sample_count 1 1 (archiveSampleCount (config ctx)) in
  let '(sampleArchives, k) :=
    pickRandomElements (other_archives archiveCandidates primaryArchive st)
      archiveSampleCount (rnd env) (draws st) in
  stat_archives env sampleArchives (set_draws k st).

(** The block under
    [if (ctx.nntpPool && storedArchiveFound && blockers.size === 0)]. *)
Definition extra_sampling (ctx : Ctx) (env : Env) (archiveCandidates : list File)
    (primaryArchive : option (nat * File)) (storedArchiveFound : bool) (st : St) : St :=
  if nntpPool ctx && storedArchiveFound && bool_decide (st_blockers st = [])
  then extra_others ctx env archiveCandidates primaryArchive
         (extra_primary ctx env primaryArchive st)
  else st.

(** *** The analysis of one NZB *)

(** The NZB after [parseStringPromise], [extractFiles] and [extractTitle]. *)
Record Parsed := { files : list File; title : option string }.

Definition buildDecision (d : Verdict) (blockers warnings : list string)
    (fileCount : nat) (nzbTitle : option string) (nzbIndex : nat)
    (archiveFindings : list Finding) : NzbDecision :=
  {| decision := d; blockers := blockers; warnings := warnings;
     fileCount := fileCount; nzbTitle := nzbTitle; nzbIndex := nzbIndex;
     archiveFindings := archiveFindings |}.

(** [const decision = blockers.size === 0 ? 'accept' : 'reject'; return
    buildDecision(...)]. *)
Definition decide_on (parsed : Parsed) (ctx : Ctx) (st : St) : NzbDecision :=
  let decision := match st_blockers st with
                  | [] => accept
                  | _ :: _ => reject
                  end in
  buildDecision decision (st_blockers st) (st_warnings st)
    (length (files parsed)) (title parsed) (ctx_nzbIndex ctx) (st_findings st).

(** The STAT probes of the branch without archive candidates. *)
Fixpoint stat_samples (env : Env) (samples : list (File * string)) (st : St) : St :=
  match samples with
  | [] => st
  | (file, segmentId) :: rest =>
      let '(r, st) := statSegment env segmentId st in
      stat_samples env rest (record_stat file segmentId r st)
  end.

Definition no_archive_branch (parsed : Parsed) (ctx : Ctx) (env : Env) (st : St) : St :=
  let st := add_warning "no-archive-candidates" st in
  let uniqueSegments := collectUniqueSegments (files parsed) in
  if negb (nntpPool ctx) then nntp_unavailable ctx st
  else
    match uniqueSegments with
    | [] => st
    | _ :: _ =>
        let statSampleCount := sample_count 1 1 (statSampleCount (config ctx)) in
        let '(sampledSegments, k) :=
          pickRandomElements uniqueSegments statSampleCount (rnd env) (draws st) in
        stat_samples env sampledSegments (set_draws k st)
    end.

(** The remote check: the primary archive, [storedArchiveFound] and the
    state, or the exception of [inspectArchiveViaNntp]. *)
Definition remote_check (ctx : Ctx) (env : Env) (archiveCandidates : list File)
    (stored : bool) (st : St) : Result JsError (option (nat * File) * bool * St) :=
  if negb (nntpPool ctx) then Ok (None, stored, nntp_unavailable ctx st)
  else
    match list_find has_segments archiveCandidates with
    | None => Ok (None, stored, add_warning "archive-no-segments" st)
    | Some (i, archiveWithSegments) =>
        match inspectArchiveViaNntp archiveWithSegments ctx env st with
        | (Err e, _) => Err e
        | (Ok nntpResult, st) =>
            let st := push_finding
                        {| source := src_nntp;
                           f_filename := filename archiveWithSegments;
                           f_subject := subject archiveWithSegments;
                           f_status := n_status nntpResult;
                           f_segmentId := n_detailId nntpResult;
                           f_message := n_message nntpResult;
                           f_path := None;
                           f_details := n_details nntpResult |} st in
            let st :=
              match n_segmentId nntpResult with
              | Some segmentId =>
                  let st := mark_checked segmentId st in
                  match n_status nntpResult with
                  | rar_stored | sevenzip_stored =>
                      push_finding
                        (stat_finding archiveWithSegments segment_ok segmentId None) st
                  | _ => st
                  end
              | None => st
              end in
            let '(hit, st) := handleArchiveStatus (n_status nntpResult) st in
            Ok (Some (i, archiveWithSegments), stored || hit, st)
        end
    end.

(** [analyzeSingleNzb] up to the final state of its locals; [Err] is a
    thrown error (the parse failed, or the pool gave no client). *)
Definition analyze_state (raw : Result JsError Parsed) (ctx : Ctx) (env : Env)
  : Result JsError (Parsed * St) :=
  match raw with
  | Err e => Err e
  | Ok parsed =>
      let archiveCandidates :=
        dedupeArchiveCandidates (filter (fun f => isArchiveFile f) (files parsed)) in
      match archiveCandidates with
      | [] => Ok (parsed, no_archive_branch parsed ctx env st_init)
      | _ :: _ =>
          let '(stored, st) :=
            match archiveDirs (config ctx) with
            | [] => (false, st_init)
            | _ :: _ => local_check ctx env archiveCandidates false st_init
            end in
          match remote_check ctx env archiveCandidates stored st with
          | Err e => Err e
          | Ok (primaryArchive, storedArchiveFound, st) =>
              let st := extra_sampling ctx env archiveCandidates primaryArchive
                          storedArchiveFound st in
              let st :=
                if negb storedArchiveFound && bool_decide (st_blockers st = [])
                then add_warning "rar-m0-unverified" st
                else st in
              Ok (parsed, st)
          end
      end
  end.

Definition analyzeSingleNzb (raw : Result JsError Parsed) (ctx : Ctx) (env : Env)
  : Result JsError NzbDecision :=
  match analyze_state raw ctx env with
  | Err e => Err e
  | Ok (parsed, st) => Ok (decide_on parsed ctx st)
  end.

Definition buildErrorDecision (err : JsError) (nzbIndex : nat) : NzbDecision :=
  let blockers := set_add "analysis-error" [] in
  let warnings := [] in
  let warnings :=
    if code_truthy (code err)
    then set_add ("code:" +:+ from_option code_text EmptyString (code err)) warnings
    else warnings in
  let warnings :=
    if negb (bool_decide (message err = EmptyString))
    then set_add (message err) warnings else warnings in
  let warnings :=
    match warnings with
    | [] => set_add "analysis-failed" warnings
    | _ :: _ => warnings
    end in
  buildDecision reject blockers warnings 0 None nzbIndex [].

(** The [try { ... } catch (err) { ... }] of a worker of
    [analyzeWithConcurrency]: the decision stored for the NZB at [index]. *)
Definition analyze_at (raw : Result JsError Parsed) (ctx : Ctx) (env : Env)
  : NzbDecision :=
  match analyzeSingleNzb raw ctx env with
  | Ok decision => decision
  | Err err => buildErrorDecision err (ctx_nzbIndex ctx)
  end.

(** The segments of the primary archive that are unchecked when the extra
    sampling starts. *)
Definition remaining_primary (primary : option (nat * File)) (st : St) : list Segment :=
  match primary with
  | Some (_, p) => filter (fun s => unchecked st s) (segments p)
  | None => []
  end.

(** The id of the first segment of an archive. *)
Definition first_id_of (a : File) : string :=
  match segments a with
  | first :: _ => seg_id first
  | [] => EmptyString
  end.

(** The other archive candidates the second half may sample, as the
    specification words them: a candidate that is not the primary archive,
    has segments, and whose first segment has an id that is not among the
    [checked] ones. *)
Definition spec_eligible (checked : list string) (primary : option (nat * File))
    (ia : nat * File) : bool :=
  negb (bool_decide (Some ia.1 = fst <$> primary))
  && negb (bool_decide (segments ia.2 = []))
  && negb (bool_decide (first_id_of ia.2 = EmptyString))
  && negb (bool_decide (first_id_of ia.2 ∈ checked)).

(** The first segments of the archive candidates have pairwise different
    ids. *)
Definition distinct_first_ids (archiveCandidates : list File) : Prop :=
  forall i j a b,
    archiveCandidates !! i = Some a -> archiveCandidates !! j = Some b ->
    has_segments a = true -> has_segments b = true ->
    first_id_of a = first_id_of b -> i = j.

(** *** A sample run

    An article body that decodes to the RAR5 signature, a pool that answers
    every STAT, and NZBs with one and with two archives. *)

Definition sample_body : Buffer :=
  Yenc.ybegin ++ [13; 10] ++ map (fun b => (b + 42) mod 256) RAR5_SIGNATURE
  ++ [13; 10] ++ Yenc.yend.

Definition sample_env : Env :=
  {| acquire := fun _ => Ok tt; stat := fun _ _ => Ok tt;
     body := fun _ => Ok sample_body; fs := fun _ => FsENOENT;
     rnd := fun _ => 0%nat |}.

Definition sample_segment (id : string) : Segment :=
  {| seg_number := 1; seg_bytes := 100; seg_id := id |}.

Definition sample_archive_a : File :=
  {| subject := "a"; filename := Some "a.rar"%string;
     segments := [sample_segment "s0"; sample_segment "s1"] |}.

Definition sample_archive_b : File :=
  {| subject := "b"; filename := Some "b.7z"%string;
     segments := [sample_segment "t0"; sample_segment "t1"] |}.

Definition sample_nzb_one : Parsed :=
  {| files := [ {| subject := "a"; filename := Some "a.rar"%string;
                   segments := [sample_segment "s0"; sample_segment "s1";
                                sample_segment "s2"] |} ];
     title := None |}.

Definition sample_nzb_two : Parsed :=
  {| files := [sample_archive_a; sample_archive_b]; title := None |}.

Definition sample_ctx (statSamples archiveSamples : option Z) : Ctx :=
  {| config := {| archiveDirs := []; maxDecodedBytes := 64;
                  statSampleCount := statSamples;
                  archiveSampleCount := archiveSamples |};
     nntpPool := true; nntpError := None; ctx_nzbIndex := 0 |}.

(** A pool whose every STAT is answered with 430. *)
Definition sample_env_missing : Env :=
  {| acquire := fun _ => Ok tt;
     stat := fun _ _ => Err {| code := Some (CodeNum 430);
                               message := "430 No Such Article";
                               dropClient := false |};
     body := fun _ => Ok sample_body; fs := fun _ => FsENOENT;
     rnd := fun _ => 0%nat |}.

(** The locals after the remote check of [sample_archive_a]. *)
Definition sample_st : St :=
  {| st_blockers := []; st_warnings := []; st_findings := [];
     checkedSegments := ["s0"%string]; statLog := ["s0"%string];
     calls := 1; draws := 0 |}.

End Analyzer.

(** ** Numbers *)

Module Double.

(** A JavaScript number that is whole, infinite or not a number. [Whole z]
    is a number of JavaScript when [z] is a double, [round z = z]; the
    numbers made below are. *)
Inductive num := Whole (z : Z) | Infinity (negative : bool) | NaN.

(** For [a] of 54 bits or more: the nearest whole number of 53 significant
    bits, the even one of two that are equally near. *)
Definition round_mag (a : Z) : Z :=
  let e := Z.log2 a - 52 in
  let q := a / 2 ^ e in
  let r := a mod 2 ^ e in
  let half := 2 ^ (e - 1) in
  (if (r <? half) || ((r =? half) && Z.even q) then q else q + 1) * 2 ^ e.

(** IEEE 754 rounding to nearest, ties to even, of a whole number, the
    exponent unbounded. *)
Definition round (z : Z) : Z :=
  if Z.abs z <? 2 ^ 53 then z else Z.sgn z * round_mag (Z.abs z).

(** The double for the exact value [z]; what rounds to [2^1024] or beyond
    is infinite. *)
Definition of_exact (z : Z) : num :=
  if Z.abs (round z) <? 2 ^ 1024 then Whole (round z) else Infinity (z <? 0).

(** [x - y]. *)
Definition sub (x y : num) : num :=
  match x, y with
  | Whole a, Whole b => of_exact (a - b)
  | Whole _, Infinity s => Infinity (negb s)
  | Infinity s, Whole _ => Infinity s
  | Infinity s, Infinity s' => if Bool.eqb s s' then NaN else Infinity s
  | _, _ => NaN
  end.

(** [Math.abs(x)]. *)
Definition abs (x : num) : num :=
  match x with
  | Whole z => Whole (Z.abs z)
  | Infinity _ => Infinity false
  | NaN => NaN
  end.

(** [x === y]. *)
Definition strict_eqb (x y : num) : bool :=
  match x, y with
  | Whole a, Whole b => a =? b
  | Infinity s, Infinity s' => Bool.eqb s s'
  | _, _ => false
  end.

(** [x < y]. *)
Definition lt (x y : num) : Prop :=
  match x, y with
  | Whole a, Whole b => a < b
  | Whole _, Infinity s => s = false
  | Infinity s, Whole _ => s = true
  | Infinity s, Infinity s' => s = true /\ s' = false
  | _, _ => False
  end.

(** [Number.isFinite(x) ? x : 0]. *)
Definition finite_or_zero (x : num) : Z :=
  match x with
  | Whole z => z
  | _ => 0
  end.

(** [Number.isFinite(x) ? x : null]. *)
Definition finite_or_null (x : num) : option Z :=
  match x with
  | Whole z => Some z
  | _ => None
  end.

(** What [Array.prototype.sort] reads off the number [v] that its
    comparator returns: whether it is below or above zero, [NaN] counting
    as [+0]. *)
Definition sort_order (v : num) : Z :=
  match v with
  | Whole z => z
  | Infinity true => -1
  | Infinity false => 1
  | NaN => 0
  end.

(** The numbers in the range of the doubles. *)
Definition ranged (x : num) : Prop :=
  match x with
  | Whole z => Z.abs z < 2 ^ 1024
  | Infinity _ => True
  | NaN => False
  end.

(** The place of a number among the others: the infinities stand beyond
    every double. *)
Definition mag (x : num) : Z :=
  match x with
  | Whole z => z
  | Infinity true => - 2 ^ 1024
  | Infinity false => 2 ^ 1024
  | NaN => 0
  end.

Definition MAX_SAFE_INTEGER : Z := 2 ^ 53 - 1.

End Double.

(** ** Runner ([nzbTriageRunner.js]) *)

Module Runner.
Import Str Inspector Analyzer.

(** An entry of [nzbResults], as far as the runner reads it: [downloadUrl]
    ([None]: absent), [size] as the whole number of bytes that is written
    ([None]: absent, or what [Number] makes no finite number of), [title]
    and [indexer] when they are strings, [indexerId] when it is defined,
    already through [String(...)]. *)
Record NzbResult := {
  downloadUrl : option string;
  size : option Z;
  r_title : option string;
  r_indexerId : option string;
  r_indexer : option string
}.

Record Candidate := {
  c_result : NzbResult;
  c_index : nat;
  c_size : Z;
  c_indexerId : option string;
  c_indexerName : option string;
  c_downloadUrl : string;
  c_title : option string;
  c_normalizedTitle : string
}.

(** A string option that is truthy. *)
Definition truthy (s : option string) : bool :=
  match s with
  | Some x => negb (bool_decide (x = EmptyString))
  | None => false
  end.

Definition normalizeTitle (title : option string) : string :=
  if truthy title then toLowerCase (trim (default EmptyString title)) else EmptyString.

(** [buildCandidates], with the set [seen] and the index of [forEach]. *)
Fixpoint build_from (seen : list string) (index : nat) (nzbResults : list NzbResult)
  : list Candidate :=
  match nzbResults with
  | [] => []
  | result :: rest =>
      match downloadUrl result with
      | Some url =>
          if bool_decide (url = EmptyString) || set_has url seen
          then build_from seen (S index) rest
          else
            {| c_result := result; c_index := index;
               c_size := Double.finite_or_zero
                           (Double.of_exact (default 0 (size result)));
               c_indexerId := r_indexerId result;
               c_indexerName := r_indexer result;
               c_downloadUrl := url;
               c_title := r_title result;
               c_normalizedTitle := normalizeTitle (r_title result) |}
            :: build_from (set_add url seen) (S index) rest
      | None => build_from seen (S index) rest
      end
  end.

Definition buildCandidates (nzbResults : list NzbResult) : list Candidate :=
  build_from [] 0 nzbResults.

(** [normalizeIndexerSet]; [None] is a value that is no array. *)
Definition normalizeIndexerSet (indexers : option (list string)) : list string :=
  match indexers with
  | None => []
  | Some l =>
      foldl (fun s x => set_add x s) []
        (filter (fun x => x <> EmptyString) (map (fun e => toLowerCase (trim e)) l))
  end.

(** The test of the two filters of [rankCandidates]. *)
Definition is_preferred (preferredIndexerSet : list string) (candidate : Candidate)
  : bool :=
  let id := if truthy (c_indexerId candidate)
            then toLowerCase <$> c_indexerId candidate else None in
  let name := if truthy (c_indexerName candidate)
              then toLowerCase <$> c_indexerName candidate else None in
  (truthy id && set_has (default EmptyString id) preferredIndexerSet)
  || (truthy name && set_has (default EmptyString name) preferredIndexerSet).

(** The comparator handed to [sort]; the sizes and the preferred size are
    doubles, and so is every difference. *)
Definition comparator (preferredSizeBytes : option Z) (a b : Candidate) : Double.num :=
  match preferredSizeBytes with
  | Some p =>
      let deltaA :=
        Double.abs (Double.sub (Double.Whole (c_size a)) (Double.Whole p)) in
      let deltaB :=
        Double.abs (Double.sub (Double.Whole (c_size b)) (Double.Whole p)) in
      if negb (Double.strict_eqb deltaA deltaB) then Double.sub deltaA deltaB
      else Double.sub (Double.Whole (c_size b)) (Double.Whole (c_size a))
  | None => Double.sub (Double.Whole (c_size b)) (Double.Whole (c_size a))
  end.

(** The comparator as [sort] reads it: negative when [a] goes first. *)
Definition order (preferredSizeBytes : option Z) (a b : Candidate) : Z :=
  Double.sort_order (comparator preferredSizeBytes a b).

(** [Array.prototype.sort(cmp)] is a stable sort; for a comparator that is
    a total preorder its result is the one of the stable insertion sort. *)
Section Sort.
Context {A : Type} (cmp : A -> A -> Z).

Fixpoint insert_by (x : A) (l : list A) : list A :=
  match l with
  | [] => [x]
  | y :: l' => if cmp x y <=? 0 then x :: l else y :: insert_by x l'
  end.

Definition sort_by (l : list A) : list A := foldr insert_by [] l.

(** [a] may stand before [b]. *)
Definition before (a b : A) : Prop := cmp a b <= 0.

End Sort.

Definition rankCandidates (candidates : list Candidate)
    (preferredSizeBytes : option Z) (preferredIndexerSet : list string)
  : list Candidate :=
  let prioritized :=
    if (0 <? length preferredIndexerSet)%nat
    then filter (fun c => is_preferred preferredIndexerSet c) candidates
    else [] in
  let fallback :=
    if (0 <? length preferredIndexerSet)%nat
    then filter (fun c => negb (is_preferred preferredIndexerSet c)) candidates
    else candidates in
  sort_by (order preferredSizeBytes) prioritized
  ++ sort_by (order preferredSizeBytes) fallback.

(** *** The ranking as the specification words it *)

(** [indexerId] or [indexerName] is, without regard to case, in the set of
    preferred indexers. *)
Definition names_indexer (k : string) (x : option string) : bool :=
  match x with
  | Some v => bool_decide (toLowerCase v = toLowerCase k)
  | None => false
  end.

Definition spec_preferred (preferredIndexerSet : list string) (c : Candidate) : bool :=
  existsb (fun k => names_indexer k (c_indexerId c) || names_indexer k (c_indexerName c))
          preferredIndexerSet.

(** A set of preferred indexers as [normalizeIndexerSet] makes it: the
    entries are in lower case and none is empty. *)
Definition normalized_set (preferredIndexerSet : list string) : Prop :=
  Forall (fun k => k <> EmptyString /\ toLowerCase k = k) preferredIndexerSet.

(** [|size - preferredSizeBytes|], as the double nearest to it. *)
Definition spec_distance (p : Z) (c : Candidate) : Double.num :=
  Double.of_exact (Z.abs (c_size c - p)).

(** The place of [a] before [b] inside a partition: nearer to the preferred
    size, or as near and not smaller; without a preferred size, not
    smaller. *)
Definition spec_in_order (preferredSizeBytes : option Z) (a b : Candidate) : Prop :=
  match preferredSizeBytes with
  | Some p =>
      Double.lt (spec_distance p a) (spec_distance p b)
      \/ (spec_distance p a = spec_distance p b /\ c_size b <= c_size a)
  | None => c_size b <= c_size a
  end.

(** Two candidates of one partition with equal keys: the same distance, if
    there is a preferred size, and the same size. *)
Definition same_rank (preferredIndexerSet : list string) (c x : Candidate) : bool :=
  Bool.eqb (spec_preferred preferredIndexerSet x) (spec_preferred preferredIndexerSet c)
  && (c_size x =? c_size c).

(** The sizes for which the arithmetic of the comparator is exact. *)
Definition safe_size (z : Z) : Prop := 0 <= z <= Double.MAX_SAFE_INTEGER.

(** The title filter of [triageAndRank]. *)
Fixpoint unique_titles (seenTitles : list string) (candidates : list Candidate)
  : list Candidate :=
  match candidates with
  | [] => []
  | candidate :: rest =>
      let titleKey := c_normalizedTitle candidate in
      if negb (bool_decide (titleKey = EmptyString)) then
        if set_has titleKey seenTitles then unique_titles seenTitles rest
        else candidate :: unique_titles (set_add titleKey seenTitles) rest
      else candidate :: unique_titles seenTitles rest
  end.

(** The options; [preferredSizeBytes] is the whole number that is written
    ([None]: absent or no number). *)
Record Options := {
  timeBudgetMs : option Z;
  maxCandidates : option nat;
  preferredSizeBytes : option Z;
  preferredIndexerIds : option (list string)
}.

Definition DEFAULT_TIME_BUDGET_MS : Z := 12000.
Definition DEFAULT_MAX_CANDIDATES : nat := 25.

(** [selectedCandidates] of [triageAndRank]. *)
Definition selectCandidates (nzbResults : list NzbResult) (options : Options)
  : list Candidate :=
  let preferredIndexerSet := normalizeIndexerSet (preferredIndexerIds options) in
  let maxCandidates := Nat.max 1 (default DEFAULT_MAX_CANDIDATES (maxCandidates options)) in
  let preferredSizeBytes :=
    z ← preferredSizeBytes options; Double.finite_or_null (Double.of_exact z) in
  let candidates :=
    rankCandidates (buildCandidates nzbResults) preferredSizeBytes
      preferredIndexerSet in
  let uniqueCandidates := unique_titles [] candidates in
  take (Nat.min maxCandidates (length uniqueCandidates)) uniqueCandidates.

(** *** The decision map *)

Inductive SummaryStatus :=
| verified | unverified | blocked | fetch_error | skipped | pending | error.

Record Summary := {
  s_status : SummaryStatus;
  s_error : option string;
  s_blockers : list string;
  s_warnings : list string;
  s_archiveFindings : list Finding;
  s_nzbIndex : option nat;
  s_fileCount : option nat;
  s_title : option string;
  s_normalizedTitle : option string;
  s_indexerId : option string;
  s_indexerName : option string
}.

(** A JavaScript [Map] with string keys: insertion order, [set] replaces the
    value of a key that is there. *)
Section JsMap.
Context {V : Type}.

Fixpoint map_set (k : string) (v : V) (m : list (string * V)) : list (string * V) :=
  match m with
  | [] => [(k, v)]
  | (k', v') :: m' =>
      if bool_decide (k' = k) then (k, v) :: m' else (k', v') :: map_set k v m'
  end.

Fixpoint map_get (k : string) (m : list (string * V)) : option V :=
  match m with
  | [] => None
  | (k', v') :: m' => if bool_decide (k' = k) then Some v' else map_get k m'
  end.

Definition map_has (k : string) (m : list (string * V)) : bool :=
  bool_decide (k ∈ m.*1).

End JsMap.

(** [value || null] for a string. *)
Definition or_null (s : option string) : option string :=
  if truthy s then s else None.

Definition attachMetadata (candidateByUrl : list (string * Candidate))
    (url : string) (d : Summary) : Summary :=
  match map_get url candidateByUrl with
  | Some candidateInfo =>
      {| s_status := s_status d; s_error := s_error d;
         s_blockers := s_blockers d; s_warnings := s_warnings d;
         s_archiveFindings := s_archiveFindings d;
         s_nzbIndex := s_nzbIndex d; s_fileCount := s_fileCount d;
         s_title := or_null (c_title candidateInfo);
         s_normalizedTitle := or_null (Some (c_normalizedTitle candidateInfo));
         s_indexerId := or_null (c_indexerId candidateInfo);
         s_indexerName := or_null (c_indexerName candidateInfo) |}
  | None => d
  end.

Definition bare (st : SummaryStatus) (err : option string)
    (blockers warnings : list string) : Summary :=
  {| s_status := st; s_error := err; s_blockers := blockers; s_warnings := warnings;
     s_archiveFindings := []; s_nzbIndex := None; s_fileCount := None;
     s_title := None; s_normalizedTitle := None;
     s_indexerId := None; s_indexerName := None |}.

Definition positive_finding (f : Finding) : bool :=
  match f_status f with
  | rar_stored | sevenzip_stored | segment_ok => true
  | _ => false
  end.

Definition summarizeDecision (d : NzbDecision) : Summary :=
  let status :=
    match decision d, blockers d with
    | accept, [] =>
        if existsb positive_finding (archiveFindings d) then verified else unverified
    | _, _ => blocked
    end in
  {| s_status := status; s_error := None;
     s_blockers := blockers d; s_warnings := warnings d;
     s_archiveFindings := archiveFindings d;
     s_nzbIndex := Some (nzbIndex d); s_fileCount := Some (fileCount d);
     s_title := None; s_normalizedTitle := None;
     s_indexerId := None; s_indexerName := None |}.

(** *** Download and assembly *)

Record DownloadResult := {
  payloads : list (Candidate * string);
  failures : list (string * JsError);
  dl_timedOut : bool
}.

(** What one turn of a download worker meets for a candidate: the budget is
    used up before the request goes out, or the GET settles. *)
Inductive Fetch :=
| OverBudget
| Fetched (data : string)
| FetchFailed (err : JsError).

(** [downloadNzbs] for the schedule in which the requests settle in the
    order of the candidates; [r] is what is gathered so far. *)
Fixpoint download_from (fetch : Candidate -> Fetch) (candidates : list Candidate)
    (r : DownloadResult) : DownloadResult :=
  match candidates with
  | [] => r
  | candidate :: rest =>
      match fetch candidate with
      | OverBudget =>
          {| payloads := payloads r; failures := failures r; dl_timedOut := true |}
      | Fetched data =>
          if bool_decide (data = EmptyString) then
            download_from fetch rest
              {| payloads := payloads r;
                 failures :=
                   map_set (c_downloadUrl candidate)
                     {| code := None; message := "Empty NZB payload";
                        dropClient := false |}
                     (failures r);
                 dl_timedOut := dl_timedOut r |}
          else
            download_from fetch rest
              {| payloads := payloads r ++ [(candidate, data)];
                 failures := failures r; dl_timedOut := dl_timedOut r |}
      | FetchFailed err =>
          download_from fetch rest
            {| payloads := payloads r;
               failures := map_set (c_downloadUrl candidate) err (failures r);
               dl_timedOut := dl_timedOut r |}
      end
  end.

Definition downloadNzbs (fetch : Candidate -> Fetch) (candidates : list Candidate)
  : DownloadResult :=
  download_from fetch candidates
    {| payloads := []; failures := []; dl_timedOut := false |}.

(** How [withTimeout(triageNzbs(...), remainingBudget)] settles. *)
Inductive TriageOutcome :=
| TriageSummary (decisions : list NzbDecision)
| TriageThrew (err : JsError).

Record Output := {
  decisions : list (string * Summary);
  timedOut : bool;
  candidatesConsidered : nat;
  evaluatedCount : nat;
  fetchFailures : nat
}.

Definition message_or (dflt : string) (err : JsError) : string :=
  if bool_decide (message err = EmptyString) then dflt else message err.

(** [for (const [url, err] of downloadResult.failures.entries())]. *)
Definition add_failures (byUrl : list (string * Candidate))
    (failures : list (string * JsError)) (decisionMap : list (string * Summary))
  : list (string * Summary) :=
  foldl (fun m entry =>
           map_set entry.1
             (attachMetadata byUrl entry.1
                (bare fetch_error (Some (message_or "Failed to fetch NZB payload" entry.2))
                   ["fetch-error"%string] [])) m)
        decisionMap failures.

(** The two [selectedCandidates.forEach] that fill in what is missing. *)
Definition add_missing (byUrl : list (string * Candidate)) (timedOut : bool)
    (selected : list Candidate) (decisionMap : list (string * Summary))
  : list (string * Summary) :=
  foldl (fun m candidate =>
           if map_has (c_downloadUrl candidate) m then m
           else map_set (c_downloadUrl candidate)
                  (attachMetadata byUrl (c_downloadUrl candidate)
                     (bare (if timedOut then pending else skipped) None [] [])) m)
        decisionMap selected.

(** [summary.decisions.forEach((decision, index) => ...)]. *)
Definition add_decisions (byUrl : list (string * Candidate))
    (payloads : list (Candidate * string)) (ds : list NzbDecision)
    (decisionMap : list (string * Summary)) : list (string * Summary) :=
  foldl (fun m id =>
           match payloads !! id.1 with
           | None => m
           | Some payloadRef =>
               map_set (c_downloadUrl payloadRef.1)
                 (attachMetadata byUrl (c_downloadUrl payloadRef.1)
                    (summarizeDecision id.2)) m
           end)
        decisionMap (imap (fun index d => (index, d)) ds).

(** [downloadResult.payloads.forEach] after a triage that threw. *)
Definition add_errors (byUrl : list (string * Candidate)) (triageError : JsError)
    (payloads : list (Candidate * string)) (decisionMap : list (string * Summary))
  : list (string * Summary) :=
  foldl (fun m entry =>
           if map_has (c_downloadUrl entry.1) m then m
           else map_set (c_downloadUrl entry.1)
                  (attachMetadata byUrl (c_downloadUrl entry.1)
                     (bare error None ["triage-error"%string]
                        (if bool_decide (message triageError = EmptyString) then []
                         else [message triageError]))) m)
        decisionMap payloads.

(** [triageAndRank]. The world is: [download], how the downloads of the
    selected candidates end; [elapsedAfterDownloads], the clock after them;
    [triage], how the analysis of the payloads settles. *)
Definition triageAndRank (nzbResults : list NzbResult) (options : Options)
    (download : list Candidate -> DownloadResult) (elapsedAfterDownloads : Z)
    (triage : list string -> TriageOutcome) : Output :=
  let timeBudgetMs := default DEFAULT_TIME_BUDGET_MS (timeBudgetMs options) in
  let selectedCandidates := selectCandidates nzbResults options in
  match selectedCandidates with
  | [] => {| decisions := []; timedOut := false; candidatesConsidered := 0;
             evaluatedCount := 0; fetchFailures := 0 |}
  | _ :: _ =>
      let candidateByUrl :=
        foldl (fun m candidate => map_set (c_downloadUrl candidate) candidate m)
              [] selectedCandidates in
      let downloadResult := download selectedCandidates in
      let timedOut := dl_timedOut downloadResult in
      let remainingBudget := timeBudgetMs - elapsedAfterDownloads in
      let decisionMap := add_failures candidateByUrl (failures downloadResult) [] in
      match payloads downloadResult with
      | [] =>
          {| decisions := add_missing candidateByUrl timedOut selectedCandidates decisionMap;
             timedOut := timedOut;
             candidatesConsidered := length selectedCandidates;
             evaluatedCount := 0;
             fetchFailures := length (failures downloadResult) |}
      | _ :: _ =>
          let outcome :=
            if 0 <? remainingBudget
            then Some (triage (map snd (payloads downloadResult)))
            else None in
          let timedOut :=
            match outcome with
            | Some (TriageSummary _) => timedOut
            | Some (TriageThrew err) =>
                if code_is err "TRIAGE_TIMEOUT" then true else timedOut
            | None => true
            end in
          let decisionMap :=
            match outcome with
            | Some (TriageSummary ds) =>
                add_decisions candidateByUrl (payloads downloadResult) ds decisionMap
            | _ => decisionMap
            end in
          let decisionMap :=
            match outcome with
            | Some (TriageThrew err) =>
                add_errors candidateByUrl err (payloads downloadResult) decisionMap
            | _ => decisionMap
            end in
          {| decisions := add_missing candidateByUrl timedOut selectedCandidates decisionMap;
             timedOut := timedOut;
             candidatesConsidered := length selectedCandidates;
             evaluatedCount :=
               match outcome with
               | Some (TriageSummary ds) => length ds
               | _ => 0%nat
               end;
             fetchFailures := length (failures downloadResult) |}
      end
  end.

(** *** A sample batch: two candidates whose titles differ by case and
    blanks only. *)

Definition sample_results : list NzbResult :=
  [ {| downloadUrl := Some "http://idx/one.nzb"%string; size := Some 700;
       r_title := Some "Movie"%string; r_indexerId := None; r_indexer := None |};
    {| downloadUrl := Some "http://idx/two.nzb"%string; size := Some 600;
       r_title := Some " movie "%string; r_indexerId := None; r_indexer := None |} ].

Definition sized (url : string) (bytes : Z) : NzbResult :=
  {| downloadUrl := Some url; size := Some bytes;
     r_title := None; r_indexerId := None; r_indexer := None |}.

Definition sample_options : Options :=
  {| timeBudgetMs := None; maxCandidates := None;
     preferredSizeBytes := None; preferredIndexerIds := None |}.

Definition sample_triage (nzbs : list string) : TriageOutcome :=
  TriageSummary
    (imap (fun i _ => buildDecision accept [] [] 1 None i []) nzbs).

Definition sample_output : Output :=
  triageAndRank sample_results sample_options
    (downloadNzbs (fun _ => Fetched "<nzb/>")) 100 sample_triage.

(** A map keeps its keys apart, and loses none, through a step that only
    uses [set]. *)
Definition keeps_keys {V X} (f : list (string * V) -> X -> list (string * V)) : Prop :=
  forall m x, (NoDup m.*1 -> NoDup (f m x).*1) /\ (forall k, k ∈ m.*1 -> k ∈ (f m x).*1).

End Runner.

(** ** One STAT on a borrowed client ([statSegmentWithClient]) *)

Module Stat.
Import Str Analyzer.

(** The error the NNTP client hands to the callback of [client.stat]; an
    empty [n_message] is a message that is not there. *)
Record NntpErr := { n_code : option Code; n_message : string }.

Inductive Settled :=
| Resolved
| Rejected (error : JsError).

(** The promise: the flag [completed] and how it settled, if it has. *)
Record Call := { completed : bool; settled : option Settled }.

Definition pending_call : Call := {| completed := false; settled := None |}.

Inductive StatEvent :=
| TimerFired
| Callback (err : option NntpErr).

Definition STAT_TIMEOUT_MS : Z := 5000.

Definition TRANSPORT_CODES : list Code :=
  [CodeStr "ETIMEDOUT"; CodeStr "ECONNRESET"; CodeStr "ECONNABORTED"; CodeStr "EPIPE"].

(** [[...].includes(err.code)]. *)
Definition is_transport (c : option Code) : bool :=
  match c with
  | Some c => bool_decide (c ∈ TRANSPORT_CODES)
  | None => false
  end.

(** The error built in the callback of [client.stat]. *)
Definition stat_error_of (err : NntpErr) : JsError :=
  let msg := if bool_decide (n_message err = EmptyString)
             then "STAT failed"%string else n_message err in
  let codeFromMessage :=
    if negb (bool_decide (n_message err = EmptyString)) && includes (n_message err) "430"
    then Some (CodeStr "STAT_MISSING") else n_code err in
  {| code := match n_code err with
             | Some c => Some c
             | None => codeFromMessage
             end;
     message := msg;
     dropClient := is_transport (n_code err) |}.

Definition timeout_error : JsError :=
  {| code := Some (CodeStr "STAT_TIMEOUT");
     message := "STAT timed out after 5s";
     dropClient := true |}.

(** One event on the promise: the timer of 5000 ms, or the callback. *)
Definition on_event (ev : StatEvent) (c : Call) : Call :=
  match ev with
  | TimerFired =>
      if negb (completed c)
      then {| completed := true; settled := Some (Rejected timeout_error) |}
      else c
  | Callback err =>
      if completed c then c
      else match err with
           | Some err =>
               {| completed := true; settled := Some (Rejected (stat_error_of err)) |}
           | None => {| completed := true; settled := Some Resolved |}
           end
  end.

Definition run_events (evs : list StatEvent) : Call := foldl (fun c ev => on_event ev c) pending_call evs.

(** The events of a call whose callback comes [t] ms after the call
    ([None]: never); the timer is cleared by a callback that came first. *)
Definition events_of (reply : option (Z * option NntpErr)) : list StatEvent :=
  match reply with
  | None => [TimerFired]
  | Some (t, err) =>
      if t <? STAT_TIMEOUT_MS then [Callback err] else [TimerFired; Callback err]
  end.

Definition statSegmentWithClient (reply : option (Z * option NntpErr)) : option Settled :=
  settled (run_events (events_of reply)).

(** A missing-article failure, as C6 words it. *)
Definition spec_missing (err : NntpErr) : Prop :=
  n_code err = Some (CodeNum 430) \/ includes (n_message err) "430" = true.

(** The failures that the code takes for a missing article: the code is
    430, or there is no code and the text contains 430. *)
Definition taken_as_missing (err : NntpErr) : Prop :=
  n_code err = Some (CodeNum 430)
  \/ (n_code err = None /\ includes (n_message err) "430" = true).

End Stat.

(** ** Borrowing a client ([runWithClient]) *)

Module Borrow.
Import Analyzer.

(** What a call does to the pool. *)
Inductive PoolCall :=
| CallAcquire
| CallRelease (client : nat) (drop : bool).

(** The mutable local [dropClient] and the calls made on the pool so far. *)
Record Frame := { dropClientVar : bool; calls : list PoolCall }.

(** Computations that may throw, over the frame. *)
Definition M (A : Type) : Type := Frame -> Result JsError A * Frame.

Definition ret {A} (a : A) : M A := fun s => (Ok a, s).
Definition throw {A} (e : JsError) : M A := fun s => (Err e, s).
Definition bind {A B} (m : M A) (k : A -> M B) : M B :=
  fun s => match m s with
           | (Ok a, s') => k a s'
           | (Err e, s') => (Err e, s')
           end.

(** [try { body } catch (err) { handler } finally { fin }]: an error thrown
    by [fin] takes the place of the outcome of the rest. *)
Definition try_catch_finally {A} (body : M A) (handler : JsError -> M A) (fin : M unit)
  : M A :=
  fun s =>
    let '(r, s) := body s in
    let '(r, s) := match r with
                   | Ok a => (Ok a, s)
                   | Err err => handler err s
                   end in
    match fin s with
    | (Ok _, s) => (r, s)
    | (Err e, s) => (Err e, s)
    end.

Definition log_call (c : PoolCall) : M unit :=
  fun s => (Ok tt, {| dropClientVar := dropClientVar s; calls := calls s ++ [c] |}).

Definition set_dropClient (b : bool) : M unit :=
  fun s => (Ok tt, {| dropClientVar := b; calls := calls s |}).

Definition get_dropClient : M bool := fun s => (Ok (dropClientVar s), s).

(** [await pool.acquire()]: the call is made and settles as [acquired]. *)
Definition pool_acquire (acquired : Result JsError (option nat)) : M (option nat) :=
  bind (log_call CallAcquire)
       (fun _ => match acquired with
                 | Ok c => ret c
                 | Err e => throw e
                 end).

(** [pool.release(client, { drop })]. *)
Definition pool_release (client : nat) (drop : bool) : M unit :=
  log_call (CallRelease client drop).

(** [await handler(client)]: the calls the handler makes on the pool and
    how it settles. *)
Definition run_handler {A} (handler : nat -> list PoolCall * Result JsError A)
    (client : nat) : M A :=
  fun s =>
    let '(made, r) := handler client in
    (r, {| dropClientVar := dropClientVar s; calls := calls s ++ made |}).

Definition unavailable (what : string) : JsError :=
  {| code := None; message := what; dropClient := false |}.

(** [runWithClient(pool, handler)]; [pool = false] is a pool that is null. *)
Definition runWithClient {A} (pool : bool) (acquired : Result JsError (option nat))
    (handler : nat -> list PoolCall * Result JsError A) : M A :=
  if negb pool then throw (unavailable "NNTP pool unavailable")
  else
    bind (pool_acquire acquired) (fun client =>
    match client with
    | None => throw (unavailable "NNTP client unavailable")
    | Some client =>
        bind (set_dropClient false) (fun _ =>
        try_catch_finally
          (run_handler handler client)
          (fun err =>
             bind (if dropClient err then set_dropClient true else ret tt)
                  (fun _ => throw err))
          (bind get_dropClient (fun dropClient => pool_release client dropClient)))
    end).

Definition fresh_frame : Frame := {| dropClientVar := false; calls := [] |}.

(** The releases among the calls. *)
Definition releases (cs : list PoolCall) : list (nat * bool) :=
  omap (fun c => match c with
                 | CallRelease client drop => Some (client, drop)
                 | CallAcquire => None
                 end) cs.

(** The value of [dropClient] when the [finally] block runs. *)
Definition drop_of {A} (settled : Result JsError A) : bool :=
  match settled with
  | Err err => dropClient err
  | Ok _ => false
  end.

End Borrow.

(** ** NNTP pool ([createNntpPool]) *)

Module Pool.

(** Clients and waiters (the [resolve] functions of pending [acquire]
    promises) are named by numbers. *)
Record PoolState := {
  allClients : gset nat;
  idle : list nat;
  waiters : list nat;
  closing : bool;
  lastUsed : Z;
  noopTimers : gset nat;
  (** The calls [waiter(client)] made so far, oldest first; [None] is the
      null client handed out by [close]. *)
  handed : list (nat * option nat)
}.

(** The clock and [isTriageActivityFresh()] when an event is handled. *)
Record Tick := { now : Z; fresh : bool }.

Definition touch (t : Tick) (s : PoolState) : PoolState :=
  {| allClients := allClients s; idle := idle s; waiters := waiters s;
     closing := closing s; lastUsed := now t; noopTimers := noopTimers s;
     handed := handed s |}.

Definition set_idle (l : list nat) (s : PoolState) : PoolState :=
  {| allClients := allClients s; idle := l; waiters := waiters s;
     closing := closing s; lastUsed := lastUsed s; noopTimers := noopTimers s;
     handed := handed s |}.

Definition set_waiters (l : list nat) (s : PoolState) : PoolState :=
  {| allClients := allClients s; idle := idle s; waiters := l;
     closing := closing s; lastUsed := lastUsed s; noopTimers := noopTimers s;
     handed := handed s |}.

Definition set_timers (g : gset nat) (s : PoolState) : PoolState :=
  {| allClients := allClients s; idle := idle s; waiters := waiters s;
     closing := closing s; lastUsed := lastUsed s; noopTimers := g;
     handed := handed s |}.

Definition set_clients (g : gset nat) (s : PoolState) : PoolState :=
  {| allClients := g; idle := idle s; waiters := waiters s;
     closing := closing s; lastUsed := lastUsed s; noopTimers := noopTimers s;
     handed := handed s |}.

(** [waiter(client)]. *)
Definition hand (w : nat) (c : option nat) (s : PoolState) : PoolState :=
  {| allClients := allClients s; idle := idle s; waiters := waiters s;
     closing := closing s; lastUsed := lastUsed s; noopTimers := noopTimers s;
     handed := handed s ++ [(w, c)] |}.

Definition cancelKeepAlive (c : nat) (s : PoolState) : PoolState :=
  set_timers (noopTimers s ∖ {[c]}) s.

Definition scheduleKeepAlive (t : Tick) (c : nat) (s : PoolState) : PoolState :=
  if closing s || bool_decide (c ∈ noopTimers s) then s
  else if negb (fresh t) then s
  else set_timers (noopTimers s ∪ {[c]}) s.

(** [scheduleReplacement(client)]: the client leaves [allClients]; its
    closing and the connection of the replacement go on outside the state
    and come back as the event of an arrival. *)
Definition scheduleReplacement (c : nat) (s : PoolState) : PoolState :=
  {| allClients := allClients s ∖ {[c]}; idle := idle s; waiters := waiters s;
     closing := closing s; lastUsed := lastUsed s; noopTimers := noopTimers s;
     handed := handed s |}.

(** [idle.pop()]: the last element leaves. *)
Definition pop (l : list nat) : option (nat * list nat) :=
  match reverse l with
  | [] => None
  | c :: r => Some (c, reverse r)
  end.

(** [acquireClient], for the promise whose [resolve] is [w]. When the pool
    is closing the promise is rejected and nothing changes. *)
Definition acquireClient (t : Tick) (w : nat) (s : PoolState) : PoolState :=
  if closing s then s
  else match pop (idle s) with
       | Some (client, rest) =>
           hand w (Some client) (touch t (cancelKeepAlive client (set_idle rest s)))
       | None => set_waiters (waiters s ++ [w]) s
       end.

(** [releaseClient(client, drop)]; [None] is a client that is null. *)
Definition releaseClient (t : Tick) (client : option nat) (drop : bool) (s : PoolState)
  : PoolState :=
  match client with
  | None => s
  | Some client =>
      if drop then scheduleReplacement client (cancelKeepAlive client s)
      else match waiters s with
           | waiter :: rest =>
               hand waiter (Some client) (touch t (set_waiters rest s))
           | [] =>
               scheduleKeepAlive t client (touch t (set_idle (idle s ++ [client]) s))
           end
  end.

(** The continuation of [attemptReplacement] once [createNntpClient] has
    given [replacement]. *)
Definition replacementArrived (t : Tick) (replacement : nat) (s : PoolState) : PoolState :=
  let s := set_clients (allClients s ∪ {[replacement]}) s in
  match waiters s with
  | waiter :: rest => hand waiter (Some replacement) (touch t (set_waiters rest s))
  | [] => touch t (set_idle (idle s ++ [replacement]) s)
  end.

(** [idle.splice(idle.indexOf(client), 1)]. *)
Fixpoint remove_first (c : nat) (l : list nat) : list nat :=
  match l with
  | [] => []
  | x :: l' => if bool_decide (x = c) then l' else x :: remove_first c l'
  end.

(** The keep-alive timer of [client] fires. *)
Definition keepAliveFired (client : nat) (s : PoolState) : PoolState :=
  set_timers (noopTimers s ∖ {[client]}) s.

(** The keep-alive STAT of [client] succeeded. *)
Definition keepAliveOk (t : Tick) (client : nat) (s : PoolState) : PoolState :=
  if negb (closing s) && bool_decide (client ∈ idle s) && fresh t
  then scheduleKeepAlive t client s else s.

(** The keep-alive STAT of [client] failed or timed out. *)
Definition keepAliveFailed (client : nat) (s : PoolState) : PoolState :=
  scheduleReplacement client (set_idle (remove_first client (idle s)) s).

(** The [setInterval] callback that rotates one idle client. *)
Definition rotate (t : Tick) (keepAliveMs : Z) (s : PoolState) : PoolState :=
  if closing s then s
  else if negb (fresh t) then s
  else if now t - lastUsed s <? keepAliveMs then s
  else match waiters s with
       | _ :: _ => s
       | [] =>
           match pop (idle s) with
           | None => s
           | Some (client, rest) =>
               touch t (scheduleReplacement client (set_idle rest s))
           end
       end.

(** [close()]: every waiter gets the null client. *)
Definition close (s : PoolState) : PoolState :=
  {| allClients := ∅; idle := []; waiters := [];
     closing := true; lastUsed := lastUsed s; noopTimers := ∅;
     handed := handed s ++ map (fun w => (w, None)) (waiters s) |}.

Inductive Event :=
| Acquire (w : nat)
| Release (client : option nat) (drop : bool)
| ReplacementArrived (replacement : nat)
| KeepAliveFired (client : nat)
| KeepAliveOk (client : nat)
| KeepAliveFailed (client : nat)
| Rotate
| Close
| Touch.

Section Machine.
Variable keepAliveMs : Z.

Definition step (t : Tick) (ev : Event) (s : PoolState) : PoolState :=
  match ev with
  | Acquire w => acquireClient t w s
  | Release client drop => releaseClient t client drop s
  | ReplacementArrived replacement => replacementArrived t replacement s
  | KeepAliveFired client => keepAliveFired client s
  | KeepAliveOk client => keepAliveOk t client s
  | KeepAliveFailed client => keepAliveFailed client s
  | Rotate => rotate t keepAliveMs s
  | Close => close s
  | Touch => touch t s
  end.

(** The pool as [createNntpPool] returns it. *)
Definition initial (t : Tick) (initialClients : list nat) : PoolState :=
  {| allClients := list_to_set initialClients; idle := initialClients;
     waiters := []; closing := false; lastUsed := now t; noopTimers := ∅;
     handed := [] |}.

(** The states of the pool after any sequence of events. *)
Inductive reachable : PoolState -> Prop :=
| reach_initial t initialClients : reachable (initial t initialClients)
| reach_step t ev s : reachable s -> reachable (step t ev s).

End Machine.

(** No waiter while a client is idle. *)
Definition no_waiter_while_idle (s : PoolState) : Prop :=
  waiters s = [] \/ idle s = [].

End Pool.

(** ** Names used in the further properties of the analyzer *)

Module AnalyzerTerms.
Import Str Inspector Analyzer.

(** The key under which [dedupeArchiveCandidates] files an archive. *)
Definition archive_key (archive : File) : option string :=
  ArchiveKey.canonicalArchiveKey (default (subject archive) (filename archive)).

(** The warning of [analyzeSingleNzb] for a pool that is not there. *)
Definition nntp_warning (ctx : Ctx) : string :=
  match nntpError ctx with
  | Some e => "nntp-error:" +:+ match code e with
                                | Some c => code_text c
                                | None => message e
                                end
  | None => "nntp-disabled"
  end.

(** The blockers an analysis that returns can hold. *)
Definition ANALYSIS_BLOCKERS : list string :=
  ["rar-compressed"; "rar-encrypted"; "rar-solid"; "sevenzip-unsupported";
   "missing-articles"]%string.

(** The statuses [handleArchiveStatus] is called with: those of the
    inspector, of the local lookup and of the remote check. *)
Definition CHECK_STATUSES : list Status :=
  [rar_stored; sevenzip_stored; rar_compressed; rar_encrypted; rar_solid;
   sevenzip_unsupported; rar_header_not_found; rar_insufficient_data;
   rar_corrupt_header; sevenzip_insufficient_data;
   io_error; archive_not_found; missing_filename; archive_no_segments;
   stat_missing; stat_error; body_missing; body_error; decode_error].

(** The parts of the state that concern the pool. *)
Definition pool_view (st : St) : list string * nat * list string :=
  (statLog st, calls st, checkedSegments st).

(** Every blocker gathered so far is one of the five. *)
Definition blockers_ok (st : St) : Prop :=
  Forall (fun b => b ∈ ANALYSIS_BLOCKERS) (st_blockers st).

(** No segment was asked for twice, and every segment asked for is marked
    as checked. *)
Definition once (st : St) : Prop :=
  NoDup (statLog st) /\ statLog st ⊆ checkedSegments st.

(** An NZB with one video file of three segments and no archive. *)
Definition sample_nzb_video : Parsed :=
  {| files := [ {| subject := "v"; filename := Some "movie.mkv"%string;
                   segments := [sample_segment "v0"; sample_segment "v1";
                                sample_segment "v2"] |} ];
     title := Some "Movie"%string |}.

End AnalyzerTerms.

(** ** One BODY on a borrowed client ([fetchSegmentBodyWithClient]) *)

Module Body.
Import Buf Str Analyzer Stat.

(** What the promise settles to when the callback of [client.body] comes
    with [err] and [bodyBuffer]; a buffer that is not there is [None]. *)
Definition fetchSegmentBodyWithClient (err : option NntpErr)
    (bodyBuffer : option Buffer) : Result JsError Buffer :=
  match err with
  | Some err =>
      let code0 := match n_code err with
                   | Some c => c
                   | None => CodeStr "BODY_ERROR"
                   end in
      Err {| code := Some (if bool_decide (code0 = CodeNum 430)
                           then CodeStr "BODY_MISSING" else code0);
             message := if bool_decide (Stat.n_message err = EmptyString)
                        then "BODY failed"%string else Stat.n_message err;
             dropClient := is_transport (n_code err) |}
  | None =>
      match bodyBuffer with
      | None | Some [] =>
          Err {| code := Some (CodeStr "BODY_ERROR");
                 message := "Empty BODY response";
                 dropClient := false |}
      | Some (b :: bs) => Ok (b :: bs)
      end
  end.

(** The environment in which every BODY callback comes with [err] and
    [bodyBuffer]. *)
Definition answering (env : Env) (err : option NntpErr) (bodyBuffer : option Buffer)
  : Env :=
  {| acquire := acquire env; stat := stat env;
     body := fun _ => fetchSegmentBodyWithClient err bodyBuffer;
     fs := fs env; rnd := rnd env |}.

End Body.


(** ** The pool along a trace of events *)

Module PoolTrace.
Import Pool.

Section Trace.
Variable keepAliveMs : Z.

(** The pool after the events of a trace, oldest first, each with the clock
    at which it is handled. *)
Definition run (evs : list (Tick * Event)) (s : PoolState) : PoolState :=
  foldl (fun s e => step keepAliveMs e.1 e.2 s) s evs.

(** The acquires of a trace that the pool takes up (those made while it is
    not closing; the others are rejected), oldest first. *)
Fixpoint accepted (evs : list (Tick * Event)) (s : PoolState) : list nat :=
  match evs with
  | [] => []
  | (t, ev) :: evs =>
      match ev with
      | Acquire w => if closing s then [] else [w]
      | _ => []
      end ++ accepted evs (step keepAliveMs t ev s)
  end.

End Trace.

End PoolTrace.


(** ** The workers of [analyzeWithConcurrency] *)

Module Workers.

Section Workers.
Context {D : Type}.

(** [total] is [nzbStrings.length]; [decide index] is what the [try] and
    [catch] around [analyzeSingleNzb] store for the NZB at [index]. *)
Variable total : nat.
Variable decide : nat -> D.

(** The shared locals [nextIndex] and [results] (a hole is [None]), and
    the workers suspended at their [await], each with the index it took. *)
Record WState := {
  nextIndex : nat;
  results : list (option (nat * D));
  waiting : list (nat * nat)
}.

(** The head of the loop of worker [w]: it takes the next index and
    suspends on its analysis, or leaves the loop. *)
Definition claim (w : nat) (s : WState) : WState :=
  if bool_decide (total <= nextIndex s)%nat then s
  else {| nextIndex := S (nextIndex s); results := results s;
          waiting := waiting s ++ [(w, nextIndex s)] |}.

(** The analysis that worker [w] awaits settles: the worker stores its
    result and goes round the loop. *)
Definition settle (w : nat) (s : WState) : WState :=
  match list_find (fun p : nat * nat => p.1 = w) (waiting s) with
  | Some (k, (_, index)) =>
      claim w {| nextIndex := nextIndex s;
                 results := <[index := Some (index, decide index)]> (results s);
                 waiting := delete k (waiting s) |}
  | None => s
  end.

(** [Array.from({ length: parallelLimit }, async () => ...)]: every worker
    runs up to its first [await]. *)
Definition start (parallelLimit : nat) : WState :=
  foldl (fun s w => claim w s)
        {| nextIndex := 0; results := replicate total None; waiting := [] |}
        (seq 0 parallelLimit).

(** The state after the analyses settle in the order of [schedule] (the
    workers that await them). *)
Definition run (parallelLimit : nat) (schedule : list nat) : WState :=
  foldl (fun s w => settle w s) (start parallelLimit) schedule.

(** [analyzeWithConcurrency], once [Promise.all(workers)] has resolved
    (no worker is waiting): [results.filter(Boolean)]. *)
Definition analyzeWithConcurrency (parallelLimit : nat) (schedule : list nat)
  : list (nat * D) :=
  if bool_decide (total = 0%nat) then []
  else omap id (results (run parallelLimit schedule)).

(** What holds of the locals between two turns of the event loop. *)
Definition consistent (s : WState) : Prop :=
  (nextIndex s <= total)%nat
  /\ length (results s) = total
  /\ NoDup (waiting s).*2
  /\ (forall i, i ∈ (waiting s).*2 -> (i < nextIndex s)%nat)
  /\ (forall i, (i < total)%nat ->
        results s !! i
        = Some (if bool_decide ((i < nextIndex s)%nat /\ i ∉ (waiting s).*2)
                then Some (i, decide i) else None)).

(** While an index is left, some worker is at work. *)
Definition busy (s : WState) : Prop :=
  (nextIndex s < total)%nat -> waiting s <> [].

End Workers.

End Workers.

(** ** The counts of [triageNzbs] ([buildFlagCounts]) *)

Module Flags.
Import Analyzer.

(** A property of the object [counts]: a number, or what [+ 1] makes of a
    value that is no number (a string). *)
Inductive Count := Num (n : nat) | Text.

(** The names that every object inherits from [Object.prototype]. *)
Definition INHERITED : list string :=
  [ "constructor"; "hasOwnProperty"; "isPrototypeOf"; "propertyIsEnumerable";
    "toLocaleString"; "toString"; "valueOf";
    "__defineGetter__"; "__defineSetter__"; "__lookupGetter__"; "__lookupSetter__";
    "__proto__" ]%string.

(** [counts[item] = (counts[item] ?? 0) + 1]. An inherited name reads as a
    function, and the sum is a string; [__proto__] cannot be set to it. *)
Definition bump (counts : gmap string Count) (item : string) : gmap string Count :=
  match counts !! item with
  | Some (Num n) => <[item := Num (n + 1)]> counts
  | Some Text => <[item := Text]> counts
  | None =>
      if bool_decide (item = "__proto__"%string) then counts
      else if bool_decide (item ∈ INHERITED) then <[item := Text]> counts
      else <[item := Num 1]> counts
  end.

(** [buildFlagCounts(decisions, property)]; [property] reads the flags. *)
Definition buildFlagCounts (decisions : list NzbDecision)
    (property : NzbDecision -> list string) : gmap string Count :=
  foldl (fun counts decision => foldl bump counts (property decision)) ∅ decisions.

(** How often [item] is among the flags of the decisions. *)
Definition occurrences (item : string) (decisions : list NzbDecision)
    (property : NzbDecision -> list string) : nat :=
  length (filter (fun x => x = item) (concat (property <$> decisions))).

End Flags.


(** * Properties *)

(** ** yEnc decoder *)

Module YencFacts.
Import Buf Yenc.

Lemma land_ff (x : Z) : Z.land x 0xff = x mod 256.
Proof. change 0xff with (Z.ones 8). rewrite Z.land_ones by lia. reflexivity. Qed.

Lemma unescape_byte (n : Z) :
  Z.land (Z.land (n - 64) 0xff - 42) 0xff = (n - 64 - 42) mod 256.
Proof. rewrite !land_ff. apply Zminus_mod_idemp_l. Qed.

Lemma loop_after_nil (m : nat) (acc : list Z) :
  loop_after m acc [] = Running (acc ++ replicate (m - length acc) 0) (length acc).
Proof. unfold loop_after. rewrite app_nil_r. reflexivity. Qed.

Lemma write_next (m : nat) (acc : list Z) (b : Z) :
  room m acc ->
  <[length acc := b]> (acc ++ replicate (m - length acc) 0)
  = if (m =? 0)%nat then []
    else (acc ++ [b]) ++ replicate (m - length (acc ++ [b])) 0.
Proof.
  intros [Hlt | [-> ->]]; [|reflexivity].
  destruct (Nat.eqb_spec m 0) as [->|_]; [lia|].
  rewrite insert_app_r_alt by lia. rewrite Nat.sub_diag.
  destruct (m - length acc)%nat as [|k] eqn:Hk; [lia|].
  cbn [replicate]. cbn. rewrite <- app_assoc. cbn.
  rewrite length_app. cbn.
  replace (m - (length acc + 1))%nat with k by lia. reflexivity.
Qed.

Lemma loop_after_step (m : nat) (acc : list Z) (b : Z) (rest : list Z) :
  room m acc ->
  (if (m <=? S (length acc))%nat
   then Returned (<[length acc := b]> (acc ++ replicate (m - length acc) 0))
   else loop_after m (acc ++ [b]) rest)
  = loop_after m acc (b :: rest).
Proof.
  intros Hroom. rewrite write_next by exact Hroom.
  assert (Hmid : (acc ++ [b]) ++ rest = acc ++ b :: rest)
    by (rewrite <- app_assoc; reflexivity).
  assert (Hlen : length (acc ++ [b]) = S (length acc))
    by (rewrite length_app; cbn; lia).
  unfold loop_after. rewrite Hmid.
  assert (Hfull : length (acc ++ b :: rest) = (S (length acc) + length rest)%nat)
    by (rewrite length_app; cbn; lia).
  destruct Hroom as [Hlt | [-> ->]]; [|reflexivity].
  destruct (Nat.eqb_spec m 0) as [->|_]; [lia|].
  destruct (Nat.leb_spec m (S (length acc))) as [Hle|Hgt].
  - destruct (Nat.leb_spec m (length (acc ++ b :: rest))) as [_|?]; [|lia].
    assert (m = length (acc ++ [b])) as -> by lia.
    rewrite Nat.sub_diag. cbn [replicate]. rewrite app_nil_r.
    rewrite <- Hmid, take_app_length. reflexivity.
  - destruct rest as [|r rest']; [|reflexivity].
    destruct (Nat.leb_spec m (length (acc ++ [b]))) as [?|_]; [lia|].
    reflexivity.
Qed.

Lemma decode_src_loop (m : nat) (src : list Z) :
  forall acc, room m acc ->
    decode_src m src (acc ++ replicate (m - length acc) 0) (length acc)
    = loop_after m acc (spec_line src).
Proof.
  remember (length src) as k eqn:Hk. revert src Hk.
  induction k as [k IH] using lt_wf_ind. intros src Hk acc Hroom.
  destruct src as [|c rest]; [cbn; symmetry; apply loop_after_nil|].
  cbn [decode_src spec_line].
  destruct (c =? 0x3D).
  - destruct rest as [|n rest']; [symmetry; apply loop_after_nil|].
    rewrite unescape_byte.
    rewrite <- loop_after_step by exact Hroom.
    destruct (Nat.leb_spec m (S (length acc))) as [Hle|Hgt]; [reflexivity|].
    rewrite write_next by exact Hroom.
    destruct (Nat.eqb_spec m 0) as [->|_]; [lia|].
    replace (S (length acc)) with (length (acc ++ [(n - 64 - 42) mod 256]))
      by (rewrite length_app; cbn; lia).
    apply (IH (length rest')); [cbn in Hk; lia | reflexivity |].
    left. rewrite length_app. cbn. lia.
  - rewrite land_ff.
    rewrite <- loop_after_step by exact Hroom.
    destruct (Nat.leb_spec m (S (length acc))) as [Hle|Hgt]; [reflexivity|].
    rewrite write_next by exact Hroom.
    destruct (Nat.eqb_spec m 0) as [->|_]; [lia|].
    replace (S (length acc)) with (length (acc ++ [(c - 42) mod 256]))
      by (rewrite length_app; cbn; lia).
    apply (IH (length rest)); [cbn in Hk; lia | reflexivity |].
    left. rewrite length_app. cbn. lia.
Qed.

Lemma room_nil (m : nat) : room m [].
Proof. destruct m; [right; split; reflexivity | left; cbn; lia]. Qed.

(** Once the cap is reached inside [e1], what follows is not looked at. *)
Lemma loop_after_returned (m : nat) (acc e1 e2 : list Z) :
  e1 <> [] -> (m <= length (acc ++ e1))%nat ->
  loop_after m acc (e1 ++ e2) = Returned (take m (acc ++ e1)).
Proof.
  intros Hne Hle. unfold loop_after.
  destruct e1 as [|x e1]; [congruence|]. cbn [app].
  change (acc ++ x :: e1 ++ e2) with (acc ++ (x :: e1) ++ e2).
  rewrite app_assoc.
  destruct (Nat.leb_spec m (length ((acc ++ x :: e1) ++ e2))) as [_|Hgt].
  - rewrite take_app_le by exact Hle. reflexivity.
  - rewrite length_app in Hgt. lia.
Qed.

(** Below the cap, the loop goes on from [acc ++ e1]. *)
Lemma loop_after_running (m : nat) (acc e1 e2 : list Z) :
  (e1 = [] \/ (length (acc ++ e1) < m)%nat) ->
  loop_after m acc (e1 ++ e2) = loop_after m (acc ++ e1) e2.
Proof.
  intros [-> | Hlt]; [rewrite app_nil_r; reflexivity|].
  unfold loop_after. rewrite <- !app_assoc.
  destruct e2 as [|y e2].
  - rewrite !app_nil_r. destruct e1 as [|x e1]; [reflexivity|].
    destruct (Nat.leb_spec m (length (acc ++ x :: e1))); [lia|reflexivity].
  - destruct e1 as [|x e1]; reflexivity.
Qed.

Lemma decode_lines_loop (m : nat) (lines : list (list Z)) :
  forall decoding acc, room m acc ->
    decode_lines m lines decoding (acc ++ replicate (m - length acc) 0) (length acc)
    = loop_after m acc (concat (map spec_line (spec_payload_lines decoding lines))).
Proof.
  induction lines as [|line lines IH]; intros decoding acc Hroom.
  - cbn. symmetry. apply loop_after_nil.
  - cbn [decode_lines spec_payload_lines].
    destruct (negb decoding); [apply IH; exact Hroom|].
    destruct (starts_with ypart line); [apply IH; exact Hroom|].
    destruct (starts_with yend line); [symmetry; apply loop_after_nil|].
    rewrite decode_src_loop by exact Hroom.
    cbn [map concat].
    destruct (spec_line line) as [|x e1] eqn:He1.
    + rewrite loop_after_nil. cbn [app]. apply IH; exact Hroom.
    + destruct (Nat.leb_spec m (length (acc ++ x :: e1))) as [Hle|Hgt].
      * rewrite loop_after_returned by (congruence || exact Hle).
        unfold loop_after.
        destruct (Nat.leb_spec m (length (acc ++ x :: e1))); [reflexivity|lia].
      * rewrite loop_after_running by (right; exact Hgt).
        unfold loop_after at 1.
        destruct (Nat.leb_spec m (length (acc ++ x :: e1))); [lia|].
        apply IH. left. exact Hgt.
Qed.

Example decode_sample_article :
  decodeYencBuffer sample_article 16 = Ok [72; 214; 19; 0]
  /\ decodeYencBuffer sample_article 2 = Ok [72; 214]
  /\ decodeYencBuffer (of_string "no yenc here") 16 = Err DECODE_ERROR.
Proof. repeat split; vm_compute; reflexivity. Qed.

(** [decodeYencBuffer] computes the specification's decoding, cut at the cap,
    and fails exactly when the payload decodes to nothing. *)
Lemma decode_refines (body : Buffer) (m : nat) :
  decodeYencBuffer body m
  = match spec_payload body with
    | [] => Err DECODE_ERROR
    | _ :: _ => Ok (take m (spec_payload body))
    end.
Proof.
  unfold decodeYencBuffer, spec_payload.
  pose proof (decode_lines_loop m (split_crlf body) false [] (room_nil m)) as H.
  cbn [app length] in H. rewrite Nat.sub_0_r in H. rewrite H. clear H.
  unfold loop_after. cbn [app].
  destruct (concat _) as [|x e]; [reflexivity|].
  destruct (Nat.leb_spec m (length (x :: e))) as [Hle|Hgt]; [reflexivity|].
  change (length (x :: e) =? 0)%nat with false. cbv iota.
  rewrite take_app_length, take_ge by lia. reflexivity.
Qed.

(** C5 as stated fails when the cap is 0: the body
    [=ybegin CRLF A CRLF =yend] decodes to an empty buffer without error. *)
Lemma decode_cap_zero_no_error :
  let body := ybegin ++ [13; 10] ++ [65] ++ [13; 10] ++ yend in
  ~ (decodeYencBuffer body 0 = Err DECODE_ERROR
     <-> produced (decodeYencBuffer body 0) = 0%nat).
Proof. cbv. intros [_ H]. specialize (H eq_refl). discriminate H. Qed.

(** C5 (amended): the decoder returns the specification's decoding of the
    payload cut at [maxBytes]; it never hands back more than [maxBytes]
    bytes; it fails with [DECODE_ERROR] exactly when the payload decodes to
    no byte at all, which for a cap of at least one byte is exactly when no
    output byte is produced. *)
Theorem decodeYencBuffer_correct (body : Buffer) (maxBytes cap' : nat) :
  decodeYencBuffer body maxBytes
  = match spec_payload body with
    | [] => Err DECODE_ERROR
    | _ :: _ => Ok (take maxBytes (spec_payload body))
    end
  /\ (produced (decodeYencBuffer body maxBytes) <= maxBytes)%nat
  /\ (decodeYencBuffer body maxBytes = Err DECODE_ERROR <-> spec_payload body = [])
  /\ (decodeYencBuffer body (S cap') = Err DECODE_ERROR
      <-> produced (decodeYencBuffer body (S cap')) = 0%nat).
Proof.
  rewrite !decode_refines.
  destruct (spec_payload body) as [|x e]; cbn [produced].
  - repeat split; auto with arith.
  - repeat split; try discriminate.
    rewrite length_take. lia.
Qed.

End YencFacts.

(** ** Archive inspector *)

Module InspectorFacts.
Import Buf Inspector.

(** With more fuel than bytes left the loop ends with a result, the same
    for every such fuel. *)
Lemma loop_fuel (buffer : Buffer) (f1 : nat) :
  forall f2 offset,
    (length buffer - offset < f1)%nat -> (length buffer - offset < f2)%nat ->
    inspectRar4_loop f1 buffer offset = inspectRar4_loop f2 buffer offset
    /\ inspectRar4_loop f1 buffer offset <> None.
Proof.
  induction f1 as [|f1 IH]; intros f2 offset H1 H2; [lia|].
  destruct f2 as [|f2]; [lia|].
  cbn [inspectRar4_loop].
  destruct (Nat.ltb_spec (length buffer) (offset + 7)); [split; congruence|].
  destruct (Nat.ltb_spec (Z.to_nat (readUInt16LE buffer (offset + 5))) 7);
    [split; congruence|].
  destruct (Nat.ltb_spec (length buffer)
              (offset + Z.to_nat (readUInt16LE buffer (offset + 5))));
    [split; congruence|].
  destruct (bool_decide _); [split; congruence|].
  apply IH; lia.
Qed.

(** [inspectRar4] never runs out of fuel. *)
Lemma inspectRar4_total (buffer : Buffer) :
  inspectRar4_loop (S (length buffer)) buffer (length RAR4_SIGNATURE)
  = Some (inspectRar4 buffer).
Proof.
  unfold inspectRar4.
  destruct (loop_fuel buffer (S (length buffer)) (S (length buffer))
              (length RAR4_SIGNATURE)) as [_ Hne]; [lia | lia |].
  destruct (inspectRar4_loop _ _ _); [reflexivity | congruence].
Qed.

(** The loop started at a scanned offset gives the result of the whole scan. *)
Lemma scanned_result (buffer : Buffer) (offset : nat) :
  Scanned buffer offset ->
  forall fuel, (length buffer - offset < fuel)%nat ->
    inspectRar4_loop fuel buffer offset = Some (inspectRar4 buffer).
Proof.
  induction 1 as [|offset Hsc IH H7 Hty Hsz Hfit]; intros fuel Hfuel.
  - rewrite <- inspectRar4_total. apply loop_fuel; lia.
  - rewrite <- (IH (S (length buffer))) by lia.
    cbn [inspectRar4_loop].
    destruct (Nat.ltb_spec (length buffer) (offset + 7)); [lia|].
    destruct (Nat.ltb_spec (Z.to_nat (readUInt16LE buffer (offset + 5))) 7); [lia|].
    destruct (Nat.ltb_spec (length buffer)
                (offset + Z.to_nat (readUInt16LE buffer (offset + 5)))); [lia|].
    rewrite bool_decide_eq_false_2 by exact Hty.
    apply loop_fuel; lia.
Qed.

Lemma has_flag_spec (flags mask : Z) :
  has_flag flags mask = negb (Z.land flags mask =? 0).
Proof. reflexivity. Qed.

(** On a complete file header the four decisions are taken in the
    specification's order. *)
Lemma file_header_decision (buffer : Buffer) (offset : nat) :
  FileHeaderAt buffer offset ->
  status (inspect_file_header buffer offset (readUInt16LE buffer (offset + 3)))
  = spec_rar4_decision (readUInt16LE buffer (offset + 3)) (get buffer (offset + 25)).
Proof.
  intros (H7 & Hty & Hsz & Hfit & H28 & Hname).
  unfold inspect_file_header, spec_rar4_decision.
  destruct (Nat.ltb_spec (length buffer) (offset + 7 + 11)); [lia|].
  destruct (Nat.leb_spec (length buffer) (offset + 7 + 4 + 4 + 1 + 4 + 4)); [lia|].
  destruct (Nat.ltb_spec (length buffer)
              (offset + 7 + 4 + 4 + 1 + 4 + 4 + 1 + 1 + 2)); [lia|].
  replace (offset + 7 + 4 + 4 + 1 + 4 + 4 + 1 + 1)%nat with (offset + 26)%nat by lia.
  replace (offset + 7 + 4 + 4 + 1 + 4 + 4 + 1)%nat with (offset + 25)%nat by lia.
  destruct (Nat.ltb_spec (length buffer)
              (name_pos offset (readUInt16LE buffer (offset + 3))
               + Z.to_nat (readUInt16LE buffer (offset + 26)))); [lia|].
  rewrite !has_flag_spec.
  destruct (negb (Z.land _ 0x0004 =? 0)); [reflexivity|].
  destruct (negb (Z.land _ 0x0010 =? 0)); [reflexivity|].
  destruct (negb (bool_decide _)); reflexivity.
Qed.

Lemma rar5_not_rar4 (buffer : Buffer) :
  starts_with RAR5_SIGNATURE buffer = true ->
  starts_with RAR4_SIGNATURE buffer = false.
Proof.
  unfold RAR5_SIGNATURE, RAR4_SIGNATURE.
  do 8 (destruct buffer as [|? buffer];
        [cbn; rewrite ?andb_false_r; discriminate|]).
  cbn [starts_with]. intros H.
  repeat (apply andb_prop in H; destruct H as [? H]).
  repeat match goal with
         | E : (_ =? _) = true |- _ => apply Z.eqb_eq in E; subst
         end.
  reflexivity.
Qed.

Example inspect_rar4_volumes :
  status (inspectArchiveBuffer (rar4_volume 0 0x30)) = rar_stored
  /\ status (inspectArchiveBuffer (rar4_volume 0 0x33)) = rar_compressed
  /\ status (inspectArchiveBuffer (rar4_volume 0x10 0x33)) = rar_solid
  /\ status (inspectArchiveBuffer (rar4_volume 0x14 0x33)) = rar_encrypted
  /\ status (inspectArchiveBuffer (take 30 (rar4_volume 0 0x30))) = rar_insufficient_data
  /\ status (inspectArchiveBuffer (take 20 (rar4_volume 0 0x30))) = rar_header_not_found
  /\ status (inspectArchiveBuffer [0x37; 0x7A; 0xBC; 0xAF; 0x27; 0x1C])
     = sevenzip_insufficient_data.
Proof. repeat split; vm_compute; reflexivity. Qed.

(** A file header whose fixed fields or name reach past the end of the
    buffer. *)
Lemma file_header_cut (buffer : Buffer) (offset : nat) :
  ~ ((offset + 28 <= length buffer)%nat
     /\ (name_pos offset (readUInt16LE buffer (offset + 3))
         + Z.to_nat (readUInt16LE buffer (offset + 26)) <= length buffer)%nat) ->
  inspect_file_header buffer offset (readUInt16LE buffer (offset + 3))
  = only rar_insufficient_data.
Proof.
  intros Hcut. unfold inspect_file_header.
  destruct (Nat.ltb_spec (length buffer) (offset + 7 + 11)); [reflexivity|].
  destruct (Nat.leb_spec (length buffer) (offset + 7 + 4 + 4 + 1 + 4 + 4)); [reflexivity|].
  destruct (Nat.ltb_spec (length buffer)
              (offset + 7 + 4 + 4 + 1 + 4 + 4 + 1 + 1 + 2)); [reflexivity|].
  replace (offset + 7 + 4 + 4 + 1 + 4 + 4 + 1 + 1)%nat with (offset + 26)%nat by lia.
  destruct (Nat.ltb_spec (length buffer)
              (name_pos offset (readUInt16LE buffer (offset + 3))
               + Z.to_nat (readUInt16LE buffer (offset + 26)))); [reflexivity|].
  exfalso. apply Hcut. split; lia.
Qed.

(** The scan comes to a stop. *)
Lemma scan_stops (buffer : Buffer) (fuel : nat) :
  forall offset, Scanned buffer offset -> (length buffer - offset < fuel)%nat ->
    exists offset', Scanned buffer offset' /\ StopsAt buffer offset'.
Proof.
  induction fuel as [|fuel IH]; intros offset Hsc Hfuel; [lia|].
  destruct (Nat.lt_ge_cases (length buffer) (offset + 7)) as [Hshort|H7].
  { exists offset. split; [exact Hsc | left; exact Hshort]. }
  destruct (Nat.lt_ge_cases (Z.to_nat (readUInt16LE buffer (offset + 5))) 7) as [Hsz|Hsz].
  { exists offset. split; [exact Hsc | right; split; [exact H7 | left; exact Hsz]]. }
  destruct (Nat.lt_ge_cases (length buffer)
              (offset + Z.to_nat (readUInt16LE buffer (offset + 5)))) as [Hover|Hfit].
  { exists offset. split; [exact Hsc | right; split; [exact H7 | right; left; exact Hover]]. }
  destruct (bool_decide_reflect (get buffer (offset + 2) = Some 0x74)) as [Hty|Hty].
  { exists offset. split; [exact Hsc | right; split; [exact H7 | right; right; exact Hty]]. }
  apply (IH (offset + Z.to_nat (readUInt16LE buffer (offset + 5)))%nat).
  - apply scanned_next; assumption.
  - lia.
Qed.

(** C4 as stated fails. The buffer [rar4_cut_main] holds the signature and
    one main header; the scan never meets a file header, and the result is
    [rar-insufficient-data], not [rar-header-not-found]. The buffer
    [rar4_cut_file] holds a file header with the encrypted flag set, and
    the result is [rar-insufficient-data], not [rar-encrypted]. *)
Lemma rar4_cut_buffers :
  (starts_with RAR4_SIGNATURE rar4_cut_main = true
   /\ (forall offset, Scanned rar4_cut_main offset -> offset = 7%nat)
   /\ get rar4_cut_main 9 <> Some 0x74
   /\ status (inspectArchiveBuffer rar4_cut_main) = rar_insufficient_data)
  /\ (starts_with RAR4_SIGNATURE rar4_cut_file = true
      /\ get rar4_cut_file 9 = Some 0x74
      /\ has_flag (readUInt16LE rar4_cut_file 10) 0x0004 = true
      /\ status (inspectArchiveBuffer rar4_cut_file) = rar_insufficient_data).
Proof.
  split; [|repeat split; vm_compute; reflexivity].
  split; [reflexivity|]. split; [|split; [vm_compute; discriminate | reflexivity]].
  assert (Hall : forall offset, Scanned rar4_cut_main offset -> offset = 7%nat).
  { induction 1 as [|offset _ IH H7 _ _ Hfit]; [reflexivity|].
    subst offset. vm_compute in Hfit. lia. }
  exact Hall.
Qed.

(** C4 (amended): a buffer that begins with the RAR5 signature is
    [rar-stored] whatever follows. In a buffer that begins with the RAR4
    signature the scan over the block headers comes to a stop, and where it
    does the result is: [rar-header-not-found] when fewer than 7 bytes are
    left; [rar-corrupt-header] when the header gives a size below 7;
    [rar-insufficient-data] when the block reaches past the end of the
    buffer, and when the block is a file header whose fields or name reach
    past the end; and on a file header that lies in the buffer the status
    decided in the order encrypted, solid, compressed, stored. *)
Theorem inspectArchiveBuffer_decisions (buffer : Buffer) :
  (starts_with RAR5_SIGNATURE buffer = true ->
   status (inspectArchiveBuffer buffer) = rar_stored)
  /\ (starts_with RAR4_SIGNATURE buffer = true ->
      (exists offset, Scanned buffer offset /\ StopsAt buffer offset)
      /\ forall offset, Scanned buffer offset ->
           ((length buffer < offset + 7)%nat ->
            status (inspectArchiveBuffer buffer) = rar_header_not_found)
           /\ ((offset + 7 <= length buffer)%nat ->
               (Z.to_nat (readUInt16LE buffer (offset + 5)) < 7)%nat ->
               status (inspectArchiveBuffer buffer) = rar_corrupt_header)
           /\ ((offset + 7 <= length buffer)%nat ->
               (7 <= Z.to_nat (readUInt16LE buffer (offset + 5)))%nat ->
               (length buffer < offset + Z.to_nat (readUInt16LE buffer (offset + 5)))%nat ->
               status (inspectArchiveBuffer buffer) = rar_insufficient_data)
           /\ ((offset + 7 <= length buffer)%nat ->
               (7 <= Z.to_nat (readUInt16LE buffer (offset + 5)))%nat ->
               (offset + Z.to_nat (readUInt16LE buffer (offset + 5)) <= length buffer)%nat ->
               get buffer (offset + 2) = Some 0x74 ->
               ~ ((offset + 28 <= length buffer)%nat
                  /\ (name_pos offset (readUInt16LE buffer (offset + 3))
                      + Z.to_nat (readUInt16LE buffer (offset + 26))
                      <= length buffer)%nat) ->
               status (inspectArchiveBuffer buffer) = rar_insufficient_data)
           /\ (FileHeaderAt buffer offset ->
               status (inspectArchiveBuffer buffer)
               = spec_rar4_decision (readUInt16LE buffer (offset + 3))
                   (get buffer (offset + 25)))).
Proof.
  split.
  - intros H5. unfold inspectArchiveBuffer.
    rewrite (rar5_not_rar4 _ H5), H5. reflexivity.
  - intros H4. split.
    { apply (scan_stops buffer (S (length buffer)) (length RAR4_SIGNATURE));
        [apply scanned_first | lia]. }
    intros offset Hsc. unfold inspectArchiveBuffer. rewrite H4.
    pose proof (scanned_result buffer offset Hsc (S (length buffer))) as Hres.
    cbn [inspectRar4_loop] in Hres.
    split; [|split; [|split; [|split]]].
    + intros Hshort.
      destruct (Nat.ltb_spec (length buffer) (offset + 7)); [|lia].
      specialize (Hres ltac:(lia)). injection Hres as <-. reflexivity.
    + intros H7 Hsz.
      destruct (Nat.ltb_spec (length buffer) (offset + 7)); [lia|].
      destruct (Nat.ltb_spec (Z.to_nat (readUInt16LE buffer (offset + 5))) 7); [|lia].
      specialize (Hres ltac:(lia)). injection Hres as <-. reflexivity.
    + intros H7 Hsz Hover.
      destruct (Nat.ltb_spec (length buffer) (offset + 7)); [lia|].
      destruct (Nat.ltb_spec (Z.to_nat (readUInt16LE buffer (offset + 5))) 7); [lia|].
      destruct (Nat.ltb_spec (length buffer)
                  (offset + Z.to_nat (readUInt16LE buffer (offset + 5)))); [|lia].
      specialize (Hres ltac:(lia)). injection Hres as <-. reflexivity.
    + intros H7 Hsz Hfit Hty Hcut.
      destruct (Nat.ltb_spec (length buffer) (offset + 7)); [lia|].
      destruct (Nat.ltb_spec (Z.to_nat (readUInt16LE buffer (offset + 5))) 7); [lia|].
      destruct (Nat.ltb_spec (length buffer)
                  (offset + Z.to_nat (readUInt16LE buffer (offset + 5)))); [lia|].
      rewrite bool_decide_eq_true_2 in Hres by exact Hty.
      specialize (Hres ltac:(lia)). injection Hres as <-.
      rewrite (file_header_cut buffer offset Hcut). reflexivity.
    + intros Hfile. pose proof Hfile as (H7 & Hty & Hsz & Hfit & _).
      destruct (Nat.ltb_spec (length buffer) (offset + 7)); [lia|].
      destruct (Nat.ltb_spec (Z.to_nat (readUInt16LE buffer (offset + 5))) 7); [lia|].
      destruct (Nat.ltb_spec (length buffer)
                  (offset + Z.to_nat (readUInt16LE buffer (offset + 5)))); [lia|].
      rewrite bool_decide_eq_true_2 in Hres by exact Hty.
      specialize (Hres ltac:(lia)). injection Hres as <-.
      apply file_header_decision. exact Hfile.
Qed.

Lemma inspectArchiveBuffer_decisions_witness :
  status (inspectArchiveBuffer rar4_stored_volume) = rar_stored
  /\ status (inspectArchiveBuffer (RAR5_SIGNATURE ++ [1; 2; 3])) = rar_stored.
Proof.
  split.
  - destruct (inspectArchiveBuffer_decisions rar4_stored_volume) as [_ H].
    destruct (H eq_refl) as [_ Hat]. specialize (Hat 20%nat).
    assert (Hsc : Scanned rar4_stored_volume 20).
    { apply (scanned_next rar4_stored_volume 7 (scanned_first _)).
      - vm_compute. lia.
      - vm_compute. discriminate.
      - vm_compute. lia.
      - vm_compute. lia. }
    destruct (Hat Hsc) as (_ & _ & _ & _ & Hfile).
    apply Hfile. repeat split; vm_compute; lia.
  - destruct (inspectArchiveBuffer_decisions (RAR5_SIGNATURE ++ [1; 2; 3])) as [H _].
    apply H. reflexivity.
Defined.

End InspectorFacts.

(** ** Canonical archive key *)

Module ArchiveKeyFacts.
Import Str ArchiveKey.

Lemma lower_idem (c : ascii) : lower (lower c) = lower c.
Proof. destruct c as [[] [] [] [] [] [] [] []]; reflexivity. Qed.

Lemma lowered_lower_chars (l : list ascii) : lowered (lower_chars l).
Proof.
  unfold lowered, lower_chars. rewrite map_map.
  apply map_ext. intros c. apply lower_idem.
Qed.

Lemma lowered_app (a b : list ascii) : lowered (a ++ b) <-> lowered a /\ lowered b.
Proof.
  unfold lowered, lower_chars. rewrite map_app. split.
  - intros H. apply app_inj_1 in H; [exact H | apply length_map].
  - intros [-> ->]. reflexivity.
Qed.

Lemma lowered_rev (l : list ascii) : lowered (rev l) <-> lowered l.
Proof.
  unfold lowered, lower_chars. rewrite map_rev. split.
  - intros H. apply (f_equal (@rev ascii)) in H.
    rewrite !rev_involutive in H. exact H.
  - intros ->. reflexivity.
Qed.

Lemma strip_prefix_ci_split (p : list ascii) :
  forall l r, strip_prefix_ci p l = Some r -> exists q, l = q ++ r.
Proof.
  induction p as [|x p IH]; intros l r H.
  - injection H as <-. exists []. reflexivity.
  - destruct l as [|y l]; [discriminate|]. cbn in H.
    destruct (Ascii.eqb _ _); [|discriminate].
    destruct (IH _ _ H) as [q ->]. exists (y :: q). reflexivity.
Qed.

Lemma drop_digits_split (l : list ascii) : exists q, l = q ++ drop_digits l.
Proof.
  induction l as [|c l [q IH]]; [exists []; reflexivity|].
  cbn. destruct (is_digit c).
  - exists (c :: q). cbn. rewrite <- IH. reflexivity.
  - exists []. reflexivity.
Qed.

(** What a pattern matched at the end leaves is a prefix of the string. *)
Lemma match_part_rar_prefix (s stem : list ascii) :
  match_part_rar s = Some stem -> exists t, s = stem ++ t.
Proof.
  unfold match_part_rar.
  destruct (strip_prefix_ci (rev dot_rar) (rev s)) as [r1|] eqn:H1; [|discriminate].
  destruct (head_is_digit r1); [|discriminate].
  destruct (strip_prefix_ci (rev dot_part) (drop_digits r1)) as [r2|] eqn:H2;
    [|discriminate].
  intros [= <-].
  apply strip_prefix_ci_split in H1 as [q1 H1].
  apply strip_prefix_ci_split in H2 as [q3 H2].
  destruct (drop_digits_split r1) as [q2 Hq2].
  exists (rev (q1 ++ q2 ++ q3)).
  rewrite <- rev_app_distr, <- !app_assoc, <- H2, <- Hq2, <- H1.
  symmetry. apply rev_involutive.
Qed.

Lemma match_rNN_prefix (s stem : list ascii) :
  match_rNN s = Some stem -> exists t, s = stem ++ t.
Proof.
  unfold match_rNN.
  destruct (rev s) as [|d2 [|d1 r1]] eqn:Hrev; [discriminate..|].
  destruct (is_digit d2 && is_digit d1); [|discriminate].
  destruct (strip_prefix_ci (rev dot_r) r1) as [r2|] eqn:H2; [|discriminate].
  intros [= <-].
  apply strip_prefix_ci_split in H2 as [q ->].
  exists (rev (d2 :: d1 :: q)).
  rewrite <- rev_app_distr. cbn [app]. rewrite <- Hrev.
  symmetry. apply rev_involutive.
Qed.

Lemma lowered_dot_rar : lowered dot_rar.
Proof. reflexivity. Qed.

Lemma replace_part_rar_lowered (s : list ascii) :
  lowered s -> lowered (replace_part_rar s).
Proof.
  intros Hs. unfold replace_part_rar.
  destruct (match_part_rar s) as [stem|] eqn:Hm; [|exact Hs].
  apply match_part_rar_prefix in Hm as [t ->].
  apply lowered_app in Hs as [Hstem _].
  apply lowered_app. split; [exact Hstem | exact lowered_dot_rar].
Qed.

Lemma replace_rNN_lowered (s : list ascii) :
  lowered s -> lowered (replace_rNN s).
Proof.
  intros Hs. unfold replace_rNN.
  destruct (match_rNN s) as [stem|] eqn:Hm; [|exact Hs].
  apply match_rNN_prefix in Hm as [t ->].
  apply lowered_app in Hs as [Hstem _].
  apply lowered_app. split; [exact Hstem | exact lowered_dot_rar].
Qed.

Lemma key_chars_lowered (name : list ascii) : lowered (key_chars name).
Proof.
  unfold key_chars.
  apply replace_rNN_lowered, replace_part_rar_lowered, lowered_lower_chars.
Qed.

(** A string that ends in [.rar] does not end in [.rNN]. *)
Lemma match_rNN_dot_rar (stem : list ascii) : match_rNN (stem ++ dot_rar) = None.
Proof. unfold match_rNN. rewrite rev_app_distr. reflexivity. Qed.

(** The second replacement leaves nothing for itself to replace. *)
Lemma replace_rNN_idem (s : list ascii) : replace_rNN (replace_rNN s) = replace_rNN s.
Proof.
  unfold replace_rNN at 2 3.
  destruct (match_rNN s) as [stem|] eqn:Hm.
  - unfold replace_rNN. rewrite match_rNN_dot_rar. reflexivity.
  - unfold replace_rNN. rewrite Hm. reflexivity.
Qed.

Lemma key_chars_idem (name : list ascii) :
  match_part_rar (key_chars name) = None ->
  key_chars (key_chars name) = key_chars name.
Proof.
  intros Hnone. unfold key_chars at 1.
  rewrite (key_chars_lowered name).
  unfold replace_part_rar. rewrite Hnone.
  unfold key_chars. apply replace_rNN_idem.
Qed.

Lemma replace_nonempty (s : list ascii) :
  s <> [] -> replace_rNN (replace_part_rar s) <> [].
Proof.
  intros Hs. unfold replace_rNN, replace_part_rar.
  destruct (match_part_rar s) as [stem1|];
    destruct (match_rNN _) as [stem2|];
    try exact Hs; intros H; apply app_eq_nil in H as [_ H]; discriminate H.
Qed.

Lemma key_chars_nonempty (name : list ascii) : name <> [] -> key_chars name <> [].
Proof.
  intros Hn. unfold key_chars. apply replace_nonempty.
  destruct name; [congruence | discriminate].
Qed.

Lemma list_ascii_of_string_nil (s : string) :
  list_ascii_of_string s = [] -> s = EmptyString.
Proof. destruct s; [reflexivity | discriminate]. Qed.

(** The key of a key, for a name that is not empty. *)
Lemma canonicalArchiveKey_of_key (name k : string) :
  canonicalArchiveKey name = Some k ->
  canonicalArchiveKey k
  = Some (string_of_list_ascii (key_chars (list_ascii_of_string k)))
  /\ k = string_of_list_ascii (key_chars (list_ascii_of_string name)).
Proof.
  unfold canonicalArchiveKey.
  destruct (bool_decide_reflect (name = EmptyString)) as [|Hname]; [discriminate|].
  intros [= <-]. split; [|reflexivity].
  rewrite bool_decide_eq_false_2; [reflexivity|].
  intros Hempty. apply (f_equal list_ascii_of_string) in Hempty.
  rewrite list_ascii_of_string_of_list_ascii in Hempty. cbn in Hempty.
  apply key_chars_nonempty in Hempty; [exact Hempty|].
  intros Hnil. apply Hname, list_ascii_of_string_nil, Hnil.
Qed.

(** C8 as stated fails: [a.part1.r00] has the key [a.part1.rar], whose key
    is [a.rar]. *)
Lemma canonicalArchiveKey_not_idempotent :
  canonicalArchiveKey "a.part1.r00" = Some "a.part1.rar"%string
  /\ key_twice "a.part1.r00" = Some "a.rar"%string
  /\ key_twice "a.part1.r00" <> canonicalArchiveKey "a.part1.r00".
Proof. vm_compute. repeat split. discriminate. Qed.

(** C8 (amended): the key of a key is the key, for every name whose key
    does not itself still end in a [.partNNN.rar] suffix. *)
Theorem canonicalArchiveKey_idempotent (name : string) :
  (forall k, canonicalArchiveKey name = Some k -> ends_in_part_rar k = false) ->
  key_twice name = canonicalArchiveKey name.
Proof.
  intros Hpart. unfold key_twice.
  destruct (canonicalArchiveKey name) as [k|] eqn:Hk; [|reflexivity].
  specialize (Hpart k eq_refl).
  destruct (canonicalArchiveKey_of_key name k Hk) as [-> Hkeq].
  f_equal. rewrite Hkeq at 2. f_equal.
  rewrite Hkeq, list_ascii_of_string_of_list_ascii.
  apply key_chars_idem.
  unfold ends_in_part_rar in Hpart.
  rewrite Hkeq, list_ascii_of_string_of_list_ascii in Hpart.
  apply bool_decide_eq_false_1 in Hpart.
  destruct (match_part_rar _); [|reflexivity].
  exfalso. apply Hpart. eexists. reflexivity.
Qed.

Lemma canonicalArchiveKey_idempotent_witness :
  key_twice "Movie.Part02.RAR" = canonicalArchiveKey "Movie.Part02.RAR"
  /\ canonicalArchiveKey "Movie.Part02.RAR" = Some "movie.rar"%string.
Proof.
  split; [|reflexivity].
  apply canonicalArchiveKey_idempotent.
  intros k Hk. vm_compute in Hk. injection Hk as <-. reflexivity.
Defined.

End ArchiveKeyFacts.

(** ** Triage analyzer *)

Module AnalyzerFacts.
Import Buf Inspector Analyzer.

Lemma decide_on_invariant (parsed : Parsed) (ctx : Ctx) (st : St) :
  decision (decide_on parsed ctx st) = accept
  <-> blockers (decide_on parsed ctx st) = [].
Proof.
  unfold decide_on, buildDecision. cbn.
  destruct (st_blockers st); split; congruence.
Qed.

Lemma buildErrorDecision_invariant (err : JsError) (nzbIndex : nat) :
  decision (buildErrorDecision err nzbIndex) = reject
  /\ blockers (buildErrorDecision err nzbIndex) = ["analysis-error"%string].
Proof. split; reflexivity. Qed.

(** C1: the decision stored for an NZB, whether its analysis returned or
    threw, is [accept] exactly when its blockers are empty. *)
Theorem decision_accept_iff_no_blockers
    (raw : Result JsError Parsed) (ctx : Ctx) (env : Env) :
  decision (analyze_at raw ctx env) = accept
  <-> blockers (analyze_at raw ctx env) = [].
Proof.
  unfold analyze_at, analyzeSingleNzb.
  destruct (analyze_state raw ctx env) as [[parsed st]|err].
  - apply decide_on_invariant.
  - destruct (buildErrorDecision_invariant err (ctx_nzbIndex ctx)) as [-> ->].
    split; discriminate.
Qed.

(** The first archive segment is answered with 430: the NZB is rejected
    for missing articles, with the finding [stat-missing]. *)
Example analyze_missing_article :
  let d := analyze_at (Ok sample_nzb_one) (sample_ctx (Some 1) (Some 1))
             sample_env_missing in
  decision d = reject
  /\ blockers d = ["missing-articles"%string]
  /\ f_status <$> archiveFindings d = [stat_missing].
Proof. repeat split; vm_compute; reflexivity. Qed.

(** A parse that throws gives the error decision. *)
Example analyze_parse_error :
  let d := analyze_at
             (Err {| code := None; message := "Unclosed root tag"; dropClient := false |})
             (sample_ctx None None) sample_env in
  decision d = reject
  /\ blockers d = ["analysis-error"%string]
  /\ warnings d = ["Unclosed root tag"%string].
Proof. repeat split; vm_compute; reflexivity. Qed.

(** *** The random pick *)

Lemma swap_Permutation {A} (l : list A) (i j : nat) : swap l i j ≡ₚ l.
Proof.
  unfold swap.
  destruct (l !! i) as [x|] eqn:Hi; [|reflexivity].
  destruct (l !! j) as [y|] eqn:Hj; [|reflexivity].
  apply Permutation_insert_swap; assumption.
Qed.

Lemma shuffle_down_Permutation {A} (i : nat) (rnd : nat -> nat) :
  forall (k : nat) (l : list A), (shuffle_down i rnd k l).1 ≡ₚ l.
Proof.
  induction i as [|i IH]; intros k l; [reflexivity|].
  cbn [shuffle_down]. rewrite IH. apply swap_Permutation.
Qed.

(** The pick is the head of a permutation of the items. *)
Lemma pickRandomElements_spec {A} (items : list A) (n : nat) (rnd : nat -> nat) (k : nat) :
  exists shuffled,
    shuffled ≡ₚ items
    /\ (pickRandomElements items n rnd k).1 = take (Nat.min n (length items)) shuffled.
Proof.
  unfold pickRandomElements. destruct items as [|x items].
  - exists []. split; [reflexivity|]. rewrite take_nil. reflexivity.
  - pose proof (shuffle_down_Permutation (length (x :: items) - 1) rnd k (x :: items)) as Hp.
    destruct (shuffle_down _ rnd k (x :: items)) as [shuffled k'].
    exists shuffled. split; [exact Hp | reflexivity].
Qed.

Lemma pickRandomElements_length {A} (items : list A) (n : nat) (rnd : nat -> nat) (k : nat) :
  length (pickRandomElements items n rnd k).1 = Nat.min n (length items).
Proof.
  destruct (pickRandomElements_spec items n rnd k) as (shuffled & Hp & ->).
  rewrite length_take, (Permutation_length Hp). lia.
Qed.

Lemma pickRandomElements_elem_of {A} (items : list A) (n : nat) (rnd : nat -> nat)
    (k : nat) (x : A) :
  x ∈ (pickRandomElements items n rnd k).1 -> x ∈ items.
Proof.
  destruct (pickRandomElements_spec items n rnd k) as (shuffled & Hp & ->).
  intros Hx. rewrite <- Hp. eapply subseteq_take, Hx.
Qed.

Lemma pickRandomElements_NoDup {A B} (f : A -> B) (items : list A) (n : nat)
    (rnd : nat -> nat) (k : nat) :
  NoDup (f <$> items) -> NoDup (f <$> (pickRandomElements items n rnd k).1).
Proof.
  destruct (pickRandomElements_spec items n rnd k) as (shuffled & Hp & ->).
  intros Hnd. rewrite <- Hp in Hnd.
  eapply sublist_NoDup; [exact Hnd | apply fmap_sublist, sublist_take].
Qed.

(** *** One STAT check *)

Lemma unchecked_ext (st1 st2 : St) (s : Segment) :
  checkedSegments st1 = checkedSegments st2 -> unchecked st1 s = unchecked st2 s.
Proof. unfold unchecked. intros ->. reflexivity. Qed.

Lemma record_stat_log (who : File) (id : string) (r : Result JsError unit) (st : St) :
  statLog (record_stat who id r st) = statLog st
  /\ checkedSegments (record_stat who id r st) = checkedSegments st.
Proof.
  unfold record_stat. destruct r as [[]|err]; [split; reflexivity|].
  destruct (is_stat_missing err); split; reflexivity.
Qed.

(** A check asks for one STAT, on a segment that is unchecked, and marks it. *)
Lemma runStatCheck_log (env : Env) (a : File) (s : Segment) (st : St) :
  statLog (runStatCheck env a s st)
  = statLog st ++ (if unchecked st s then [seg_id s] else [])
  /\ checkedSegments (runStatCheck env a s st)
     = checkedSegments st ++ (if unchecked st s then [seg_id s] else []).
Proof.
  unfold runStatCheck, unchecked.
  destruct (bool_decide (seg_id s = EmptyString)); cbn [orb negb andb].
  { rewrite !app_nil_r. split; reflexivity. }
  destruct (set_has (seg_id s) (checkedSegments st)) eqn:Hhas; cbn [negb].
  { rewrite !app_nil_r. split; reflexivity. }
  unfold statSegment.
  destruct (record_stat_log a (seg_id s)
              (match acquire env (calls (mark_checked (seg_id s) st)) with
               | Ok _ => stat env (calls (mark_checked (seg_id s) st)) (seg_id s)
               | Err e => Err e
               end)
              (log_stat (seg_id s) (mark_checked (seg_id s) st))) as [-> ->].
  cbn. unfold set_add. unfold set_has in Hhas. rewrite Hhas.
  split; reflexivity.
Qed.

Lemma unchecked_after (env : Env) (a : File) (s s' : Segment) (st : St) :
  unchecked st s = true ->
  unchecked (runStatCheck env a s st) s'
  = unchecked st s' && negb (bool_decide (seg_id s' = seg_id s)).
Proof.
  intros Hs. unfold unchecked at 1 2.
  destruct (runStatCheck_log env a s st) as [_ ->]. rewrite Hs.
  unfold set_has.
  destruct (bool_decide_reflect (seg_id s' = EmptyString)); [reflexivity|].
  cbn [negb andb].
  destruct (bool_decide_reflect (seg_id s' ∈ checkedSegments st ++ [seg_id s]))
    as [Hin|Hin];
    destruct (bool_decide_reflect (seg_id s' ∈ checkedSegments st)) as [Hin1|Hin1];
    destruct (bool_decide_reflect (seg_id s' = seg_id s)) as [Heq|Heq];
    try reflexivity; exfalso.
  - apply elem_of_app in Hin as [?|Hin]; [tauto|].
    apply list_elem_of_singleton in Hin. tauto.
  - apply Hin, elem_of_app. left. exact Hin1.
  - apply Hin, elem_of_app. left. exact Hin1.
  - apply Hin, elem_of_app. right. rewrite Heq. apply list_elem_of_singleton.
    reflexivity.
Qed.

(** Checks on unchecked segments with distinct ids: one STAT each, in order. *)
Lemma stat_each_log (env : Env) (a : File) (samples : list Segment) :
  forall st,
    NoDup (seg_id <$> samples) ->
    Forall (fun s => unchecked st s = true) samples ->
    statLog (stat_each env a samples st) = statLog st ++ (seg_id <$> samples)
    /\ checkedSegments (stat_each env a samples st)
       = checkedSegments st ++ (seg_id <$> samples).
Proof.
  induction samples as [|s samples IH]; intros st Hnd Hall.
  - cbn. rewrite !app_nil_r. split; reflexivity.
  - cbn [stat_each]. rewrite fmap_cons in *.
    apply NoDup_cons in Hnd as [Hnotin Hnd].
    apply Forall_cons in Hall as [Hs Hall].
    destruct (IH (runStatCheck env a s st) Hnd) as [-> ->].
    + apply Forall_forall. intros s' Hs'.
      rewrite unchecked_after by exact Hs.
      rewrite (proj1 (Forall_forall _ _) Hall s' Hs'). cbn [andb].
      rewrite bool_decide_eq_false_2; [reflexivity|].
      intros Heq. apply Hnotin. rewrite <- Heq.
      apply list_elem_of_fmap_2. exact Hs'.
    + destruct (runStatCheck_log env a s st) as [-> ->]. rewrite Hs.
      rewrite <- !app_assoc. split; reflexivity.
Qed.

(** *** Extra STAT sampling *)

(** The segments of the primary archive that are unchecked when the extra
    sampling starts. *)
Lemma extra_primary_log (ctx : Ctx) (env : Env) (primary : option (nat * File)) (st : St) :
  NoDup (seg_id <$> remaining_primary primary st) ->
  exists probes,
    statLog (extra_primary ctx env primary st) = statLog st ++ probes
    /\ checkedSegments (extra_primary ctx env primary st) = checkedSegments st ++ probes
    /\ length probes
       = Nat.min (sample_count 0 0 (statSampleCount (config ctx)))
           (length (remaining_primary primary st))
    /\ NoDup probes
    /\ (forall id, id ∈ probes -> id ∈ seg_id <$> remaining_primary primary st).
Proof.
  intros Hnd. unfold extra_primary, remaining_primary in *.
  destruct primary as [[i p]|]; cbn [length] in *.
  2:{ exists []. rewrite !app_nil_r, Nat.min_0_r.
      repeat split; [constructor | intros id H; inversion H]. }
  destruct (Nat.ltb_spec 0 (sample_count 0 0 (statSampleCount (config ctx))))
    as [Hpos|Hzero]; cbn [andb].
  2:{ exists []. rewrite !app_nil_r.
      replace (sample_count 0 0 (statSampleCount (config ctx))) with 0%nat by lia.
      repeat split; [constructor | intros id H; inversion H]. }
  destruct (has_segments p) eqn:Hseg.
  2:{ exists []. rewrite !app_nil_r.
      unfold has_segments in Hseg. destruct (segments p); [|discriminate].
      cbn. rewrite Nat.min_0_r.
      repeat split; [constructor | intros id H; inversion H]. }
  set (avail := filter (fun s => unchecked st s) (segments p)) in *.
  set (want := Nat.min (sample_count 0 0 (statSampleCount (config ctx))) (length avail)).
  pose proof (pickRandomElements_length avail want (rnd env) (draws st)) as Hlen.
  pose proof (pickRandomElements_elem_of avail want (rnd env) (draws st)) as Hin.
  pose proof (pickRandomElements_NoDup seg_id avail want (rnd env) (draws st) Hnd) as Hnd'.
  destruct (pickRandomElements avail want (rnd env) (draws st)) as [samples k].
  cbn [fst] in *.
  exists (seg_id <$> samples).
  destruct (stat_each_log env p samples (set_draws k st) Hnd') as [-> ->].
  { apply Forall_forall. intros s Hs. apply Hin in Hs.
    apply list_elem_of_filter in Hs as [Hs _].
    apply Is_true_true in Hs. rewrite <- Hs. apply unchecked_ext. reflexivity. }
  repeat split.
  - rewrite length_fmap, Hlen. unfold want. lia.
  - exact Hnd'.
  - intros id Hid. apply list_elem_of_fmap in Hid as (s & -> & Hs).
    apply list_elem_of_fmap_2, Hin, Hs.
Qed.

Lemma first_unchecked_Some (st : St) (a : File) (seg : Segment) :
  first_unchecked st a = Some seg -> unchecked st seg = true.
Proof.
  unfold first_unchecked. intros H.
  apply fmap_Some in H as ([i s] & Hfind & ->).
  apply list_find_Some in Hfind as (_ & Hs & _).
  apply Is_true_true. exact Hs.
Qed.

(** The second loop asks for at most one STAT per sampled archive, each on
    the first segment of that archive that is unchecked at that time. *)
Lemma stat_archives_log (env : Env) (sample : list (nat * File)) :
  forall st,
    exists probes,
      statLog (stat_archives env sample st) = statLog st ++ probes
      /\ (length probes <= length sample)%nat
      /\ Forall (fun id => exists ia st',
                   ia ∈ sample
                   /\ checkedSegments st ⊆ checkedSegments st'
                   /\ seg_id <$> first_unchecked st' ia.2 = Some id) probes.
Proof.
  induction sample as [|[i a] sample IH]; intros st.
  - exists []. cbn. rewrite app_nil_r. repeat split; [lia | constructor].
  - cbn [stat_archives].
    destruct (first_unchecked st a) as [seg|] eqn:Hfirst.
    + destruct (IH (runStatCheck env a seg st)) as (probes & Hlog & Hlen & Hall).
      pose proof (first_unchecked_Some st a seg Hfirst) as Hun.
      destruct (runStatCheck_log env a seg st) as [Hl Hc]. rewrite Hun in Hl, Hc.
      exists (seg_id seg :: probes). rewrite Hlog, Hl, <- app_assoc.
      repeat split; [cbn; lia|].
      constructor.
      * exists (i, a), st. repeat split; [left | reflexivity |].
        cbn. rewrite Hfirst. reflexivity.
      * eapply Forall_impl; [exact Hall|].
        intros id (ia & st' & Hia & Hsub & Hid).
        exists ia, st'. repeat split; [right; exact Hia | | exact Hid].
        intros x Hx. apply Hsub. rewrite Hc. apply elem_of_app. left. exact Hx.
    + destruct (IH st) as (probes & Hlog & Hlen & Hall).
      exists probes. repeat split; [exact Hlog | cbn; lia |].
      eapply Forall_impl; [exact Hall|].
      intros id (ia & st' & Hia & Hsub & Hid).
      exists ia, st'. repeat split; [right; exact Hia | exact Hsub | exact Hid].
Qed.

Lemma other_archives_elem_of (cands : list File) (primary : option (nat * File))
    (st : St) (ia : nat * File) :
  ia ∈ other_archives cands primary st ->
  cands !! ia.1 = Some ia.2
  /\ Some ia.1 <> fst <$> primary
  /\ has_segments ia.2 = true.
Proof.
  unfold other_archives, numbered. intros H.
  apply list_elem_of_filter in H as [_ H].
  apply list_elem_of_filter in H as [Hp H].
  apply elem_of_lookup_imap in H as (j & a & -> & Hj).
  apply Is_true_true, andb_true_iff in Hp as [Hseg Hne].
  repeat split; [exact Hj | | exact Hseg].
  apply negb_true_iff, bool_decide_eq_false in Hne. exact Hne.
Qed.

(** C3 as stated fails. With [statSampleCount = 1] (the default) and a
    primary archive of three segments, of which the first was checked, one
    more segment of the primary archive is probed, not [min(1 - 1, 2) = 0];
    with [archiveSampleCount = 0] one other archive is still probed. *)
Lemma extra_sampling_counts_differ :
  (exists st, analyze_state (Ok sample_nzb_one) (sample_ctx (Some 1) (Some 1)) sample_env
              = Ok (sample_nzb_one, st)
              /\ statLog st = ["s0"; "s2"]%string
              /\ length (drop 1 (statLog st)) <> Nat.min (1 - 1) 2)
  /\ (exists st, analyze_state (Ok sample_nzb_two) (sample_ctx (Some 1) (Some 0)) sample_env
                 = Ok (sample_nzb_two, st)
                 /\ statLog st = ["s0"; "s1"; "t0"]%string
                 /\ ~ (length (drop 2 (statLog st)) <= 0)%nat).
Proof.
  split; eexists; (split; [vm_compute; reflexivity|]); split;
    [reflexivity | cbn; lia | reflexivity | cbn; lia].
Qed.

Lemma numbered_fst (archives : list File) :
  (numbered archives).*1 = seq 0 (length archives).
Proof.
  unfold numbered. apply list_eq. intros i.
  rewrite list_lookup_fmap, list_lookup_imap.
  destruct (archives !! i) as [a|] eqn:Hi; cbn.
  - rewrite lookup_seq_lt by (eapply lookup_lt_Some, Hi). reflexivity.
  - rewrite lookup_seq_ge by (apply lookup_ge_None, Hi). reflexivity.
Qed.

(** The archives the code samples from are the eligible ones of the
    specification. *)
Lemma other_archives_eligible (cands : list File) (primary : option (nat * File))
    (st : St) :
  other_archives cands primary st
  = filter (fun ia => spec_eligible (checkedSegments st) primary ia) (numbered cands).
Proof.
  unfold other_archives. rewrite list_filter_filter.
  apply list_filter_iff. intros [i a].
  unfold spec_eligible, first_segment_unchecked, has_segments, unchecked, set_has,
    first_id_of. cbn [fst snd].
  destruct (segments a) as [|first rest]; repeat case_bool_decide; cbn;
    intuition congruence.
Qed.

Lemma spec_eligible_true (checked : list string) (primary : option (nat * File))
    (ia : nat * File) :
  spec_eligible checked primary ia = true ->
  exists first rest,
    segments ia.2 = first :: rest
    /\ seg_id first <> EmptyString
    /\ (seg_id first ∉ checked)
    /\ Some ia.1 <> fst <$> primary.
Proof.
  unfold spec_eligible, first_id_of.
  destruct (segments ia.2) as [|first rest]; repeat case_bool_decide; cbn;
    intros Htrue; try discriminate Htrue; try congruence.
  exists first, rest. repeat split; assumption.
Qed.

(** When the first segments of the sampled archives are unchecked and have
    different ids, the second loop asks for exactly these. *)
Lemma stat_archives_first (env : Env) (sample : list (nat * File)) :
  forall st,
    Forall (fun ia => first_segment_unchecked st ia.2 = true) sample ->
    NoDup ((fun ia => first_id_of ia.2) <$> sample) ->
    statLog (stat_archives env sample st)
    = statLog st ++ ((fun ia => first_id_of ia.2) <$> sample).
Proof.
  induction sample as [|[i a] sample IH]; intros st Hall Hnd.
  - cbn. rewrite app_nil_r. reflexivity.
  - apply Forall_cons in Hall as [Ha Hall].
    rewrite fmap_cons in Hnd. apply NoDup_cons in Hnd as [Hfresh Hnd].
    cbn [fst snd] in Ha, Hfresh.
    unfold first_segment_unchecked in Ha.
    destruct (segments a) as [|first rest] eqn:Hseg; [discriminate|].
    assert (Hid : first_id_of a = seg_id first) by (unfold first_id_of; rewrite Hseg; reflexivity).
    assert (Hfirst : first_unchecked st a = Some first).
    { unfold first_unchecked. rewrite Hseg. cbn [list_find].
      rewrite decide_True by (apply Is_true_true, Ha). reflexivity. }
    cbn [stat_archives]. rewrite Hfirst.
    destruct (runStatCheck_log env a first st) as [Hl _]. rewrite Ha in Hl.
    rewrite IH; [| |exact Hnd].
    + rewrite Hl, <- app_assoc, fmap_cons. cbn [fst snd]. rewrite Hid. reflexivity.
    + apply Forall_forall. intros [j b] Hb. cbn [snd].
      rewrite Forall_forall in Hall. specialize (Hall _ Hb). cbn [snd] in Hall.
      unfold first_segment_unchecked in *.
      destruct (segments b) as [|fb restb] eqn:Hsegb; [discriminate|].
      rewrite (unchecked_after env a first fb st Ha), Hall.
      cbn [andb]. apply negb_true_iff, bool_decide_eq_false_2.
      intros Heq. apply Hfresh. rewrite Hid, <- Heq.
      apply (list_elem_of_fmap_2' (fun ia => first_id_of ia.2) _ (j, b)); [exact Hb|].
      unfold first_id_of. cbn [snd]. rewrite Hsegb. reflexivity.
Qed.

(** C3 (amended): when the pool is there, a stored archive was confirmed and
    there is no blocker, the extra sampling asks for a STAT first on
    [min(statSampleCount, remaining)] distinct segments of the primary
    archive that were unchecked (their ids being distinct), then on the
    first unchecked segment of archives sampled among the other archive
    candidates that have segments and whose first segment is unchecked:
    [min(max(1, archiveSampleCount), n)] of the [n] there are, each a
    different candidate, with at most one STAT for each; and when the first
    segments of the candidates have pairwise different ids, with exactly one
    STAT for each, on its first segment. *)
Theorem extra_sampling_probes (ctx : Ctx) (env : Env) (cands : list File)
    (primary : option (nat * File)) (st : St) :
  nntpPool ctx = true ->
  st_blockers st = [] ->
  NoDup (seg_id <$> remaining_primary primary st) ->
  exists probes1 sample probes2,
    statLog (extra_sampling ctx env cands primary true st)
    = statLog st ++ probes1 ++ probes2
    /\ length probes1
       = Nat.min (sample_count 0 0 (statSampleCount (config ctx)))
           (length (remaining_primary primary st))
    /\ NoDup probes1
    /\ (forall id, id ∈ probes1 -> id ∈ seg_id <$> remaining_primary primary st)
    /\ length sample
       = Nat.min (sample_count 1 1 (archiveSampleCount (config ctx)))
           (length (filter (fun ia => spec_eligible (checkedSegments st ++ probes1)
                                        primary ia)
                           (numbered cands)))
    /\ NoDup sample.*1
    /\ Forall (fun ia => cands !! ia.1 = Some ia.2
                         /\ spec_eligible (checkedSegments st ++ probes1) primary ia
                            = true) sample
    /\ (length probes2 <= length sample)%nat
    /\ Forall (fun id => exists ia st',
                 ia ∈ sample
                 /\ checkedSegments st ⊆ checkedSegments st'
                 /\ seg_id <$> first_unchecked st' ia.2 = Some id) probes2
    /\ (distinct_first_ids cands ->
        probes2 = (fun ia => first_id_of ia.2) <$> sample).
Proof.
  intros Hpool Hblock Hnd. unfold extra_sampling.
  rewrite Hpool, Hblock. cbn [andb].
  rewrite bool_decide_eq_true_2 by reflexivity.
  destruct (extra_primary_log ctx env primary st Hnd)
    as (probes1 & Hlog1 & Hchk1 & Hlen1 & Hnd1 & Hin1).
  set (st1 := extra_primary ctx env primary st) in *.
  unfold extra_others.
  set (want := sample_count 1 1 (archiveSampleCount (config ctx))).
  rewrite (other_archives_eligible cands primary st1), Hchk1.
  set (eligible := filter (fun ia => spec_eligible (checkedSegments st ++ probes1)
                                       primary ia) (numbered cands)).
  pose proof (pickRandomElements_length eligible want (rnd env) (draws st1)) as Hlen.
  pose proof (pickRandomElements_elem_of eligible want (rnd env) (draws st1)) as Hin.
  assert (Hnde : NoDup eligible.*1).
  { eapply sublist_NoDup; [|apply fmap_sublist, sublist_filter].
    rewrite numbered_fst. apply NoDup_seq. }
  pose proof (pickRandomElements_NoDup fst eligible want (rnd env) (draws st1) Hnde)
    as Hnds.
  destruct (pickRandomElements eligible want (rnd env) (draws st1)) as [sample k].
  cbn [fst] in *.
  assert (Hsample : Forall (fun ia => cands !! ia.1 = Some ia.2
                                      /\ spec_eligible (checkedSegments st ++ probes1)
                                           primary ia = true) sample).
  { apply Forall_forall. intros [i a] Hia. apply Hin in Hia.
    apply list_elem_of_filter in Hia as [Hel Hia].
    apply elem_of_lookup_imap in Hia as (j & b & [= -> ->] & Hj).
    split; [exact Hj | apply Is_true_true, Hel]. }
  destruct (stat_archives_log env sample (set_draws k st1))
    as (probes2 & Hlog2 & Hlen2 & Hall2).
  exists probes1, sample, probes2. rewrite Hlog2. cbn [statLog set_draws].
  rewrite Hlog1, <- app_assoc.
  split; [reflexivity|]. split; [exact Hlen1|]. split; [exact Hnd1|].
  split; [exact Hin1|]. split; [exact Hlen|]. split; [exact Hnds|].
  split; [exact Hsample|]. split; [exact Hlen2|]. split.
  { eapply Forall_impl; [exact Hall2|].
    intros id (ia & st' & Hia & Hsub & Hid).
    exists ia, st'. repeat split; [exact Hia | | exact Hid].
    intros x Hx. apply Hsub. cbn [checkedSegments set_draws].
    rewrite Hchk1. apply elem_of_app. left. exact Hx. }
  intros Hdistinct.
  assert (Hfirst : statLog (stat_archives env sample (set_draws k st1))
                   = statLog (set_draws k st1)
                     ++ ((fun ia => first_id_of ia.2) <$> sample)).
  { apply stat_archives_first.
    - eapply Forall_impl; [exact Hsample|]. intros [i a] [_ Hel]. cbn [snd].
      apply spec_eligible_true in Hel as (first & rest & Hseg & Hne & Hun & _).
      cbn [snd] in Hseg.
      unfold first_segment_unchecked, unchecked, set_has. cbn [checkedSegments set_draws].
      rewrite Hchk1, Hseg.
      rewrite !bool_decide_eq_false_2 by assumption. reflexivity.
    - apply NoDup_fmap_2_strong; [|eapply NoDup_fmap_1, Hnds].
      intros [i a] [j b] Hia Hjb Heq. cbn [snd] in Heq.
      rewrite Forall_forall in Hsample.
      destruct (Hsample _ Hia) as [Hi Hela], (Hsample _ Hjb) as [Hj Helb].
      cbn [fst snd] in *.
      assert (Hsa : has_segments a = true).
      { apply spec_eligible_true in Hela as (fa & ra & Hseg & _).
        cbn [snd] in Hseg. unfold has_segments. rewrite Hseg. reflexivity. }
      assert (Hsb : has_segments b = true).
      { apply spec_eligible_true in Helb as (fb & rb & Hseg & _).
        cbn [snd] in Hseg. unfold has_segments. rewrite Hseg. reflexivity. }
      pose proof (Hdistinct i j a b Hi Hj Hsa Hsb Heq) as ->.
      congruence. }
  rewrite Hlog2 in Hfirst. apply app_inv_head in Hfirst. exact Hfirst.
Qed.

Lemma extra_sampling_probes_witness :
  exists probes1 (sample : list (nat * File)) probes2,
    statLog (extra_sampling (sample_ctx (Some 2) (Some 1)) sample_env
               (files sample_nzb_two) (Some (0%nat, sample_archive_a)) true sample_st)
    = statLog sample_st ++ probes1 ++ probes2
    /\ length probes1 = 1%nat
    /\ length sample = 1%nat
    /\ probes2 = (fun ia => first_id_of ia.2) <$> sample.
Proof.
  destruct (extra_sampling_probes (sample_ctx (Some 2) (Some 1)) sample_env
              (files sample_nzb_two) (Some (0%nat, sample_archive_a)) sample_st)
    as (probes1 & sample & probes2 & Hlog & Hlen1 & _ & Hin1 & Hlen & _ & _ & _ & _ & Hex).
  - reflexivity.
  - reflexivity.
  - vm_compute. repeat constructor. intros H. inversion H.
  - exists probes1, sample, probes2.
    split; [exact Hlog|]. split; [exact Hlen1|]. split.
    + rewrite Hlen.
      assert (Hp : probes1 = ["s1"%string]).
      { destruct probes1 as [|x [|y probes1]]; try discriminate Hlen1.
        specialize (Hin1 x ltac:(left)). vm_compute in Hin1.
        apply list_elem_of_singleton in Hin1. congruence. }
      rewrite Hp. vm_compute. reflexivity.
    + apply Hex. intros i j a b Hi Hj _ _.
      destruct i as [|[|i]], j as [|[|j]]; cbn in Hi, Hj; try discriminate;
        injection Hi as <-; injection Hj as <-; try reflexivity; discriminate.
Defined.

End AnalyzerFacts.

(** ** Numbers *)

Module DoubleFacts.
Import Double.

Lemma huge_pos : 0 < 2 ^ 1024.
Proof. apply Z.pow_pos_nonneg; lia. Qed.

Lemma round_mag_pos (a : Z) : 2 ^ 53 <= a -> 0 < round_mag a.
Proof.
  intros Ha. unfold round_mag.
  assert (Hpos : 0 < a) by (pose proof (Z.pow_pos_nonneg 2 53); lia).
  assert (Hlog : 53 <= Z.log2 a) by (apply Z.log2_le_pow2; assumption).
  set (e := Z.log2 a - 52).
  assert (He : 0 < 2 ^ e) by (apply Z.pow_pos_nonneg; lia).
  assert (Hle : 2 ^ e <= a) by (apply Z.log2_le_pow2; [assumption | lia]).
  assert (Hq : 0 < a / 2 ^ e) by (apply Z.div_str_pos; lia).
  destruct (_ || _); apply Z.mul_pos_pos; lia.
Qed.

Lemma round_sgn (z : Z) : Z.sgn (round z) = Z.sgn z.
Proof.
  unfold round. destruct (Z.ltb_spec (Z.abs z) (2 ^ 53)) as [Hs|Hb]; [reflexivity|].
  rewrite Z.sgn_mul, Z.sgn_sgn, (Z.sgn_pos (round_mag _)) by (apply round_mag_pos, Hb).
  apply Z.mul_1_r.
Qed.

Lemma round_abs (z : Z) : Z.abs (round z) = round (Z.abs z).
Proof.
  unfold round. rewrite Z.abs_idemp.
  destruct (Z.ltb_spec (Z.abs z) (2 ^ 53)) as [Hs|Hb]; [reflexivity|].
  pose proof (round_mag_pos _ Hb) as Hm.
  assert (Hz : 0 < Z.abs z) by (pose proof (Z.pow_pos_nonneg 2 53); lia).
  rewrite Z.abs_mul, (Z.abs_eq (round_mag _)) by lia.
  rewrite (Z.sgn_pos (Z.abs z)) by exact Hz.
  replace (Z.abs (Z.sgn z)) with 1; [reflexivity|].
  destruct z; cbn in *; lia.
Qed.

Lemma round_small (z : Z) : Z.abs z < 2 ^ 53 -> round z = z.
Proof.
  intros Hs. unfold round. destruct (Z.ltb_spec (Z.abs z) (2 ^ 53)); [reflexivity | lia].
Qed.

Lemma of_exact_small (z : Z) : Z.abs z < 2 ^ 53 -> of_exact z = Whole z.
Proof.
  intros Hs. unfold of_exact. rewrite (round_small z Hs).
  destruct (Z.ltb_spec (Z.abs z) (2 ^ 1024)) as [_|Hb]; [reflexivity|].
  assert (2 ^ 53 <= 2 ^ 1024) by (apply Z.pow_le_mono_r; lia). lia.
Qed.

Lemma of_exact_ranged (z : Z) : ranged (of_exact z).
Proof.
  unfold of_exact. destruct (Z.ltb_spec (Z.abs (round z)) (2 ^ 1024)); cbn; auto.
Qed.

Lemma abs_of_exact (z : Z) : abs (of_exact z) = of_exact (Z.abs z).
Proof.
  unfold of_exact. rewrite <- (round_abs z), Z.abs_idemp.
  destruct (Z.ltb_spec (Z.abs (round z)) (2 ^ 1024)); cbn [abs]; [reflexivity|].
  destruct (Z.ltb_spec (Z.abs z) 0); [lia | reflexivity].
Qed.

Lemma sort_order_of_exact (z : Z) : Z.sgn (sort_order (of_exact z)) = Z.sgn z.
Proof.
  unfold of_exact.
  destruct (Z.ltb_spec (Z.abs (round z)) (2 ^ 1024)) as [_|Hb]; [apply round_sgn|].
  destruct (Z.ltb_spec z 0) as [Hn|Hp]; cbn [sort_order].
  - rewrite (Z.sgn_neg z) by exact Hn. reflexivity.
  - assert (z <> 0).
    { intros ->. pose proof huge_pos.
      rewrite (round_small 0) in Hb by (apply Z.pow_pos_nonneg; lia).
      change (Z.abs 0) with 0 in Hb. lia. }
    rewrite (Z.sgn_pos z) by lia. reflexivity.
Qed.

Lemma lt_mag (x y : num) : ranged x -> ranged y -> (lt x y <-> mag x < mag y).
Proof.
  pose proof huge_pos.
  destruct x as [a|[]|], y as [b|[]|]; cbn [ranged lt mag]; intros Hx Hy;
    try contradiction; intuition (try discriminate; lia).
Qed.

Lemma eq_mag (x y : num) : ranged x -> ranged y -> (x = y <-> mag x = mag y).
Proof.
  pose proof huge_pos.
  destruct x as [a|[]|], y as [b|[]|]; cbn [ranged mag]; intros Hx Hy;
    try contradiction; split; intros Heq; try discriminate; try reflexivity;
    try congruence; try lia.
Qed.

Lemma strict_eqb_mag (x y : num) :
  ranged x -> ranged y -> strict_eqb x y = (mag x =? mag y).
Proof.
  pose proof huge_pos.
  destruct x as [a|[]|], y as [b|[]|]; cbn [ranged strict_eqb mag Bool.eqb];
    intros Hx Hy; try contradiction; try reflexivity; symmetry;
    first [apply Z.eqb_refl | apply Z.eqb_neq; lia].
Qed.

Lemma sub_sgn (x y : num) :
  ranged x -> ranged y -> mag x <> mag y ->
  Z.sgn (sort_order (sub x y)) = Z.sgn (mag x - mag y).
Proof.
  pose proof huge_pos.
  destruct x as [a|[]|], y as [b|[]|];
    cbn [ranged sub mag sort_order Bool.eqb negb];
    intros Hx Hy Hne; try contradiction;
    first [ apply sort_order_of_exact
          | rewrite Z.sgn_pos by lia; reflexivity
          | rewrite Z.sgn_neg by lia; reflexivity
          | lia ].
Qed.

End DoubleFacts.

(** ** Runner *)

Module RunnerFacts.
Import Str Inspector Analyzer Runner.

(** *** The stable sort *)

Section SortFacts.
Context {A : Type} (cmp : A -> A -> Z).
Hypothesis cmp_total : forall a b, 0 < cmp a b -> cmp b a <= 0.
Hypothesis cmp_trans : forall a b c, cmp a b <= 0 -> cmp b c <= 0 -> cmp a c <= 0.

Lemma insert_by_Permutation (x : A) (l : list A) : insert_by cmp x l ≡ₚ x :: l.
Proof.
  induction l as [|y l IH]; [reflexivity|].
  cbn. destruct (cmp x y <=? 0); [reflexivity|].
  rewrite IH. apply Permutation_swap.
Qed.

Lemma sort_by_Permutation (l : list A) : sort_by cmp l ≡ₚ l.
Proof.
  induction l as [|x l IH]; [reflexivity|].
  cbn. rewrite insert_by_Permutation, IH. reflexivity.
Qed.

Lemma insert_by_sorted (x : A) (l : list A) :
  StronglySorted (before cmp) l -> StronglySorted (before cmp) (insert_by cmp x l).
Proof using cmp_total cmp_trans.
  induction 1 as [|y l Hl IH Hy]; cbn.
  - repeat constructor.
  - destruct (Z.leb_spec (cmp x y) 0) as [Hxy|Hxy].
    + constructor; [constructor; assumption|].
      constructor; [exact Hxy|].
      eapply Forall_impl; [exact Hy|].
      intros z Hz. exact (cmp_trans _ _ _ Hxy Hz).
    + constructor; [exact IH|].
      rewrite insert_by_Permutation. constructor; [|exact Hy].
      apply cmp_total, Hxy.
Qed.

Lemma sort_by_sorted (l : list A) : StronglySorted (before cmp) (sort_by cmp l).
Proof using cmp_total cmp_trans.
  induction l as [|x l IH]; [constructor|].
  cbn. apply insert_by_sorted, IH.
Qed.

(** Elements among which the comparator puts none behind another keep the
    order in which they came. *)
Lemma insert_by_filter (q : A -> bool) (x : A) (l : list A) :
  (forall a b, q a = true -> q b = true -> cmp a b <= 0) ->
  filter (fun a => q a) (insert_by cmp x l) = filter (fun a => q a) (x :: l).
Proof.
  intros Hq. induction l as [|y l IH]; [reflexivity|].
  cbn [insert_by]. destruct (Z.leb_spec (cmp x y) 0) as [Hxy|Hxy]; [reflexivity|].
  rewrite filter_cons, IH, !filter_cons.
  destruct (q x) eqn:Hx, (q y) eqn:Hy; cbn; try reflexivity.
  specialize (Hq x y Hx Hy). lia.
Qed.

Lemma sort_by_filter (q : A -> bool) (l : list A) :
  (forall a b, q a = true -> q b = true -> cmp a b <= 0) ->
  filter (fun a => q a) (sort_by cmp l) = filter (fun a => q a) l.
Proof.
  intros Hq. induction l as [|x l IH]; [reflexivity|].
  cbn [sort_by foldr]. rewrite insert_by_filter by exact Hq.
  rewrite !filter_cons. fold (sort_by cmp l). rewrite IH. reflexivity.
Qed.

End SortFacts.

(** *** The comparator *)

(** The distance the comparator computes is the one of the specification. *)
Lemma delta_spec (p : Z) (c : Candidate) :
  Double.abs (Double.sub (Double.Whole (c_size c)) (Double.Whole p)) = spec_distance p c.
Proof. cbn [Double.sub]. apply DoubleFacts.abs_of_exact. Qed.

(** What [sort] reads off the comparator, on the places of the distances
    among the numbers. *)
Lemma order_le (p : option Z) (a b : Candidate) :
  order p a b <= 0
  <-> match p with
      | Some z =>
          Double.mag (spec_distance z a) < Double.mag (spec_distance z b)
          \/ (Double.mag (spec_distance z a) = Double.mag (spec_distance z b)
              /\ c_size b <= c_size a)
      | None => c_size b <= c_size a
      end.
Proof.
  rewrite <- Z.sgn_nonpos. unfold order, comparator.
  assert (Hsize : Z.sgn (Double.sort_order
                           (Double.sub (Double.Whole (c_size b)) (Double.Whole (c_size a))))
                  <= 0 <-> c_size b <= c_size a).
  { cbn [Double.sub]. rewrite DoubleFacts.sort_order_of_exact, Z.sgn_nonpos. lia. }
  destruct p as [z|]; [|exact Hsize].
  rewrite !delta_spec.
  pose proof (DoubleFacts.of_exact_ranged (Z.abs (c_size a - z))) as Ha.
  pose proof (DoubleFacts.of_exact_ranged (Z.abs (c_size b - z))) as Hb.
  fold (spec_distance z a) in Ha. fold (spec_distance z b) in Hb.
  rewrite (DoubleFacts.strict_eqb_mag _ _ Ha Hb).
  destruct (Z.eqb_spec (Double.mag (spec_distance z a)) (Double.mag (spec_distance z b)))
    as [Heq|Hne]; cbn [negb].
  - rewrite Hsize. lia.
  - rewrite (DoubleFacts.sub_sgn _ _ Ha Hb Hne), Z.sgn_nonpos. lia.
Qed.

Lemma comparator_spec (p : option Z) (a b : Candidate) :
  order p a b <= 0 <-> spec_in_order p a b.
Proof.
  rewrite order_le. unfold spec_in_order. destruct p as [z|]; [|reflexivity].
  pose proof (DoubleFacts.of_exact_ranged (Z.abs (c_size a - z))) as Ha.
  pose proof (DoubleFacts.of_exact_ranged (Z.abs (c_size b - z))) as Hb.
  fold (spec_distance z a) in Ha. fold (spec_distance z b) in Hb.
  rewrite (DoubleFacts.lt_mag _ _ Ha Hb), (DoubleFacts.eq_mag _ _ Ha Hb). reflexivity.
Qed.

Lemma comparator_total (p : option Z) (a b : Candidate) :
  0 < order p a b -> order p b a <= 0.
Proof.
  intros Hab. assert (Hn : ~ order p a b <= 0) by lia.
  rewrite order_le in *. destruct p as [z|]; lia.
Qed.

Lemma comparator_trans (p : option Z) (a b c : Candidate) :
  order p a b <= 0 -> order p b c <= 0 -> order p a c <= 0.
Proof. rewrite !order_le. destruct p as [z|]; lia. Qed.

(** Candidates of equal size are put one behind the other by neither. *)
Lemma same_size_ordered (p : option Z) (a b : Candidate) :
  c_size a = c_size b -> order p a b <= 0.
Proof.
  intros Heq. rewrite order_le. destruct p as [z|]; [|lia].
  right. unfold spec_distance. rewrite Heq. split; [reflexivity | lia].
Qed.

Lemma same_rank_ordered (p : option Z) (set : list string) (c a b : Candidate) :
  same_rank set c a = true -> same_rank set c b = true -> order p a b <= 0.
Proof.
  unfold same_rank. intros [_ Ha%Z.eqb_eq]%andb_true_iff [_ Hb%Z.eqb_eq]%andb_true_iff.
  apply same_size_ordered. congruence.
Qed.

(** Within the safe whole numbers the distance is exact. *)
Lemma spec_distance_exact (p : Z) (c : Candidate) :
  safe_size p -> safe_size (c_size c) ->
  spec_distance p c = Double.Whole (Z.abs (c_size c - p)).
Proof.
  unfold safe_size, Double.MAX_SAFE_INTEGER, spec_distance. intros Hp Hc.
  apply DoubleFacts.of_exact_small. rewrite Z.abs_idemp. lia.
Qed.

(** *** The preferred candidates *)

Lemma toLowerCase_empty (v : string) : toLowerCase v = EmptyString -> v = EmptyString.
Proof. destruct v; [reflexivity | discriminate]. Qed.

Lemma existsb_false {A} (l : list A) : existsb (fun _ => false) l = false.
Proof. induction l as [|x l IH]; [reflexivity | exact IH]. Qed.

Lemma existsb_orb {A} (f g : A -> bool) (l : list A) :
  existsb (fun x => f x || g x) l = existsb f l || existsb g l.
Proof.
  induction l as [|x l IH]; [reflexivity|].
  cbn [existsb]. rewrite IH. destruct (f x), (g x), (existsb f l); reflexivity.
Qed.

Lemma existsb_names (set : list string) (v : string) :
  Forall (fun k => toLowerCase k = k) set ->
  existsb (fun k => names_indexer k (Some v)) set = set_has (toLowerCase v) set.
Proof.
  unfold set_has. induction 1 as [|k set Hk _ IH].
  - cbn. rewrite bool_decide_eq_false_2; [reflexivity | intros H; inversion H].
  - cbn [existsb]. rewrite IH. cbn [names_indexer]. rewrite Hk.
    destruct (bool_decide_reflect (toLowerCase v = k)) as [Heq|Hne].
    + cbn [orb]. symmetry. apply bool_decide_eq_true_2. rewrite Heq. left.
    + cbn [orb]. apply bool_decide_ext. rewrite elem_of_cons. tauto.
Qed.

(** One field of the candidate, as the two filters test it. *)
Lemma field_preferred (set : list string) (x : option string) :
  normalized_set set ->
  (let id := if truthy x then toLowerCase <$> x else None in
   truthy id && set_has (default EmptyString id) set)
  = existsb (fun k => names_indexer k x) set.
Proof.
  intros Hset. unfold normalized_set in Hset. cbn zeta.
  assert (Hlow : Forall (fun k => toLowerCase k = k) set)
    by (eapply Forall_impl; [exact Hset | intros k [_ H]; exact H]).
  destruct x as [v|]; [|cbn; rewrite existsb_false; reflexivity].
  rewrite (existsb_names set v Hlow).
  destruct (bool_decide_reflect (v = EmptyString)) as [->|Hv].
  - assert (Ht : truthy (Some EmptyString) = false) by reflexivity.
    rewrite Ht. cbn [truthy andb]. symmetry. unfold set_has.
    apply bool_decide_eq_false_2.
    intros Hin. rewrite Forall_forall in Hset.
    destruct (Hset _ Hin) as [Hne _]. apply Hne. reflexivity.
  - assert (Ht : truthy (Some v) = true)
      by (unfold truthy; rewrite bool_decide_eq_false_2 by exact Hv; reflexivity).
    rewrite Ht. cbn [fmap option_fmap option_map default]. unfold truthy.
    rewrite bool_decide_eq_false_2; [reflexivity|].
    intros H. apply Hv, toLowerCase_empty, H.
Qed.

(** On a normalized set the test of the filters is the one of the
    specification. *)
Lemma is_preferred_spec (set : list string) (c : Candidate) :
  normalized_set set -> is_preferred set c = spec_preferred set c.
Proof.
  intros Hset. unfold is_preferred, spec_preferred.
  rewrite existsb_orb, <- !(field_preferred set) by exact Hset. reflexivity.
Qed.

(** The set that [triageAndRank] hands to [rankCandidates] is normalized. *)
Lemma toLowerCase_idem (v : string) : toLowerCase (toLowerCase v) = toLowerCase v.
Proof.
  unfold toLowerCase. rewrite list_ascii_of_string_of_list_ascii.
  f_equal. apply ArchiveKeyFacts.lowered_lower_chars.
Qed.

Lemma normalizeIndexerSet_normalized (indexers : option (list string)) :
  normalized_set (normalizeIndexerSet indexers).
Proof.
  unfold normalized_set, normalizeIndexerSet.
  destruct indexers as [l|]; [|constructor].
  set (P := fun k : string => k <> EmptyString /\ toLowerCase k = k).
  assert (Hall : Forall P (filter (fun x => x <> EmptyString)
                             (map (fun e => toLowerCase (trim e)) l))).
  { apply Forall_forall. intros k Hk.
    apply list_elem_of_filter in Hk as [Hne Hk].
    apply list_elem_of_In, in_map_iff in Hk as (e & <- & _).
    split; [exact Hne | apply toLowerCase_idem]. }
  revert Hall. generalize (filter (fun x => x <> EmptyString)
                             (map (fun e => toLowerCase (trim e)) l)).
  intros xs Hxs.
  assert (Hfold : forall acc, Forall P acc ->
                    Forall P (foldl (fun s x => set_add x s) acc xs)).
  { induction Hxs as [|x xs Hx _ IH]; intros acc Hacc; [exact Hacc|].
    cbn [foldl]. apply IH. unfold set_add.
    destruct (bool_decide (x ∈ acc)); [exact Hacc|].
    apply Forall_app. split; [exact Hacc | repeat constructor; apply Hx]. }
  apply Hfold. constructor.
Qed.

Lemma filter_pointwise {A} (q r : A -> bool) (l : list A) :
  (forall x, q x = r x) -> filter (fun x => q x) l = filter (fun x => r x) l.
Proof.
  intros Hqr. induction l as [|x l IH]; [reflexivity|].
  rewrite !filter_cons, IH, Hqr. reflexivity.
Qed.

(** *** [rankCandidates] *)

Lemma is_preferred_empty (c : Candidate) : is_preferred [] c = false.
Proof.
  unfold is_preferred, set_has.
  rewrite !bool_decide_eq_false_2 by (intros H; inversion H).
  rewrite !andb_false_r. reflexivity.
Qed.

Lemma filter_all {A} (q : A -> bool) (l : list A) :
  (forall x, q x = true) -> filter (fun x => q x) l = l.
Proof.
  intros Hq. induction l as [|x l IH]; [reflexivity|].
  rewrite filter_cons, IH, Hq. reflexivity.
Qed.

Lemma filter_none {A} (q : A -> bool) (l : list A) :
  (forall x, x ∈ l -> q x = false) -> filter (fun x => q x) l = [].
Proof.
  intros Hq. induction l as [|x l IH]; [reflexivity|].
  rewrite filter_cons, IH, Hq; [reflexivity | left | ].
  intros y Hy. apply Hq. right. exact Hy.
Qed.

(** The result as one expression, whether the set is empty or not. *)
Lemma rankCandidates_parts (candidates : list Candidate) (p : option Z)
    (set : list string) :
  rankCandidates candidates p set
  = sort_by (order p) (filter (fun c => is_preferred set c) candidates)
    ++ sort_by (order p) (filter (fun c => negb (is_preferred set c)) candidates).
Proof.
  unfold rankCandidates. destruct set as [|s set]; [|reflexivity].
  cbn [length Nat.ltb Nat.leb].
  rewrite (filter_none (is_preferred [])) by (intros; apply is_preferred_empty).
  rewrite (filter_all (fun c => negb (is_preferred [] c)));
    [reflexivity | intros; rewrite is_preferred_empty; reflexivity].
Qed.

Lemma filter_split_Permutation {A} (q : A -> bool) (l : list A) :
  filter (fun x => q x) l ++ filter (fun x => negb (q x)) l ≡ₚ l.
Proof.
  induction l as [|x l IH]; [reflexivity|].
  destruct (q x) eqn:Hq.
  - rewrite filter_cons_True by (apply Is_true_true; exact Hq).
    rewrite (filter_cons_False (fun x => negb (q x))) by (rewrite Hq; exact id).
    cbn [app]. rewrite IH. reflexivity.
  - rewrite filter_cons_False by (rewrite Hq; exact id).
    rewrite (filter_cons_True (fun x => negb (q x))) by (rewrite Hq; exact I).
    rewrite <- Permutation_middle, IH. reflexivity.
Qed.

Lemma filter_filter_same {A} (q r : A -> bool) (l : list A) :
  (forall x, q x = true -> r x = true) ->
  filter (fun x => q x) (filter (fun x => r x) l) = filter (fun x => q x) l.
Proof.
  intros Hqr. induction l as [|x l IH]; [reflexivity|].
  destruct (r x) eqn:Hr.
  - rewrite (filter_cons_True (fun x => r x)) by (apply Is_true_true; exact Hr).
    rewrite !filter_cons, IH. reflexivity.
  - rewrite (filter_cons_False (fun x => r x)) by (rewrite Hr; exact id).
    rewrite IH. rewrite filter_cons_False; [reflexivity|].
    intros Hq%Is_true_true. rewrite (Hqr x Hq) in Hr. discriminate.
Qed.

Lemma filter_filter_none {A} (q r : A -> bool) (l : list A) :
  (forall x, q x = true -> r x = false) ->
  filter (fun x => q x) (filter (fun x => r x) l) = [].
Proof.
  intros Hqr. apply filter_none. intros x Hx.
  apply list_elem_of_filter in Hx as [Hr%Is_true_true _].
  destruct (q x) eqn:Hq; [|reflexivity].
  rewrite (Hqr x Hq) in Hr. discriminate.
Qed.

Lemma StronglySorted_impl {A} (R S : A -> A -> Prop) (l : list A) :
  (forall a b, R a b -> S a b) -> StronglySorted R l -> StronglySorted S l.
Proof.
  intros HRS. induction 1 as [|x l Hl IH Hx]; constructor; [exact IH|].
  eapply Forall_impl; [exact Hx | intros y; apply HRS].
Qed.

(** Sizes 900M, 1050M and 2000M around a preferred size of 1000M. *)
Example rank_by_preferred_size :
  c_size <$> rankCandidates
               (buildCandidates [sized "a" 900000000; sized "b" 1050000000;
                                 sized "c" 2000000000])
               (Some 1000000000) []
  = [1050000000; 900000000; 2000000000].
Proof. vm_compute. reflexivity. Qed.

(** C7 as stated fails: with the preferred size [2^54], the sizes 1 and
    [2^55] are at the distances [2^54 - 1] and [2^54], which are the same
    double; the comparator takes the two for equally near and puts the
    bigger first, though the smaller is nearer. *)
Lemma rank_rounds_the_distance :
  c_size <$> rankCandidates
               (buildCandidates [sized "a" 1; sized "b" 36028797018963968])
               (Some 18014398509481984) []
  = [36028797018963968; 1]
  /\ Z.abs (1 - 18014398509481984) < Z.abs (36028797018963968 - 18014398509481984)
  /\ 18014398509481984 = 2 ^ 54.
Proof. split; [vm_compute; reflexivity | split; [lia | reflexivity]]. Qed.

(** C7 (amended): the ranked list is the candidates of a preferred indexer
    (indexerId or indexerName, without regard to case, in the normalized
    set) followed by the others; inside each part a candidate stands before
    every later one in the specified order, the distance to the preferred
    size being the double nearest to [|size - preferredSizeBytes|] (nearer
    first, the bigger first among equally near ones; without a preferred
    size the bigger first); the ranked list holds the candidates of the
    input and no others; the candidates of one part that have the same size
    stand in their input order; and for sizes and a preferred size from 0 to
    [2^53 - 1] the distance is [|size - preferredSizeBytes|] itself. *)
Theorem rankCandidates_order (candidates : list Candidate)
    (preferredSizeBytes : option Z) (preferredIndexerSet : list string) :
  normalized_set preferredIndexerSet ->
  exists preferred others,
    rankCandidates candidates preferredSizeBytes preferredIndexerSet
    = preferred ++ others
    /\ Forall (fun c => spec_preferred preferredIndexerSet c = true) preferred
    /\ Forall (fun c => spec_preferred preferredIndexerSet c = false) others
    /\ StronglySorted (spec_in_order preferredSizeBytes) preferred
    /\ StronglySorted (spec_in_order preferredSizeBytes) others
    /\ preferred ++ others ≡ₚ candidates
    /\ (forall c,
          filter (fun x => same_rank preferredIndexerSet c x)
            (rankCandidates candidates preferredSizeBytes preferredIndexerSet)
          = filter (fun x => same_rank preferredIndexerSet c x) candidates)
    /\ (forall p c,
          preferredSizeBytes = Some p -> safe_size p -> safe_size (c_size c) ->
          spec_distance p c = Double.Whole (Z.abs (c_size c - p))).
Proof.
  intros Hset.
  set (p := preferredSizeBytes). set (s := preferredIndexerSet).
  set (pre := filter (fun c => spec_preferred s c) candidates).
  set (oth := filter (fun c => negb (spec_preferred s c)) candidates).
  exists (sort_by (order p) pre), (sort_by (order p) oth).
  rewrite rankCandidates_parts.
  rewrite (filter_pointwise (is_preferred s) (spec_preferred s))
    by (intros x; apply is_preferred_spec, Hset).
  rewrite (filter_pointwise (fun c => negb (is_preferred s c))
             (fun c => negb (spec_preferred s c)))
    by (intros x; rewrite (is_preferred_spec s x Hset); reflexivity).
  fold pre oth.
  split; [reflexivity|].
  split.
  { rewrite sort_by_Permutation. apply Forall_forall. intros c Hc.
    apply list_elem_of_filter in Hc as [Hc _]. apply Is_true_true, Hc. }
  split.
  { rewrite sort_by_Permutation. apply Forall_forall. intros c Hc.
    apply list_elem_of_filter in Hc as [Hc _].
    apply Is_true_true, negb_true_iff in Hc. exact Hc. }
  split.
  { eapply StronglySorted_impl; [intros a b; apply comparator_spec|].
    apply sort_by_sorted; [apply comparator_total | apply comparator_trans]. }
  split.
  { eapply StronglySorted_impl; [intros a b; apply comparator_spec|].
    apply sort_by_sorted; [apply comparator_total | apply comparator_trans]. }
  split.
  { rewrite !sort_by_Permutation. apply filter_split_Permutation. }
  split.
  2:{ intros z c _ Hz Hc. apply spec_distance_exact; assumption. }
  intros c. rewrite filter_app.
  rewrite !(sort_by_filter (order p) (same_rank s c))
    by (apply same_rank_ordered).
  unfold pre, oth.
  destruct (spec_preferred s c) eqn:Hc.
  - rewrite (filter_filter_same (same_rank s c) (spec_preferred s)).
    2:{ unfold same_rank. intros x [Hx%eqb_prop _]%andb_true_iff. congruence. }
    rewrite (filter_filter_none (same_rank s c) (fun x => negb (spec_preferred s x))).
    2:{ unfold same_rank. intros x [Hx%eqb_prop _]%andb_true_iff.
        rewrite Hx, Hc. reflexivity. }
    apply app_nil_r.
  - rewrite (filter_filter_none (same_rank s c) (spec_preferred s)).
    2:{ unfold same_rank. intros x [Hx%eqb_prop _]%andb_true_iff. congruence. }
    rewrite (filter_filter_same (same_rank s c) (fun x => negb (spec_preferred s x))).
    2:{ unfold same_rank. intros x [Hx%eqb_prop _]%andb_true_iff.
        rewrite Hx, Hc. reflexivity. }
    reflexivity.
Qed.

Lemma rankCandidates_order_witness :
  exists preferred others,
    rankCandidates
      (buildCandidates
         [ {| downloadUrl := Some "http://idx/one.nzb"%string; size := Some 900;
              r_title := None; r_indexerId := Some "7"%string;
              r_indexer := Some "Other"%string |};
           {| downloadUrl := Some "http://idx/two.nzb"%string; size := Some 700;
              r_title := None; r_indexerId := Some "9"%string;
              r_indexer := Some "NZBGeek"%string |} ])
      (Some 1000) (normalizeIndexerSet (Some [" NzbGeek "%string]))
    = preferred ++ others
    /\ Forall (fun c => spec_preferred
                          (normalizeIndexerSet (Some [" NzbGeek "%string])) c = true)
              preferred
    /\ c_size <$> preferred = [700]
    /\ c_size <$> others = [900].
Proof.
  destruct (rankCandidates_order
              (buildCandidates
                 [ {| downloadUrl := Some "http://idx/one.nzb"%string; size := Some 900;
                      r_title := None; r_indexerId := Some "7"%string;
                      r_indexer := Some "Other"%string |};
                   {| downloadUrl := Some "http://idx/two.nzb"%string; size := Some 700;
                      r_title := None; r_indexerId := Some "9"%string;
                      r_indexer := Some "NZBGeek"%string |} ])
              (Some 1000) (normalizeIndexerSet (Some [" NzbGeek "%string])))
    as (preferred & others & Heq & Hpre & Hoth & _).
  - vm_compute. repeat constructor; discriminate.
  - exists preferred, others. split; [exact Heq|]. split; [exact Hpre|].
    assert (Hrank : exists c1 c2,
               rankCandidates
                 (buildCandidates
                    [ {| downloadUrl := Some "http://idx/one.nzb"%string; size := Some 900;
                         r_title := None; r_indexerId := Some "7"%string;
                         r_indexer := Some "Other"%string |};
                      {| downloadUrl := Some "http://idx/two.nzb"%string; size := Some 700;
                         r_title := None; r_indexerId := Some "9"%string;
                         r_indexer := Some "NZBGeek"%string |} ])
                 (Some 1000) (normalizeIndexerSet (Some [" NzbGeek "%string]))
               = [c1; c2]
               /\ c_size c1 = 700 /\ c_size c2 = 900
               /\ spec_preferred (normalizeIndexerSet (Some [" NzbGeek "%string])) c1 = true
               /\ spec_preferred (normalizeIndexerSet (Some [" NzbGeek "%string])) c2 = false).
    { do 2 eexists. split; [vm_compute; reflexivity|]. repeat split. }
    destruct Hrank as (c1 & c2 & Hr & H1 & H2 & Hp1 & Hp2).
    rewrite Hr in Heq.
    destruct preferred as [|x [|y preferred]]; cbn in Heq.
    + subst others. apply Forall_cons in Hoth as [Hx _]. congruence.
    + injection Heq as <- <-. cbn. rewrite H1, H2. split; reflexivity.
    + injection Heq as <- <- Hrest. apply Forall_cons in Hpre as [_ Hpre].
      apply Forall_cons in Hpre as [Hy _]. congruence.
Defined.

(** *** The decision map *)

Section JsMapFacts.
Context {V : Type}.
Implicit Types (m : list (string * V)) (k : string).

Lemma map_set_keys k (v : V) m :
  (map_set k v m).*1 = if bool_decide (k ∈ m.*1) then m.*1 else m.*1 ++ [k].
Proof.
  induction m as [|[k' v'] m IH].
  - cbn. rewrite bool_decide_eq_false_2; [reflexivity | intros H; inversion H].
  - cbn [map_set]. destruct (bool_decide_reflect (k' = k)) as [->|Hne].
    + cbn. rewrite bool_decide_eq_true_2 by left. reflexivity.
    + rewrite !fmap_cons, IH. cbn [fst].
      destruct (bool_decide_reflect (k ∈ m.*1)) as [Hin|Hin].
      * rewrite bool_decide_eq_true_2 by (right; exact Hin). reflexivity.
      * rewrite bool_decide_eq_false_2; [reflexivity|].
        intros H. apply elem_of_cons in H as [H|H]; [congruence | tauto].
Qed.

Lemma map_set_has k (v : V) m : k ∈ (map_set k v m).*1.
Proof.
  rewrite map_set_keys. destruct (bool_decide_reflect (k ∈ m.*1)); [assumption|].
  apply elem_of_app. right. left.
Qed.

Lemma map_set_mono k (v : V) m x : x ∈ m.*1 -> x ∈ (map_set k v m).*1.
Proof.
  intros Hx. rewrite map_set_keys. destruct (bool_decide (k ∈ m.*1)); [assumption|].
  apply elem_of_app. left. exact Hx.
Qed.

Lemma map_set_NoDup k (v : V) m : NoDup m.*1 -> NoDup (map_set k v m).*1.
Proof.
  intros Hnd. rewrite map_set_keys.
  destruct (bool_decide_reflect (k ∈ m.*1)) as [|Hin]; [assumption|].
  apply NoDup_app. repeat split; [assumption | | apply NoDup_singleton].
  intros x Hx Hk. apply list_elem_of_singleton in Hk. subst. tauto.
Qed.

End JsMapFacts.

Lemma foldl_keeps_keys {V X} (f : list (string * V) -> X -> list (string * V))
    (xs : list X) :
  keeps_keys f ->
  forall m, (NoDup m.*1 -> NoDup (foldl f m xs).*1)
            /\ (forall k, k ∈ m.*1 -> k ∈ (foldl f m xs).*1).
Proof.
  intros Hf. induction xs as [|x xs IH]; intros m; [split; auto|].
  cbn [foldl]. destruct (Hf m x) as [Hnd Hin], (IH (f m x)) as [Hnd' Hin'].
  split; auto.
Qed.

Lemma add_failures_keeps byUrl failures (m : list (string * Summary)) :
  (NoDup m.*1 -> NoDup (add_failures byUrl failures m).*1)
  /\ (forall k, k ∈ m.*1 -> k ∈ (add_failures byUrl failures m).*1).
Proof.
  apply foldl_keeps_keys. intros m' x.
  split; [apply map_set_NoDup | intros k; apply map_set_mono].
Qed.

Lemma add_decisions_keeps byUrl payloads ds (m : list (string * Summary)) :
  (NoDup m.*1 -> NoDup (add_decisions byUrl payloads ds m).*1)
  /\ (forall k, k ∈ m.*1 -> k ∈ (add_decisions byUrl payloads ds m).*1).
Proof.
  apply foldl_keeps_keys. intros m' x.
  destruct (payloads !! x.1); [|split; auto].
  split; [apply map_set_NoDup | intros k; apply map_set_mono].
Qed.

Lemma add_errors_keeps byUrl err payloads (m : list (string * Summary)) :
  (NoDup m.*1 -> NoDup (add_errors byUrl err payloads m).*1)
  /\ (forall k, k ∈ m.*1 -> k ∈ (add_errors byUrl err payloads m).*1).
Proof.
  apply foldl_keeps_keys. intros m' x.
  destruct (map_has _ m'); [split; auto|].
  split; [apply map_set_NoDup | intros k; apply map_set_mono].
Qed.

Lemma add_missing_keeps byUrl timedOut selected (m : list (string * Summary)) :
  (NoDup m.*1 -> NoDup (add_missing byUrl timedOut selected m).*1)
  /\ (forall k, k ∈ m.*1 -> k ∈ (add_missing byUrl timedOut selected m).*1).
Proof.
  apply foldl_keeps_keys. intros m' x.
  destruct (map_has _ m'); [split; auto|].
  split; [apply map_set_NoDup | intros k; apply map_set_mono].
Qed.

(** After the last [forEach] every selected candidate has its key. *)
Lemma add_missing_covers byUrl timedOut selected :
  forall (m : list (string * Summary)) c,
    c ∈ selected -> c_downloadUrl c ∈ (add_missing byUrl timedOut selected m).*1.
Proof.
  induction selected as [|c0 selected IH]; intros m c Hc; [inversion Hc|].
  apply elem_of_cons in Hc as [->|Hc].
  - unfold add_missing. cbn [foldl].
    apply (add_missing_keeps byUrl timedOut selected).
    unfold map_has. destruct (bool_decide_reflect (c_downloadUrl c0 ∈ m.*1));
      [assumption | apply map_set_has].
  - unfold add_missing. cbn [foldl]. apply IH, Hc.
Qed.

(** C2 as stated fails: the second candidate of the sample batch has the
    title of the first up to case and blanks, is dropped by the title filter
    and gets no entry in [decisions]. *)
Lemma title_twin_has_no_decision :
  Some "http://idx/two.nzb"%string ∈ downloadUrl <$> sample_results
  /\ ("http://idx/two.nzb"%string ∉ (decisions sample_output).*1)
  /\ (decisions sample_output).*1 = ["http://idx/one.nzb"%string].
Proof.
  split; [right; left|].
  assert (H : (decisions sample_output).*1 = ["http://idx/one.nzb"%string])
    by (vm_compute; reflexivity).
  split; [|exact H].
  rewrite H. intros Hin. apply list_elem_of_singleton in Hin. discriminate Hin.
Qed.

(** C2 (amended): in the result of [triageAndRank], however the downloads
    and the analysis end, the keys of [decisions] are pairwise distinct and
    the downloadUrl of every selected candidate (what is left of the input
    after the filters by URL and by title and the cut at [maxCandidates]) is
    among them. *)
Theorem triageAndRank_decisions (nzbResults : list NzbResult) (options : Options)
    (download : list Candidate -> DownloadResult) (elapsedAfterDownloads : Z)
    (triage : list string -> TriageOutcome) :
  let out := triageAndRank nzbResults options download elapsedAfterDownloads triage in
  NoDup (decisions out).*1
  /\ forall c, c ∈ selectCandidates nzbResults options ->
               c_downloadUrl c ∈ (decisions out).*1.
Proof.
  cbn zeta. unfold triageAndRank.
  destruct (selectCandidates nzbResults options) as [|c0 selected] eqn:Hsel.
  { split; [constructor | intros c Hc; inversion Hc]. }
  set (byUrl := foldl _ [] (c0 :: selected)).
  set (dl := download (c0 :: selected)).
  set (m0 := add_failures byUrl (failures dl) []).
  assert (Hm0 : NoDup m0.*1)
    by (apply add_failures_keeps; constructor).
  destruct (payloads dl) as [|p ps] eqn:Hpay; cbn [decisions].
  { split; [apply add_missing_keeps, Hm0 | apply add_missing_covers]. }
  split; [|apply add_missing_covers].
  apply add_missing_keeps.
  destruct (0 <? _); [|exact Hm0].
  destruct (triage _) as [ds|err].
  - apply add_decisions_keeps, Hm0.
  - apply add_errors_keeps, Hm0.
Qed.

Lemma triageAndRank_decisions_witness :
  NoDup (decisions sample_output).*1
  /\ "http://idx/one.nzb"%string ∈ (decisions sample_output).*1.
Proof.
  destruct (triageAndRank_decisions sample_results sample_options
              (downloadNzbs (fun _ => Fetched "<nzb/>")) 100 sample_triage)
    as [Hnd Hall].
  split; [exact Hnd|].
  apply (Hall {| c_result := {| downloadUrl := Some "http://idx/one.nzb"%string;
                                size := Some 700; r_title := Some "Movie"%string;
                                r_indexerId := None; r_indexer := None |};
                 c_index := 0; c_size := 700; c_indexerId := None;
                 c_indexerName := None;
                 c_downloadUrl := "http://idx/one.nzb";
                 c_title := Some "Movie"%string;
                 c_normalizedTitle := "movie" |}).
  vm_compute. left.
Defined.

End RunnerFacts.

(** ** One STAT on a borrowed client *)

Module StatFacts.
Import Str Analyzer Stat.

(** A promise that has settled stays as it is. *)
Lemma settled_stays (evs : list StatEvent) (c : Call) :
  completed c = true -> foldl (fun c ev => on_event ev c) c evs = c.
Proof.
  revert c. induction evs as [|ev evs IH]; intros c Hc; [reflexivity|].
  cbn [foldl]. assert (on_event ev c = c) as ->; [|apply IH, Hc].
  destruct ev; cbn; rewrite Hc; reflexivity.
Qed.

(** Whatever comes after the timer, the call is rejected with
    [STAT_TIMEOUT] and the client is marked for drop. *)
Lemma timer_first (evs : list StatEvent) :
  settled (run_events (TimerFired :: evs)) = Some (Rejected timeout_error).
Proof. unfold run_events. cbn [foldl]. rewrite settled_stays; reflexivity. Qed.

Lemma taken_as_missing_code (err : NntpErr) :
  taken_as_missing err ->
  code (stat_error_of err) = Some (CodeNum 430)
  \/ code (stat_error_of err) = Some (CodeStr "STAT_MISSING").
Proof.
  unfold stat_error_of. intros [H | [H Hmsg]]; rewrite H; cbn; [left; reflexivity|].
  right. rewrite Hmsg.
  destruct (bool_decide_reflect (n_message err = EmptyString)) as [E|_];
    [rewrite E in Hmsg; discriminate Hmsg | reflexivity].
Qed.

(** C6 as stated fails for a failure whose text contains 430 and whose code
    is a transport code: the connection to port 1430 timed out, and the
    client is dropped. *)
Lemma text_430_with_transport_code_drops :
  let err := {| n_code := Some (CodeStr "ETIMEDOUT");
                n_message := "connect ETIMEDOUT 10.0.0.7:1430" |} in
  spec_missing err
  /\ exists e, statSegmentWithClient (Some (120, Some err)) = Some (Rejected e)
               /\ dropClient e = true.
Proof.
  split; [right; vm_compute; reflexivity|].
  eexists. split; [vm_compute; reflexivity | reflexivity].
Qed.

Lemma not_transport (err : NntpErr) :
  n_code err ∉ (Some <$> TRANSPORT_CODES) -> is_transport (n_code err) = false.
Proof.
  intros Hcode. unfold is_transport. destruct (n_code err) as [c|]; [|reflexivity].
  apply bool_decide_eq_false_2. intros Hc. apply Hcode, list_elem_of_fmap_2, Hc.
Qed.

(** C6 (amended): a STAT whose callback does not come within 5000 ms is
    rejected with [STAT_TIMEOUT] and [dropClient = true]; a STAT that fails
    in time with one of the four transport codes has [dropClient = true]; a
    STAT that fails in time with a missing article (code 430, or a text that
    contains 430) and, as every other failure in time, with a code that is
    none of the four has no [dropClient]; with code 430, or with no code and
    a text that contains 430, its code is 430 or [STAT_MISSING]. *)
Theorem stat_drop_policy :
  (forall reply,
      (reply = None \/ exists t err, reply = Some (t, err) /\ STAT_TIMEOUT_MS < t) ->
      statSegmentWithClient reply = Some (Rejected timeout_error)
      /\ code timeout_error = Some (CodeStr "STAT_TIMEOUT")
      /\ dropClient timeout_error = true)
  /\ (forall t err,
        t < STAT_TIMEOUT_MS ->
        n_code err ∈ (Some <$> TRANSPORT_CODES) ->
        exists e, statSegmentWithClient (Some (t, Some err)) = Some (Rejected e)
                  /\ dropClient e = true)
  /\ (forall t err,
        t < STAT_TIMEOUT_MS ->
        n_code err ∉ (Some <$> TRANSPORT_CODES) ->
        exists e, statSegmentWithClient (Some (t, Some err)) = Some (Rejected e)
                  /\ dropClient e = false
                  /\ (taken_as_missing err ->
                      code e = Some (CodeNum 430)
                      \/ code e = Some (CodeStr "STAT_MISSING"))).
Proof.
  split; [|split].
  - intros reply Hlate. split; [|split; reflexivity].
    unfold statSegmentWithClient.
    destruct Hlate as [-> | (t & err & -> & Ht)]; [reflexivity|].
    unfold events_of. destruct (Z.ltb_spec t STAT_TIMEOUT_MS); [lia|].
    apply timer_first.
  - intros t err Ht Hcode. exists (stat_error_of err).
    unfold statSegmentWithClient, events_of.
    destruct (Z.ltb_spec t STAT_TIMEOUT_MS); [|lia].
    split; [reflexivity|]. cbn.
    apply list_elem_of_fmap in Hcode as (c & -> & Hc).
    cbn. apply bool_decide_eq_true_2, Hc.
  - intros t err Ht Hcode. exists (stat_error_of err).
    unfold statSegmentWithClient, events_of.
    destruct (Z.ltb_spec t STAT_TIMEOUT_MS); [|lia].
    split; [reflexivity|].
    split; [apply not_transport, Hcode | apply taken_as_missing_code].
Qed.

Lemma stat_drop_policy_witness :
  statSegmentWithClient (Some (6000, None)) = Some (Rejected timeout_error)
  /\ (exists e, statSegmentWithClient
                  (Some (20, Some {| n_code := Some (CodeStr "ECONNRESET");
                                     n_message := "read ECONNRESET" |}))
                = Some (Rejected e) /\ dropClient e = true)
  /\ (exists e, statSegmentWithClient
                  (Some (20, Some {| n_code := Some (CodeStr "EPROTO");
                                     n_message := "430 No Such Article" |}))
                = Some (Rejected e) /\ dropClient e = false).
Proof.
  destruct stat_drop_policy as (Hlate & Htransport & Hmissing).
  split; [|split].
  - apply Hlate. right. exists 6000, None. split; [reflexivity | reflexivity].
  - apply Htransport; [reflexivity|]. right. left.
  - destruct (Hmissing 20 {| n_code := Some (CodeStr "EPROTO");
                             n_message := "430 No Such Article" |})
      as (e & He & Hdrop & _); [reflexivity | |].
    + cbn. rewrite !elem_of_cons, elem_of_nil.
      intros H. repeat (destruct H as [H|H]; [discriminate H|]). exact H.
    + exists e. split; assumption.
Defined.

End StatFacts.

(** ** Borrowing a client *)

Module BorrowFacts.
Import Analyzer Borrow.

(** C10: a call that gets a client that is not null hands back what the
    handler settled with, value or error, and makes on the pool, after the
    [acquire] and whatever the handler does, exactly one [release], of that
    client, with [drop] true exactly when the handler threw an error whose
    [dropClient] is truthy. *)
Theorem runWithClient_releases_once {A} (acquired : Result JsError (option nat))
    (handler : nat -> list PoolCall * Result JsError A) (client : nat) (s : Frame) :
  acquired = Ok (Some client) ->
  let out := runWithClient true acquired handler s in
  out.1 = (handler client).2
  /\ calls out.2
     = calls s ++ [CallAcquire] ++ (handler client).1
       ++ [CallRelease client (drop_of (handler client).2)]
  /\ releases (calls out.2)
     = releases (calls s) ++ releases (handler client).1
       ++ [(client, drop_of (handler client).2)].
Proof.
  intros ->. cbn zeta.
  assert (Hcalls :
    (runWithClient true (Ok (Some client)) handler s).1 = (handler client).2
    /\ calls (runWithClient true (Ok (Some client)) handler s).2
       = calls s ++ [CallAcquire] ++ (handler client).1
         ++ [CallRelease client (drop_of (handler client).2)]).
  { unfold runWithClient, pool_acquire, bind, log_call, ret, set_dropClient,
      try_catch_finally, run_handler, get_dropClient, pool_release, throw.
    cbn. destruct (handler client) as [made [a|err]]; cbn.
    - rewrite <- !app_assoc. split; reflexivity.
    - destruct (dropClient err); cbn; rewrite <- !app_assoc; split; reflexivity. }
  destruct Hcalls as [Hres Hcalls]. split; [exact Hres|]. split; [exact Hcalls|].
  rewrite Hcalls. unfold releases. rewrite !omap_app. reflexivity.
Qed.

Lemma runWithClient_releases_once_witness :
  let handler := fun c : nat =>
    ([] : list PoolCall,
     Err {| code := Some (CodeStr "STAT_TIMEOUT"); message := "STAT timed out after 5s";
            dropClient := true |} : Result JsError unit) in
  releases (calls (runWithClient true (Ok (Some 3%nat)) handler fresh_frame).2)
  = [(3%nat, true)].
Proof.
  cbn zeta.
  exact (proj2 (proj2 (runWithClient_releases_once (Ok (Some 3%nat)) _ 3%nat
                         fresh_frame eq_refl))).
Defined.

End BorrowFacts.

(** ** NNTP pool *)

Module PoolFacts.
Import Pool.

Lemma pop_None (l : list nat) : pop l = None -> l = [].
Proof.
  unfold pop. destruct (reverse l) as [|c r] eqn:Hrev; [|discriminate].
  intros _. apply (f_equal reverse) in Hrev.
  rewrite reverse_involutive in Hrev. exact Hrev.
Qed.

Lemma pop_nil : pop [] = None.
Proof. reflexivity. Qed.

Lemma scheduleKeepAlive_lists (t : Tick) (c : nat) (s : PoolState) :
  waiters (scheduleKeepAlive t c s) = waiters s
  /\ idle (scheduleKeepAlive t c s) = idle s.
Proof.
  unfold scheduleKeepAlive.
  destruct (closing s || bool_decide (c ∈ noopTimers s)); [split; reflexivity|].
  destruct (negb (fresh t)); split; reflexivity.
Qed.

Lemma step_keeps (keepAliveMs : Z) (t : Tick) (ev : Event) (s : PoolState) :
  no_waiter_while_idle s -> no_waiter_while_idle (step keepAliveMs t ev s).
Proof.
  unfold no_waiter_while_idle. intros Hinv.
  destruct ev as [w|client drop|replacement|client|client|client| | |]; cbn [step].
  - unfold acquireClient. destruct (closing s); [exact Hinv|].
    destruct (pop (idle s)) as [[client rest]|] eqn:Hpop; cbn.
    + destruct Hinv as [Hw|Hi]; [left; exact Hw|].
      rewrite Hi, pop_nil in Hpop. discriminate.
    + right. apply pop_None, Hpop.
  - unfold releaseClient. destruct client as [client|]; [|exact Hinv].
    destruct drop; [exact Hinv|].
    destruct (waiters s) as [|waiter rest] eqn:Hw; cbn.
    + destruct (scheduleKeepAlive_lists t client
                  (touch t (set_idle (idle s ++ [client]) s))) as [-> _].
      left. exact Hw.
    + right. destruct Hinv as [Hnil|Hi]; [discriminate | exact Hi].
  - unfold replacementArrived. cbn.
    destruct (waiters s) as [|waiter rest] eqn:Hw; cbn.
    + left. exact Hw.
    + right. destruct Hinv as [Hnil|Hi]; [discriminate | exact Hi].
  - exact Hinv.
  - unfold keepAliveOk. destruct (_ && _ && _); [|exact Hinv].
    destruct (scheduleKeepAlive_lists t client s) as [-> ->]. exact Hinv.
  - unfold keepAliveFailed. cbn.
    destruct Hinv as [Hw|Hi]; [left; exact Hw | right; rewrite Hi; reflexivity].
  - unfold rotate. destruct (closing s); [exact Hinv|].
    destruct (negb (fresh t)); [exact Hinv|].
    destruct (_ <? _); [exact Hinv|].
    destruct (waiters s) as [|w ws] eqn:Hw; [|rewrite <- Hw in Hinv; exact Hinv].
    destruct (pop (idle s)) as [[client rest]|]; cbn; left; exact Hw.
  - left. reflexivity.
  - exact Hinv.
Qed.

Lemma reachable_keeps (keepAliveMs : Z) (s : PoolState) :
  reachable keepAliveMs s -> no_waiter_while_idle s.
Proof.
  induction 1 as [t initialClients | t ev s _ IH].
  - left. reflexivity.
  - apply step_keeps, IH.
Qed.

(** C9: in every state the pool reaches, through any sequence of acquire,
    release, arrival of a replacement, keep-alive events, rotation and
    close, a queue of waiters that is not empty means that no client is
    idle. *)
Theorem waiters_imply_no_idle (keepAliveMs : Z) (s : PoolState) :
  reachable keepAliveMs s -> waiters s <> [] -> idle s = [].
Proof.
  intros Hreach Hw. destruct (reachable_keeps keepAliveMs s Hreach) as [H|H];
    [contradiction | exact H].
Qed.

Lemma waiters_imply_no_idle_witness :
  let t := {| now := 0; fresh := true |} in
  let s := step 120000 t (Acquire 2) (step 120000 t (Acquire 1) (initial t [7%nat])) in
  waiters s = [2%nat] /\ idle s = [].
Proof.
  cbn zeta. split; [reflexivity|].
  apply (waiters_imply_no_idle 120000).
  - apply reach_step, reach_step, reach_initial.
  - discriminate.
Defined.

End PoolFacts.

(** * Further properties *)

(** ** yEnc decoder: edge behaviour *)

Module YencProps.
Import Buf Yenc.

Lemma no_ybegin_no_payload (lines : list (list Z)) :
  Forall (fun line => starts_with ybegin line = false) lines ->
  spec_payload_lines false lines = [].
Proof.
  induction 1 as [|line lines Hline _ IH]; [reflexivity|].
  cbn [spec_payload_lines negb]. rewrite Hline. exact IH.
Qed.

(** A body none of whose lines begins with [=ybegin] is a decode error,
    whatever the cap. *)
Theorem decode_without_ybegin (body : Buffer) (maxBytes : nat) :
  Forall (fun line => starts_with ybegin line = false) (split_crlf body) ->
  decodeYencBuffer body maxBytes = Err DECODE_ERROR.
Proof.
  intros Hno. rewrite YencFacts.decode_refines. unfold spec_payload.
  rewrite (no_ybegin_no_payload _ Hno). reflexivity.
Qed.

Lemma decode_without_ybegin_witness :
  decodeYencBuffer (of_string "=yend" ++ [13; 10] ++ of_string "payload") 8
  = Err DECODE_ERROR.
Proof.
  apply decode_without_ybegin. vm_compute. repeat constructor.
Defined.

(** The cap only cuts: what a call with a smaller cap returns is the head
    of what a call with a bigger cap returns, and it is as long as the cap
    allows. *)
Theorem decode_cap_prefix (body : Buffer) (small big : nat) (out : Buffer) :
  (small <= big)%nat ->
  decodeYencBuffer body big = Ok out ->
  decodeYencBuffer body small = Ok (take small out)
  /\ (length out <= big)%nat
  /\ length (take small out) = Nat.min small (length out).
Proof.
  intros Hle. rewrite !YencFacts.decode_refines.
  destruct (spec_payload body) as [|x e]; [discriminate|].
  intros [= <-]. rewrite take_take, Nat.min_l by exact Hle.
  split; [reflexivity|]. rewrite !length_take. lia.
Qed.

Lemma decode_cap_prefix_witness :
  decodeYencBuffer sample_article 2 = Ok (take 2 [72; 214; 19; 0]).
Proof.
  apply (decode_cap_prefix sample_article 2 16 [72; 214; 19; 0]).
  - lia.
  - vm_compute. reflexivity.
Defined.

Lemma spec_line_bytes (src : list Z) : Forall (fun b => 0 <= b < 256) (spec_line src).
Proof.
  remember (length src) as k eqn:Hk. revert src Hk.
  induction k as [k IH] using lt_wf_ind. intros src Hk.
  destruct src as [|c rest]; [constructor|]. cbn [spec_line].
  destruct (c =? 0x3D).
  - destruct rest as [|n rest']; [constructor|].
    constructor; [apply Z.mod_pos_bound; lia|].
    apply (IH (length rest')); [cbn in Hk; lia | reflexivity].
  - constructor; [apply Z.mod_pos_bound; lia|].
    apply (IH (length rest)); [cbn in Hk; lia | reflexivity].
Qed.

(** Whatever numbers the body holds, every byte handed back is in
    [0..255]. *)
Theorem decode_output_bytes (body : Buffer) (maxBytes : nat) (out : Buffer) :
  decodeYencBuffer body maxBytes = Ok out ->
  Forall (fun b => 0 <= b < 256) out.
Proof.
  rewrite YencFacts.decode_refines.
  destruct (spec_payload body) as [|x e] eqn:Hp; [discriminate|].
  intros [= <-]. apply Forall_take. rewrite <- Hp. unfold spec_payload.
  apply Forall_concat, Forall_forall. intros l Hl.
  apply list_elem_of_fmap in Hl as (line & -> & _). apply spec_line_bytes.
Qed.

Lemma decode_output_bytes_witness :
  Forall (fun b => 0 <= b < 256) [72; 214; 19; 0].
Proof.
  apply (decode_output_bytes sample_article 16). vm_compute. reflexivity.
Defined.

End YencProps.

(** ** Archive inspector: edge behaviour *)

Module InspectorProps.
Import Buf Inspector.

Lemma starts_with_length (p l : list Z) :
  starts_with p l = true -> (length p <= length l)%nat.
Proof.
  revert l. induction p as [|x p IH]; intros l H; [cbn; lia|].
  destruct l as [|y l]; [discriminate|].
  cbn in H. apply andb_prop in H as [_ H]. cbn. apply IH in H. lia.
Qed.

Lemma starts_with_short (p l : list Z) :
  (length l < length p)%nat -> starts_with p l = false.
Proof.
  intros Hlt. destruct (starts_with p l) eqn:H; [|reflexivity].
  apply starts_with_length in H. lia.
Qed.

(** A buffer of fewer than 6 bytes, the empty one included, holds no header
    the inspector knows. *)
Theorem inspect_short_buffer (buffer : Buffer) :
  (length buffer < 6)%nat ->
  inspectArchiveBuffer buffer = only rar_header_not_found.
Proof.
  intros Hlen. unfold inspectArchiveBuffer.
  rewrite !starts_with_short by (cbn; lia).
  destruct (Nat.leb_spec 6 (length buffer)); [lia | reflexivity].
Qed.

Lemma inspect_short_buffer_witness :
  inspectArchiveBuffer [0x52; 0x61; 0x72; 0x21; 0x1A] = only rar_header_not_found.
Proof. apply inspect_short_buffer. cbn. lia. Defined.

Lemma starts_with_head (p l : list Z) (x y : Z) :
  get l 0 = Some y -> x <> y -> starts_with (x :: p) l = false.
Proof.
  destruct l as [|z l]; [discriminate|]. cbn. intros [= ->] Hne.
  destruct (Z.eqb_spec x y); [contradiction | reflexivity].
Qed.

(** A buffer of at least 6 bytes that begins with [37 7A] is judged on its
    length and on the byte at offset 6 alone. *)
Theorem inspect_seven_zip (buffer : Buffer) :
  (6 <= length buffer)%nat ->
  get buffer 0 = Some 0x37 ->
  get buffer 1 = Some 0x7A ->
  status (inspectArchiveBuffer buffer)
  = if (length buffer <? 32)%nat then sevenzip_insufficient_data
    else if bool_decide (get buffer 6 = Some 0) then sevenzip_stored
    else sevenzip_unsupported.
Proof.
  intros Hlen H0 H1. unfold inspectArchiveBuffer, RAR4_SIGNATURE, RAR5_SIGNATURE.
  rewrite !(starts_with_head _ buffer _ 0x37) by (assumption || lia).
  destruct (Nat.leb_spec 6 (length buffer)); [|lia].
  rewrite !bool_decide_eq_true_2 by assumption. cbn [andb].
  unfold inspectSevenZip.
  destruct (length buffer <? 32)%nat; [reflexivity|].
  destruct (bool_decide (get buffer 6 = Some 0)); reflexivity.
Qed.

Lemma inspect_seven_zip_witness :
  status (inspectArchiveBuffer ([0x37; 0x7A; 0xBC; 0xAF; 0x27; 0x1C; 0] ++ replicate 25 0))
  = sevenzip_stored.
Proof.
  apply (inspect_seven_zip ([0x37; 0x7A; 0xBC; 0xAF; 0x27; 0x1C; 0] ++ replicate 25 0)).
  - cbn. lia.
  - reflexivity.
  - reflexivity.
Defined.

(** In a RAR4 buffer, a block header at a scanned offset that gives itself
    fewer than 7 bytes is a corrupt header, and one that reaches past the
    end of the buffer is insufficient data, whatever its type. *)
Theorem inspect_rar4_bad_block (buffer : Buffer) (offset : nat) :
  starts_with RAR4_SIGNATURE buffer = true ->
  Scanned buffer offset ->
  (offset + 7 <= length buffer)%nat ->
  ((Z.to_nat (readUInt16LE buffer (offset + 5)) < 7)%nat ->
   inspectArchiveBuffer buffer = only rar_corrupt_header)
  /\ ((7 <= Z.to_nat (readUInt16LE buffer (offset + 5)))%nat ->
      (length buffer < offset + Z.to_nat (readUInt16LE buffer (offset + 5)))%nat ->
      inspectArchiveBuffer buffer = only rar_insufficient_data).
Proof.
  intros H4 Hsc H7. unfold inspectArchiveBuffer. rewrite H4.
  pose proof (InspectorFacts.scanned_result buffer offset Hsc (S (length buffer))
                ltac:(lia)) as Hres.
  cbn [inspectRar4_loop] in Hres.
  destruct (Nat.ltb_spec (length buffer) (offset + 7)); [lia|].
  split.
  - intros Hsmall.
    destruct (Nat.ltb_spec (Z.to_nat (readUInt16LE buffer (offset + 5))) 7); [|lia].
    injection Hres as <-. reflexivity.
  - intros Hbig Hpast.
    destruct (Nat.ltb_spec (Z.to_nat (readUInt16LE buffer (offset + 5))) 7); [lia|].
    destruct (Nat.ltb_spec (length buffer)
                (offset + Z.to_nat (readUInt16LE buffer (offset + 5)))); [|lia].
    injection Hres as <-. reflexivity.
Qed.

Lemma inspect_rar4_bad_block_witness :
  inspectArchiveBuffer (RAR4_SIGNATURE ++ [0; 0; 0x74; 0; 0; 3; 0])
  = only rar_corrupt_header
  /\ inspectArchiveBuffer (RAR4_SIGNATURE ++ [0; 0; 0x73; 0; 0; 13; 0])
     = only rar_insufficient_data.
Proof.
  split.
  - apply (inspect_rar4_bad_block (RAR4_SIGNATURE ++ [0; 0; 0x74; 0; 0; 3; 0]) 7).
    + reflexivity.
    + apply scanned_first.
    + cbn. lia.
    + vm_compute. lia.
  - apply (inspect_rar4_bad_block (RAR4_SIGNATURE ++ [0; 0; 0x73; 0; 0; 13; 0]) 7).
    + reflexivity.
    + apply scanned_first.
    + cbn. lia.
    + vm_compute. lia.
    + vm_compute. lia.
Defined.

(** Membership in a list that is written out. *)
Ltac in_list := solve [repeat (apply elem_of_cons; first [left; reflexivity | right])].
Ltac in_list_from H :=
  repeat (apply elem_of_cons in H; destruct H as [H|H]; [rewrite H; in_list|]);
  inversion H.

(** The statuses an inspection can end with. *)
Lemma file_header_status (buffer : Buffer) (offset : nat) (flags : Z) :
  status (inspect_file_header buffer offset flags)
  ∈ [rar_insufficient_data; rar_encrypted; rar_solid; rar_compressed; rar_stored].
Proof.
  unfold inspect_file_header.
  repeat match goal with
         | |- context [if ?b then _ else _] => destruct b
         end; cbn [status only]; in_list.
Qed.

Lemma rar4_loop_status (buffer : Buffer) (fuel : nat) :
  forall offset r,
    inspectRar4_loop fuel buffer offset = Some r ->
    status r ∈ [rar_header_not_found; rar_corrupt_header; rar_insufficient_data;
                rar_encrypted; rar_solid; rar_compressed; rar_stored].
Proof.
  induction fuel as [|fuel IH]; intros offset r; [discriminate|].
  cbn [inspectRar4_loop].
  destruct (_ <? _)%nat; [intros [= <-]; cbn; in_list|].
  destruct (_ <? _)%nat; [intros [= <-]; cbn; in_list|].
  destruct (_ <? _)%nat; [intros [= <-]; cbn; in_list|].
  destruct (bool_decide _); [|apply IH].
  intros [= <-].
  pose proof (file_header_status buffer offset (readUInt16LE buffer (offset + 3))) as H.
  in_list_from H.
Qed.

Lemma inspect_status_in (buffer : Buffer) :
  status (inspectArchiveBuffer buffer)
  ∈ [rar_stored; sevenzip_stored; rar_compressed; rar_encrypted; rar_solid;
     sevenzip_unsupported; rar_header_not_found; rar_insufficient_data;
     rar_corrupt_header; sevenzip_insufficient_data].
Proof.
  unfold inspectArchiveBuffer.
  destruct (starts_with RAR4_SIGNATURE buffer).
  - pose proof (rar4_loop_status buffer (S (length buffer)) _ _
                  (InspectorFacts.inspectRar4_total buffer)) as H.
    in_list_from H.
  - destruct (starts_with RAR5_SIGNATURE buffer); [cbn; in_list|].
    destruct (_ && _ && _); [|cbn; in_list].
    unfold inspectSevenZip.
    destruct (_ <? _)%nat; [cbn; in_list|].
    destruct (bool_decide _); cbn; in_list.
Qed.

(** Whatever the buffer, the inspector answers with one of ten statuses; in
    particular never with [rar5-unsupported], for which the analyzer has a
    blocker. *)
Theorem inspect_status_range (buffer : Buffer) :
  status (inspectArchiveBuffer buffer)
  ∈ [rar_stored; sevenzip_stored; rar_compressed; rar_encrypted; rar_solid;
     sevenzip_unsupported; rar_header_not_found; rar_insufficient_data;
     rar_corrupt_header; sevenzip_insufficient_data]
  /\ status (inspectArchiveBuffer buffer) <> rar5_unsupported.
Proof.
  pose proof (inspect_status_in buffer) as H.
  split; [exact H|].
  intros Heq. rewrite Heq in H.
  repeat (apply elem_of_cons in H; destruct H as [H|H]; [discriminate H|]).
  inversion H.
Qed.

End InspectorProps.

(** ** Canonical archive key: what it identifies *)

Module ArchiveKeyProps.
Import Str ArchiveKey.

Lemma string_of_list_ascii_nil (l : list ascii) :
  string_of_list_ascii l = EmptyString -> l = [].
Proof. destruct l; [reflexivity | discriminate]. Qed.

Lemma lower_chars_idem (l : list ascii) : lower_chars (lower_chars l) = lower_chars l.
Proof. apply ArchiveKeyFacts.lowered_lower_chars. Qed.

(** The key does not see the case of the name: a name and its lower-case
    form have the same key. *)
Theorem canonicalArchiveKey_ignores_case (name : string) :
  canonicalArchiveKey (toLowerCase name) = canonicalArchiveKey name.
Proof.
  unfold canonicalArchiveKey, toLowerCase.
  destruct (bool_decide_reflect (name = EmptyString)) as [->|Hne]; [reflexivity|].
  rewrite bool_decide_eq_false_2.
  - rewrite list_ascii_of_string_of_list_ascii. unfold key_chars.
    rewrite lower_chars_idem. reflexivity.
  - intros H. apply string_of_list_ascii_nil in H.
    destruct name as [|c name]; [congruence | discriminate H].
Qed.











End ArchiveKeyProps.

(** ** Analyzer: the helpers *)

Module AnalyzerProps.
Import Buf Str Inspector Analyzer AnalyzerTerms.

(** *** Sets in insertion order *)

Lemma set_add_elem_of (x y : string) (s : list string) :
  y ∈ set_add x s <-> y = x \/ y ∈ s.
Proof.
  unfold set_add. destruct (bool_decide_reflect (x ∈ s)) as [Hin|Hin].
  - split; [right; assumption | intros [->|H]; assumption].
  - rewrite elem_of_app, list_elem_of_singleton. tauto.
Qed.

Lemma set_add_NoDup (x : string) (s : list string) : NoDup s -> NoDup (set_add x s).
Proof.
  intros Hnd. unfold set_add. destruct (bool_decide_reflect (x ∈ s)) as [Hin|Hin];
    [assumption|].
  apply NoDup_app. repeat split; [assumption | | apply NoDup_singleton].
  intros y Hy Hx. apply list_elem_of_singleton in Hx. subst. tauto.
Qed.

Lemma set_add_fresh (x : string) (s : list string) : x ∉ s -> set_add x s = s ++ [x].
Proof. intros H. unfold set_add. rewrite bool_decide_eq_false_2 by exact H. reflexivity. Qed.

(** *** [dedupeArchiveCandidates] *)

Lemma dedupe_from_spec (archives : list File) :
  forall seen,
    dedupe_from seen archives `sublist_of` archives
    /\ NoDup (archive_key <$> dedupe_from seen archives)
    /\ (forall a, a ∈ dedupe_from seen archives ->
                  exists k, archive_key a = Some k /\ k ∉ seen)
    /\ (forall a k, a ∈ archives -> archive_key a = Some k ->
                    k ∈ seen \/ Some k ∈ archive_key <$> dedupe_from seen archives).
Proof.
  induction archives as [|a archives IH]; intros seen.
  - cbn. split; [constructor|]. split; [constructor|].
    split; [intros ? H; inversion H | intros ? ? H; inversion H].
  - cbn [dedupe_from]. fold (archive_key a).
    destruct (archive_key a) as [key|] eqn:Hkey.
    + unfold set_has. destruct (bool_decide_reflect (key ∈ seen)) as [Hin|Hin].
      * destruct (IH seen) as (Hsub & Hnd & Hfresh & Hall).
        repeat split; [apply sublist_cons, Hsub | exact Hnd | exact Hfresh |].
        intros b k Hb Hk. apply elem_of_cons in Hb as [->|Hb]; [|eauto].
        left. congruence.
      * destruct (IH (set_add key seen)) as (Hsub & Hnd & Hfresh & Hall).
        repeat split.
        -- apply sublist_skip, Hsub.
        -- rewrite fmap_cons, Hkey. apply NoDup_cons. split; [|exact Hnd].
           intros Hk. apply list_elem_of_fmap in Hk as (b & Hbk & Hb).
           destruct (Hfresh b Hb) as (k & Hk & Hnot). apply Hnot.
           apply set_add_elem_of. left. congruence.
        -- intros b Hb. apply elem_of_cons in Hb as [->|Hb]; [eauto|].
           destruct (Hfresh b Hb) as (k & Hk & Hnot). exists k. split; [exact Hk|].
           intros Hs. apply Hnot, set_add_elem_of. right. exact Hs.
        -- intros b k Hb Hk. rewrite fmap_cons, Hkey.
           apply elem_of_cons in Hb as [->|Hb].
           ++ right. replace k with key by congruence. left.
           ++ destruct (Hall b k Hb Hk) as [Hs|Hs].
              ** apply set_add_elem_of in Hs as [->|Hs]; [right; left | left; exact Hs].
              ** right. right. exact Hs.
    + destruct (IH seen) as (Hsub & Hnd & Hfresh & Hall).
      repeat split; [apply sublist_cons, Hsub | exact Hnd | exact Hfresh |].
      intros b k Hb Hk. apply elem_of_cons in Hb as [->|Hb]; [congruence | eauto].
Qed.

(** [dedupeArchiveCandidates] keeps archives of the input, in their order;
    the kept archives have pairwise different keys; and every archive of
    the input that has a key has its key among those of the kept ones. *)
Theorem dedupeArchiveCandidates_keys (archives : list File) :
  dedupeArchiveCandidates archives `sublist_of` archives
  /\ NoDup (archive_key <$> dedupeArchiveCandidates archives)
  /\ (forall a, a ∈ dedupeArchiveCandidates archives -> is_Some (archive_key a))
  /\ (forall a k, a ∈ archives -> archive_key a = Some k ->
                  Some k ∈ archive_key <$> dedupeArchiveCandidates archives).
Proof.
  unfold dedupeArchiveCandidates.
  destruct (dedupe_from_spec archives []) as (Hsub & Hnd & Hfresh & Hall).
  repeat split; [exact Hsub | exact Hnd | |].
  - intros a Ha. destruct (Hfresh a Ha) as (k & -> & _). eexists. reflexivity.
  - intros a k Ha Hk. destruct (Hall a k Ha Hk) as [H|H]; [inversion H | exact H].
Qed.

Lemma dedupeArchiveCandidates_keys_witness :
  Some "a.rar"%string
  ∈ archive_key <$> dedupeArchiveCandidates
      [ {| subject := "1"; filename := Some "A.part01.rar"%string; segments := [] |};
        {| subject := "2"; filename := Some "a.part02.rar"%string; segments := [] |} ].
Proof.
  eapply (proj2 (proj2 (proj2 (dedupeArchiveCandidates_keys _)))).
  - right. left.
  - vm_compute. reflexivity.
Defined.

(** *** [getExtension] *)

Lemma from_last_dot_spec (l : list ascii) :
  match from_last_dot l with
  | Some e => exists pre rest, l = pre ++ "."%char :: rest
                               /\ e = "."%char :: rest /\ ("."%char ∉ rest)
  | None => "."%char ∉ l
  end.
Proof.
  induction l as [|c l IH]; cbn [from_last_dot]; [intros H; inversion H|].
  destruct (from_last_dot l) as [e|].
  - destruct IH as (pre & rest & -> & -> & Hno).
    exists (c :: pre), rest. repeat split; assumption.
  - destruct (Ascii.eqb_spec c "."%char) as [->|Hne].
    + exists [], l. repeat split; assumption.
    + intros H. apply elem_of_cons in H as [H|H]; [congruence | tauto].
Qed.

(** The extension is the text from the last dot of the file name on, in
    lower case; a name without a dot, and a name that is missing or empty,
    has none. *)
Theorem getExtension_last_dot (f : string) :
  match getExtension (Some f) with
  | Some e => exists pre rest,
      list_ascii_of_string f = pre ++ "."%char :: rest
      /\ ("."%char ∉ rest)
      /\ e = string_of_list_ascii ("."%char :: lower_chars rest)
  | None => "."%char ∉ list_ascii_of_string f
  end
  /\ getExtension None = None.
Proof.
  split; [|reflexivity]. unfold getExtension.
  destruct (bool_decide_reflect (f = EmptyString)) as [->|_];
    [intros H; inversion H|].
  pose proof (from_last_dot_spec (list_ascii_of_string f)) as H.
  destruct (from_last_dot (list_ascii_of_string f)) as [e|]; [|exact H].
  destruct H as (pre & rest & Hf & -> & Hno).
  exists pre, rest. repeat split; assumption.
Qed.

(** *** [collectUniqueSegments] *)

Lemma collect_segments_spec (file : File) (segs : list Segment) :
  forall seen,
    let r := collect_segments seen file segs in
    r.2 = seen ++ (snd <$> r.1)
    /\ (NoDup seen -> NoDup r.2)
    /\ Forall (fun p => p.1 = file /\ p.2 <> EmptyString
                        /\ p.2 ∈ seg_id <$> segs) r.1
    /\ (forall seg, seg ∈ segs -> seg_id seg <> EmptyString -> seg_id seg ∈ r.2).
Proof.
  induction segs as [|seg segs IH]; intros seen; cbn zeta.
  - cbn. rewrite app_nil_r. repeat split; [auto | constructor |].
    intros ? H. inversion H.
  - cbn [collect_segments]. unfold set_has.
    destruct (bool_decide_reflect (seg_id seg = EmptyString)) as [Hempty|Hfull];
      cbn [orb].
    + destruct (IH seen) as (Hseen & Hnd & Hall & Hcov).
      repeat split; [exact Hseen | exact Hnd | |].
      * eapply Forall_impl; [exact Hall|]. intros p (? & ? & Hin).
        repeat split; [assumption .. |]. rewrite fmap_cons. right. exact Hin.
      * intros s Hs Hid. apply elem_of_cons in Hs as [->|Hs]; [contradiction|].
        apply Hcov; assumption.
    + destruct (bool_decide_reflect (seg_id seg ∈ seen)) as [Hin|Hin].
      * destruct (IH seen) as (Hseen & Hnd & Hall & Hcov).
        repeat split; [exact Hseen | exact Hnd | |].
        -- eapply Forall_impl; [exact Hall|]. intros p (? & ? & Hp).
           repeat split; [assumption .. |]. rewrite fmap_cons. right. exact Hp.
        -- intros s Hs Hid. apply elem_of_cons in Hs as [->|Hs].
           ++ rewrite Hseen. apply elem_of_app. left. exact Hin.
           ++ apply Hcov; assumption.
      * destruct (IH (set_add (seg_id seg) seen)) as (Hseen & Hnd & Hall & Hcov).
        destruct (collect_segments (set_add (seg_id seg) seen) file segs)
          as [u seen'] eqn:Hrec.
        cbn [fst snd] in *. rewrite set_add_fresh in Hseen by exact Hin.
        repeat split.
        -- rewrite Hseen, fmap_cons, <- app_assoc. reflexivity.
        -- intros Hs. apply Hnd, set_add_NoDup, Hs.
        -- constructor.
           ++ repeat split; [exact Hfull | rewrite fmap_cons; left].
           ++ eapply Forall_impl; [exact Hall|]. intros p (? & ? & Hp).
              repeat split; [assumption .. |]. rewrite fmap_cons. right. exact Hp.
        -- intros s Hs Hid. apply elem_of_cons in Hs as [->|Hs].
           ++ rewrite Hseen, <- app_assoc. apply elem_of_app. right. left.
           ++ apply Hcov; assumption.
Qed.

Lemma collect_files_spec (files : list File) :
  forall seen,
    NoDup seen ->
    NoDup (seen ++ (snd <$> collect_files seen files))
    /\ Forall (fun p => p.1 ∈ files /\ p.2 <> EmptyString
                        /\ p.2 ∈ seg_id <$> segments p.1) (collect_files seen files)
    /\ (forall file seg, file ∈ files -> seg ∈ segments file ->
                         seg_id seg <> EmptyString ->
                         seg_id seg ∈ seen ++ (snd <$> collect_files seen files)).
Proof.
  induction files as [|file files IH]; intros seen Hnd.
  - cbn. rewrite app_nil_r. repeat split; [exact Hnd | constructor |].
    intros ? ? H. inversion H.
  - cbn [collect_files].
    pose proof (collect_segments_spec file (segments file) seen) as Hseg.
    cbn zeta in Hseg.
    destruct (collect_segments seen file (segments file)) as [u seen'].
    cbn [fst snd] in Hseg. destruct Hseg as (Hseen & Hnd' & Hall & Hcov).
    destruct (IH seen' (Hnd' Hnd)) as (Hnd'' & Hall' & Hcov').
    rewrite fmap_app, app_assoc, <- Hseen.
    repeat split; [exact Hnd'' | |].
    + apply Forall_app. split.
      * eapply Forall_impl; [exact Hall|]. intros p (-> & ? & ?).
        repeat split; [left | assumption ..].
      * eapply Forall_impl; [exact Hall'|]. intros p (? & ? & ?).
        repeat split; [right; assumption | assumption ..].
    + intros f seg Hf Hs Hid. apply elem_of_cons in Hf as [->|Hf].
      * apply elem_of_app. left. apply Hcov; assumption.
      * eapply Hcov'; eassumption.
Qed.

Lemma collect_unique_NoDup (files : list File) :
  NoDup (snd <$> collectUniqueSegments files).
Proof.
  unfold collectUniqueSegments.
  destruct (collect_files_spec files [] (NoDup_nil_2)) as (Hnd & _). exact Hnd.
Qed.

(** [collectUniqueSegments] lists every segment id of the files that is not
    empty, once, each with a file that holds it. *)
Theorem collectUniqueSegments_ids (files : list File) :
  NoDup (snd <$> collectUniqueSegments files)
  /\ Forall (fun p => p.1 ∈ files /\ p.2 <> EmptyString
                      /\ p.2 ∈ seg_id <$> segments p.1)
            (collectUniqueSegments files)
  /\ (forall file seg, file ∈ files -> seg ∈ segments file ->
                       seg_id seg <> EmptyString ->
                       seg_id seg ∈ snd <$> collectUniqueSegments files).
Proof.
  unfold collectUniqueSegments.
  destruct (collect_files_spec files [] (NoDup_nil_2)) as (Hnd & Hall & Hcov).
  repeat split; [exact Hnd | exact Hall | exact Hcov].
Qed.

Lemma collectUniqueSegments_ids_witness :
  "s1"%string ∈ snd <$> collectUniqueSegments (files sample_nzb_two).
Proof.
  apply (proj2 (proj2 (collectUniqueSegments_ids (files sample_nzb_two)))
           sample_archive_a (sample_segment "s1")).
  - left.
  - right. left.
  - discriminate.
Defined.

(** *** [pickRandomElements] *)

(** Whatever the random source gives, the pick holds [min(maxCount, n)] of
    the [n] items, and it is the head of a rearrangement of the items: no
    item is picked more often than it is there. *)
Theorem pickRandomElements_sample {A} (items : list A) (maxCount : nat)
    (rnd : nat -> nat) (k : nat) :
  length (pickRandomElements items maxCount rnd k).1
  = Nat.min maxCount (length items)
  /\ exists shuffled,
       shuffled ≡ₚ items
       /\ (pickRandomElements items maxCount rnd k).1
          = take (Nat.min maxCount (length items)) shuffled.
Proof.
  split.
  - apply AnalyzerFacts.pickRandomElements_length.
  - apply AnalyzerFacts.pickRandomElements_spec.
Qed.

End AnalyzerProps.

(** ** Analyzer: the analysis as a whole *)

Module AnalysisProps.
Import Buf Str Inspector Analyzer AnalyzerTerms.

Ltac in_list := solve [repeat (apply elem_of_cons; first [left; reflexivity | right])].

(** *** What each step leaves alone *)

Lemma handleArchiveStatus_view (status : Status) (st : St) :
  pool_view (handleArchiveStatus status st).2 = pool_view st.
Proof. destruct status; reflexivity. Qed.

Lemma handleArchiveStatus_warnings (status : Status) (st : St) (w : string) :
  w ∈ st_warnings st -> w ∈ st_warnings (handleArchiveStatus status st).2.
Proof.
  intros Hw. destruct status; cbn; try exact Hw;
    apply AnalyzerProps.set_add_elem_of; right; exact Hw.
Qed.

Lemma local_check_view (ctx : Ctx) (env : Env) (archives : list File) :
  forall stored st,
    pool_view (local_check ctx env archives stored st).2 = pool_view st.
Proof.
  induction archives as [|a archives IH]; intros stored st; [reflexivity|].
  cbn [local_check].
  destruct (handleArchiveStatus _ _) as [hit st'] eqn:Hh.
  rewrite IH. change st' with (hit, st').2. rewrite <- Hh.
  rewrite handleArchiveStatus_view. reflexivity.
Qed.

Lemma nntp_unavailable_spec (ctx : Ctx) (st : St) :
  pool_view (nntp_unavailable ctx st) = pool_view st
  /\ nntp_warning ctx ∈ st_warnings (nntp_unavailable ctx st)
  /\ st_blockers (nntp_unavailable ctx st) = st_blockers st.
Proof.
  unfold nntp_unavailable, nntp_warning.
  destruct (nntpError ctx) as [e|]; cbn;
    (split; [reflexivity|]); (split; [|reflexivity]);
    apply AnalyzerProps.set_add_elem_of; left; reflexivity.
Qed.

(** Without a pool the analysis of a parsed NZB never throws, asks the pool
    for nothing, and carries the warning that says why. *)
Theorem analysis_without_pool (parsed : Parsed) (ctx : Ctx) (env : Env) :
  nntpPool ctx = false ->
  exists st,
    analyze_state (Ok parsed) ctx env = Ok (parsed, st)
    /\ statLog st = []
    /\ calls st = 0%nat
    /\ nntp_warning ctx ∈ st_warnings st.
Proof.
  intros Hpool. unfold analyze_state.
  destruct (dedupeArchiveCandidates _) as [|a archives] eqn:Hcands.
  - eexists. split; [reflexivity|]. unfold no_archive_branch. rewrite Hpool. cbn [negb].
    destruct (nntp_unavailable_spec ctx (add_warning "no-archive-candidates" st_init))
      as (Hview & Hw & _).
    injection Hview as Hlog Hcalls _. repeat split; assumption.
  - set (local := match archiveDirs (config ctx) with
                  | [] => (false, st_init)
                  | _ :: _ => local_check ctx env (a :: archives) false st_init
                  end).
    assert (Hlocal : pool_view local.2 = pool_view st_init).
    { unfold local. destruct (archiveDirs (config ctx)); [reflexivity|].
      apply local_check_view. }
    destruct local as [stored st]. cbn [snd] in Hlocal.
    unfold remote_check. rewrite Hpool. cbn [negb].
    unfold extra_sampling. rewrite Hpool. cbn [andb].
    destruct (nntp_unavailable_spec ctx st) as (Hview & Hw & _).
    rewrite Hlocal in Hview. injection Hview as Hlog Hcalls _.
    eexists. split; [reflexivity|].
    destruct (negb stored && _); cbn; repeat split; try assumption.
    apply AnalyzerProps.set_add_elem_of. right. exact Hw.
Qed.

Lemma analysis_without_pool_witness :
  exists st,
    analyze_state (Ok sample_nzb_two)
      {| config := config (sample_ctx None None); nntpPool := false;
         nntpError := None; ctx_nzbIndex := 0 |} sample_env
    = Ok (sample_nzb_two, st)
    /\ statLog st = []
    /\ "nntp-disabled"%string ∈ st_warnings st.
Proof.
  destruct (analysis_without_pool sample_nzb_two
              {| config := config (sample_ctx None None); nntpPool := false;
                 nntpError := None; ctx_nzbIndex := 0 |} sample_env eq_refl)
    as (st & Hrun & Hlog & _ & Hw).
  exists st. repeat split; assumption.
Defined.

(** *** The blockers *)

Lemma add_blocker_ok (b : string) (st : St) :
  b ∈ ANALYSIS_BLOCKERS -> blockers_ok st -> blockers_ok (add_blocker b st).
Proof.
  unfold blockers_ok. intros Hb Hst. cbn. apply Forall_forall. intros x Hx.
  apply AnalyzerProps.set_add_elem_of in Hx as [->|Hx]; [exact Hb|].
  exact (proj1 (Forall_forall _ _) Hst x Hx).
Qed.

Lemma handleArchiveStatus_ok (status : Status) (st : St) :
  status ∈ CHECK_STATUSES -> blockers_ok st ->
  blockers_ok (handleArchiveStatus status st).2.
Proof.
  intros Hs Hst. destruct status; cbn; try exact Hst;
    try (apply add_blocker_ok; [in_list | exact Hst]).
  exfalso. unfold CHECK_STATUSES in Hs.
  repeat (apply elem_of_cons in Hs; destruct Hs as [Hs|Hs]; [discriminate Hs|]).
  inversion Hs.
Qed.

Lemma inspector_status_checked (buffer : Buffer) :
  status (inspectArchiveBuffer buffer) ∈ CHECK_STATUSES.
Proof.
  pose proof (InspectorProps.inspect_status_in buffer) as H.
  repeat (apply elem_of_cons in H; destruct H as [H|H]; [rewrite H; in_list|]).
  inversion H.
Qed.

Lemma try_names_status (fs : string -> FsEntry) (dir : string) (names : list string)
    (r : LocalResult) :
  try_names fs dir names = Some r -> l_status r ∈ CHECK_STATUSES.
Proof.
  induction names as [|n names IH]; [discriminate|]. cbn [try_names].
  destruct (fs _); [| exact IH | exact IH |]; intros [= <-]; cbn [l_status].
  - apply inspector_status_checked.
  - in_list.
Qed.

Lemma inspectLocalArchive_status (file : File) (dirs : list string)
    (fs : string -> FsEntry) :
  l_status (inspectLocalArchive file dirs fs) ∈ CHECK_STATUSES.
Proof.
  unfold inspectLocalArchive. destruct (filename file) as [name|]; [|cbn; in_list].
  induction dirs as [|dir dirs IH]; [cbn; in_list|]. cbn [try_dirs].
  destruct (try_names fs dir _) as [r|] eqn:Hr; [|exact IH].
  eapply try_names_status, Hr.
Qed.

Lemma local_check_ok (ctx : Ctx) (env : Env) (archives : list File) :
  forall stored st, blockers_ok st -> blockers_ok (local_check ctx env archives stored st).2.
Proof.
  induction archives as [|a archives IH]; intros stored st Hst; [exact Hst|].
  cbn [local_check].
  destruct (handleArchiveStatus _ _) as [hit st'] eqn:Hh.
  apply IH. change st' with (hit, st').2. rewrite <- Hh.
  apply handleArchiveStatus_ok; [apply inspectLocalArchive_status | exact Hst].
Qed.

Lemma inspectArchiveViaNntp_spec (file : File) (ctx : Ctx) (env : Env) (st : St)
    (r : NntpResult) (st' : St) :
  inspectArchiveViaNntp file ctx env st = (Ok r, st') ->
  n_status r ∈ CHECK_STATUSES
  /\ st_blockers st' = st_blockers st
  /\ match n_segmentId r with
     | Some id => statLog st' = statLog st ++ [id]
                  /\ checkedSegments st' = checkedSegments st
     | None => st' = st
     end.
Proof.
  unfold inspectArchiveViaNntp.
  destruct (segments file) as [|first rest];
    [intros [= <- <-]; cbn; repeat split; in_list|].
  destruct (bool_decide (seg_id first = EmptyString));
    [intros [= <- <-]; cbn; repeat split; in_list|].
  destruct (acquire env (calls st)); [|discriminate].
  destruct (stat env (calls st) (seg_id first)) as [[]|err].
  - destruct (body env (seg_id first)) as [bodyBuffer|err].
    + destruct (Yenc.decodeYencBuffer bodyBuffer _) as [decoded|[]];
        intros [= <- <-]; cbn; repeat split; try in_list.
      apply inspector_status_checked.
    + repeat match goal with
             | |- context [if ?b then _ else _] => destruct b
             end; intros [= <- <-]; cbn; repeat split; in_list.
  - destruct (is_stat_missing err); intros [= <- <-]; cbn; repeat split; in_list.
Qed.

Lemma record_stat_ok (who : File) (id : string) (r : Result JsError unit) (st : St) :
  blockers_ok st -> blockers_ok (record_stat who id r st).
Proof.
  intros Hst. unfold record_stat. destruct r as [[]|err]; [exact Hst|].
  destruct (is_stat_missing err); [|exact Hst].
  apply (add_blocker_ok "missing-articles"); [in_list | exact Hst].
Qed.

Lemma runStatCheck_ok (env : Env) (a : File) (s : Segment) (st : St) :
  blockers_ok st -> blockers_ok (runStatCheck env a s st).
Proof.
  intros Hst. unfold runStatCheck.
  destruct (_ || _); [exact Hst|]. unfold statSegment.
  apply record_stat_ok. exact Hst.
Qed.

Lemma stat_each_ok (env : Env) (a : File) (samples : list Segment) :
  forall st, blockers_ok st -> blockers_ok (stat_each env a samples st).
Proof.
  induction samples as [|s samples IH]; intros st Hst; [exact Hst|].
  cbn [stat_each]. apply IH, runStatCheck_ok, Hst.
Qed.

Lemma stat_archives_ok (env : Env) (sample : list (nat * File)) :
  forall st, blockers_ok st -> blockers_ok (stat_archives env sample st).
Proof.
  induction sample as [|[i a] sample IH]; intros st Hst; [exact Hst|].
  cbn [stat_archives]. destruct (first_unchecked st a); [|apply IH, Hst].
  apply IH, runStatCheck_ok, Hst.
Qed.

Lemma stat_samples_ok (env : Env) (samples : list (File * string)) :
  forall st, blockers_ok st -> blockers_ok (stat_samples env samples st).
Proof.
  induction samples as [|[f id] samples IH]; intros st Hst; [exact Hst|].
  cbn [stat_samples]. unfold statSegment. apply IH, record_stat_ok, Hst.
Qed.

Lemma extra_sampling_ok (ctx : Ctx) (env : Env) (cands : list File)
    (primary : option (nat * File)) (stored : bool) (st : St) :
  blockers_ok st -> blockers_ok (extra_sampling ctx env cands primary stored st).
Proof.
  intros Hst. unfold extra_sampling. destruct (_ && _ && _); [|exact Hst].
  unfold extra_others. destruct (pickRandomElements _ _ _ _) as [sample k].
  apply stat_archives_ok. unfold extra_primary.
  destruct primary as [[i p]|]; [|exact Hst].
  destruct (_ && _); [|exact Hst].
  destruct (pickRandomElements _ _ _ _) as [samples k'].
  apply stat_each_ok. exact Hst.
Qed.

Lemma remote_check_ok (ctx : Ctx) (env : Env) (cands : list File) (stored : bool)
    (st : St) primary stored' st' :
  remote_check ctx env cands stored st = Ok (primary, stored', st') ->
  blockers_ok st -> blockers_ok st'.
Proof.
  unfold remote_check. intros Hrun Hst.
  destruct (negb (nntpPool ctx)).
  { injection Hrun as _ _ <-. unfold blockers_ok.
    rewrite (proj2 (proj2 (nntp_unavailable_spec ctx st))). exact Hst. }
  destruct (list_find _ cands) as [[i a]|]; [|injection Hrun as _ _ <-; exact Hst].
  destruct (inspectArchiveViaNntp a ctx env st) as [[r|e] st1] eqn:Hins;
    [|discriminate].
  destruct (inspectArchiveViaNntp_spec _ _ _ _ _ _ Hins) as (Hstatus & Hb & _).
  destruct (handleArchiveStatus _ _) as [hit st2] eqn:Hh.
  injection Hrun as _ _ <-. change st2 with (hit, st2).2. rewrite <- Hh.
  apply handleArchiveStatus_ok; [exact Hstatus|].
  unfold blockers_ok.
  destruct (n_segmentId r); [destruct (n_status r)|]; cbn; rewrite Hb; exact Hst.
Qed.

Lemma analyze_state_ok (raw : Result JsError Parsed) (ctx : Ctx) (env : Env) parsed st :
  analyze_state raw ctx env = Ok (parsed, st) -> blockers_ok st.
Proof.
  unfold analyze_state. destruct raw as [p|e]; [|discriminate].
  assert (Hinit : blockers_ok st_init) by constructor.
  destruct (dedupeArchiveCandidates _) as [|a archives].
  - intros [= <- <-]. unfold no_archive_branch.
    destruct (negb (nntpPool ctx)).
    + unfold blockers_ok. rewrite (proj2 (proj2 (nntp_unavailable_spec ctx _))).
      exact Hinit.
    + destruct (collectUniqueSegments _); [exact Hinit|].
      destruct (pickRandomElements _ _ _ _) as [samples k].
      apply stat_samples_ok. exact Hinit.
  - set (local := match archiveDirs (config ctx) with
                  | [] => (false, st_init)
                  | _ :: _ => local_check ctx env (a :: archives) false st_init
                  end).
    assert (Hlocal : blockers_ok local.2).
    { unfold local. destruct (archiveDirs (config ctx)); [exact Hinit|].
      apply local_check_ok, Hinit. }
    destruct local as [stored st0]. cbn [snd] in Hlocal.
    destruct (remote_check ctx env (a :: archives) stored st0)
      as [[[primary stored'] st1]|e] eqn:Hremote; [|discriminate].
    intros [= <- <-].
    pose proof (remote_check_ok _ _ _ _ _ _ _ _ Hremote Hlocal) as H1.
    pose proof (extra_sampling_ok ctx env (a :: archives) primary stored' st1 H1) as H2.
    destruct (negb stored' && _); exact H2.
Qed.

(** The blockers of a decision are either the one blocker [analysis-error]
    of an analysis that threw, or drawn from five: [rar-compressed],
    [rar-encrypted], [rar-solid], [sevenzip-unsupported],
    [missing-articles]; [rar5-unsupported] never comes up. *)
Theorem decision_blockers_closed (raw : Result JsError Parsed) (ctx : Ctx) (env : Env) :
  blockers (analyze_at raw ctx env) = ["analysis-error"%string]
  \/ Forall (fun b => b ∈ ANALYSIS_BLOCKERS) (blockers (analyze_at raw ctx env)).
Proof.
  unfold analyze_at, analyzeSingleNzb.
  destruct (analyze_state raw ctx env) as [[parsed st]|e] eqn:Hrun.
  - right. exact (analyze_state_ok _ _ _ _ _ Hrun).
  - left. reflexivity.
Qed.

(** *** The STAT probes of one analysis *)

Lemma once_view (st1 st2 : St) : pool_view st1 = pool_view st2 -> once st1 -> once st2.
Proof. unfold pool_view, once. intros [= <- _ <-]. exact id. Qed.

Lemma unchecked_not_checked (st : St) (s : Segment) :
  unchecked st s = true -> seg_id s ∉ checkedSegments st.
Proof.
  unfold unchecked, set_has. intros [_ H]%andb_true_iff.
  apply negb_true_iff, bool_decide_eq_false in H. exact H.
Qed.

Lemma runStatCheck_once (env : Env) (a : File) (s : Segment) (st : St) :
  once st -> once (runStatCheck env a s st).
Proof.
  unfold once. intros [Hnd Hsub].
  destruct (AnalyzerFacts.runStatCheck_log env a s st) as [-> ->].
  destruct (unchecked st s) eqn:Hun; [|rewrite !app_nil_r; split; assumption].
  apply unchecked_not_checked in Hun. split.
  - apply NoDup_app. repeat split; [exact Hnd | | apply NoDup_singleton].
    intros x Hx Hs. apply list_elem_of_singleton in Hs. subst. apply Hun, Hsub, Hx.
  - intros x Hx. apply elem_of_app in Hx as [Hx|Hx]; apply elem_of_app;
      [left; apply Hsub, Hx | right; exact Hx].
Qed.

Lemma stat_each_once (env : Env) (a : File) (samples : list Segment) :
  forall st, once st -> once (stat_each env a samples st).
Proof.
  induction samples as [|s samples IH]; intros st Hst; [exact Hst|].
  cbn [stat_each]. apply IH, runStatCheck_once, Hst.
Qed.

Lemma stat_archives_once (env : Env) (sample : list (nat * File)) :
  forall st, once st -> once (stat_archives env sample st).
Proof.
  induction sample as [|[i a] sample IH]; intros st Hst; [exact Hst|].
  cbn [stat_archives]. destruct (first_unchecked st a); [|apply IH, Hst].
  apply IH, runStatCheck_once, Hst.
Qed.

Lemma extra_sampling_once (ctx : Ctx) (env : Env) (cands : list File)
    (primary : option (nat * File)) (stored : bool) (st : St) :
  once st -> once (extra_sampling ctx env cands primary stored st).
Proof.
  intros Hst. unfold extra_sampling. destruct (_ && _ && _); [|exact Hst].
  unfold extra_others. destruct (pickRandomElements _ _ _ _) as [sample k].
  apply stat_archives_once.
  eapply (once_view (extra_primary ctx env primary st)); [reflexivity|].
  unfold extra_primary.
  destruct primary as [[i p]|]; [|exact Hst].
  destruct (_ && _); [|exact Hst].
  destruct (pickRandomElements _ _ _ _) as [samples k'].
  apply stat_each_once. eapply once_view; [|exact Hst]. reflexivity.
Qed.

Lemma remote_check_once (ctx : Ctx) (env : Env) (cands : list File) (stored : bool)
    (st : St) primary stored' st' :
  remote_check ctx env cands stored st = Ok (primary, stored', st') ->
  statLog st = [] -> once st'.
Proof.
  unfold remote_check. intros Hrun Hlog.
  assert (Hst : once st) by (unfold once; rewrite Hlog; split;
                             [constructor | intros x Hx; inversion Hx]).
  destruct (negb (nntpPool ctx)).
  { injection Hrun as _ _ <-.
    eapply once_view; [|exact Hst].
    symmetry. apply (proj1 (nntp_unavailable_spec ctx st)). }
  destruct (list_find _ cands) as [[i a]|]; [|injection Hrun as _ _ <-; exact Hst].
  destruct (inspectArchiveViaNntp a ctx env st) as [[r|e] st1] eqn:Hins;
    [|discriminate].
  destruct (inspectArchiveViaNntp_spec _ _ _ _ _ _ Hins) as (_ & _ & Hseg).
  destruct (handleArchiveStatus _ _) as [hit st2] eqn:Hh.
  injection Hrun as _ _ <-.
  eapply once_view.
  { change st2 with (hit, st2).2. rewrite <- Hh. symmetry.
    apply handleArchiveStatus_view. }
  destruct (n_segmentId r) as [id|].
  - destruct Hseg as [Hl Hc]. rewrite Hlog in Hl. cbn [app] in Hl.
    assert (Hgoal : once (mark_checked id st1)).
    { unfold once. cbn. rewrite Hl. split; [apply NoDup_singleton|].
      intros x Hx. apply list_elem_of_singleton in Hx as ->.
      apply AnalyzerProps.set_add_elem_of. left. reflexivity. }
    destruct (n_status r); exact Hgoal.
  - subst st1. exact Hst.
Qed.

Lemma stat_samples_log (env : Env) (samples : list (File * string)) :
  forall st, statLog (stat_samples env samples st) = statLog st ++ (snd <$> samples).
Proof.
  induction samples as [|[f id] samples IH]; intros st;
    [cbn; rewrite app_nil_r; reflexivity|].
  cbn [stat_samples]. unfold statSegment. rewrite IH.
  rewrite (proj1 (AnalyzerFacts.record_stat_log _ _ _ _)).
  cbn. rewrite <- app_assoc. reflexivity.
Qed.

(** The branch without archive candidates, with a pool. *)
Lemma no_archive_log (parsed : Parsed) (ctx : Ctx) (env : Env) :
  nntpPool ctx = true ->
  exists samples,
    statLog (no_archive_branch parsed ctx env st_init) = snd <$> samples
    /\ NoDup (snd <$> samples)
    /\ length samples
       = Nat.min (sample_count 1 1 (statSampleCount (config ctx)))
           (length (collectUniqueSegments (files parsed)))
    /\ (forall x, x ∈ samples -> x ∈ collectUniqueSegments (files parsed)).
Proof.
  intros Hpool. unfold no_archive_branch. rewrite Hpool. cbn [negb].
  destruct (collectUniqueSegments (files parsed)) as [|u us] eqn:Hu.
  { exists []. cbn. rewrite Nat.min_0_r.
    repeat split; [constructor | intros x H; inversion H]. }
  rewrite <- Hu.
  pose proof (AnalyzerFacts.pickRandomElements_length (collectUniqueSegments (files parsed))
                (sample_count 1 1 (statSampleCount (config ctx))) (rnd env) 0) as Hlen.
  pose proof (AnalyzerFacts.pickRandomElements_elem_of (collectUniqueSegments (files parsed))
                (sample_count 1 1 (statSampleCount (config ctx))) (rnd env) 0) as Hin.
  pose proof (AnalyzerFacts.pickRandomElements_NoDup snd
                (collectUniqueSegments (files parsed))
                (sample_count 1 1 (statSampleCount (config ctx))) (rnd env) 0
                (AnalyzerProps.collect_unique_NoDup (files parsed))) as Hnd.
  cbn [draws add_warning st_init] in *.
  destruct (pickRandomElements _ _ _ _) as [samples k]. cbn [fst] in *.
  exists samples. rewrite stat_samples_log.
  repeat split; [exact Hnd | exact Hlen | exact Hin].
Qed.

(** Within the analysis of one NZB no segment is asked for twice: the ids
    of the STAT probes are pairwise different. *)
Theorem analysis_stats_distinct (raw : Result JsError Parsed) (ctx : Ctx) (env : Env)
    (parsed : Parsed) (st : St) :
  analyze_state raw ctx env = Ok (parsed, st) -> NoDup (statLog st).
Proof.
  unfold analyze_state. destruct raw as [p|e]; [|discriminate].
  destruct (dedupeArchiveCandidates _) as [|a archives].
  - intros [= <- <-]. destruct (nntpPool ctx) eqn:Hpool.
    + destruct (no_archive_log p ctx env Hpool) as (samples & -> & Hnd & _).
      exact Hnd.
    + unfold no_archive_branch. rewrite Hpool. cbn [negb].
      destruct (nntp_unavailable_spec ctx (add_warning "no-archive-candidates" st_init))
        as (Hview & _). injection Hview as -> _ _. constructor.
  - set (local := match archiveDirs (config ctx) with
                  | [] => (false, st_init)
                  | _ :: _ => local_check ctx env (a :: archives) false st_init
                  end).
    assert (Hlocal : pool_view local.2 = pool_view st_init).
    { unfold local. destruct (archiveDirs (config ctx)); [reflexivity|].
      apply local_check_view. }
    destruct local as [stored st0]. cbn [snd] in Hlocal.
    injection Hlocal as Hlog _ _.
    destruct (remote_check ctx env (a :: archives) stored st0)
      as [[[primary stored'] st1]|e] eqn:Hremote; [|discriminate].
    intros [= <- <-].
    pose proof (remote_check_once _ _ _ _ _ _ _ _ Hremote Hlog) as H1.
    pose proof (extra_sampling_once ctx env (a :: archives) primary stored' st1 H1)
      as [H2 _].
    destruct (negb stored' && _); exact H2.
Qed.

Lemma analysis_stats_distinct_witness :
  exists st,
    analyze_state (Ok sample_nzb_two) (sample_ctx (Some 1) (Some 0)) sample_env
    = Ok (sample_nzb_two, st)
    /\ NoDup (statLog st).
Proof.
  eexists. split.
  - vm_compute. reflexivity.
  - eapply (analysis_stats_distinct (Ok sample_nzb_two) (sample_ctx (Some 1) (Some 0))
              sample_env sample_nzb_two).
    vm_compute. reflexivity.
Defined.

(** An NZB without archive candidates, with a pool: the analysis returns,
    and it asks for a STAT on [min(max(1, statSampleCount), n)] of the [n]
    distinct segment ids of the files, each once. *)
Theorem no_archive_sampling (parsed : Parsed) (ctx : Ctx) (env : Env) :
  dedupeArchiveCandidates (filter (fun f => isArchiveFile f) (files parsed)) = [] ->
  nntpPool ctx = true ->
  exists st,
    analyze_state (Ok parsed) ctx env = Ok (parsed, st)
    /\ length (statLog st)
       = Nat.min (sample_count 1 1 (statSampleCount (config ctx)))
           (length (collectUniqueSegments (files parsed)))
    /\ NoDup (statLog st)
    /\ (forall id, id ∈ statLog st -> id ∈ snd <$> collectUniqueSegments (files parsed)).
Proof.
  intros Hnone Hpool. unfold analyze_state. rewrite Hnone.
  eexists. split; [reflexivity|].
  destruct (no_archive_log parsed ctx env Hpool) as (samples & -> & Hnd & Hlen & Hin).
  rewrite length_fmap. repeat split; [exact Hlen | exact Hnd |].
  intros id Hid. apply list_elem_of_fmap in Hid as (x & -> & Hx).
  apply list_elem_of_fmap_2, Hin, Hx.
Qed.

Lemma no_archive_sampling_witness :
  exists st,
    analyze_state (Ok sample_nzb_video) (sample_ctx (Some 2) None) sample_env
    = Ok (sample_nzb_video, st)
    /\ length (statLog st) = 2%nat.
Proof.
  destruct (no_archive_sampling sample_nzb_video (sample_ctx (Some 2) None) sample_env)
    as (st & Hrun & Hlen & _); [reflexivity | reflexivity |].
  exists st. split; [exact Hrun | exact Hlen].
Defined.

End AnalysisProps.

(** ** Runner: candidates *)

Module RunnerProps.
Import Str Inspector Analyzer Runner.

(** *** [buildCandidates] *)

Lemma build_from_spec (nzbResults : list NzbResult) :
  forall seen index,
    NoDup (c_downloadUrl <$> build_from seen index nzbResults)
    /\ Forall (fun c => c_downloadUrl c <> EmptyString
                        /\ (c_downloadUrl c ∉ seen)
                        /\ downloadUrl (c_result c) = Some (c_downloadUrl c)
                        /\ (index <= c_index c)%nat
                        /\ nzbResults !! (c_index c - index)%nat = Some (c_result c))
              (build_from seen index nzbResults)
    /\ (forall r url, r ∈ nzbResults -> downloadUrl r = Some url -> url <> EmptyString ->
                      url ∈ seen \/ url ∈ c_downloadUrl <$> build_from seen index nzbResults).
Proof.
  induction nzbResults as [|result rest IH]; intros seen index.
  - cbn. repeat split; [constructor | constructor |]. intros ? ? H. inversion H.
  - cbn [build_from].
    assert (Hskip :
      forall seen',
        (forall x, x ∈ seen -> x ∈ seen') ->
        Forall (fun c => c_downloadUrl c <> EmptyString
                         /\ (c_downloadUrl c ∉ seen')
                         /\ downloadUrl (c_result c) = Some (c_downloadUrl c)
                         /\ (S index <= c_index c)%nat
                         /\ rest !! (c_index c - S index)%nat = Some (c_result c))
               (build_from seen' (S index) rest) ->
        Forall (fun c => c_downloadUrl c <> EmptyString
                         /\ (c_downloadUrl c ∉ seen)
                         /\ downloadUrl (c_result c) = Some (c_downloadUrl c)
                         /\ (index <= c_index c)%nat
                         /\ (result :: rest) !! (c_index c - index)%nat
                            = Some (c_result c))
               (build_from seen' (S index) rest)).
    { intros seen' Hsub Hall. eapply Forall_impl; [exact Hall|].
      intros c (? & Hn & ? & Hle & Hlook).
      repeat split; [assumption | intros Hs; apply Hn, Hsub, Hs | assumption | lia |].
      replace (c_index c - index)%nat with (S (c_index c - S index)) by lia.
      exact Hlook. }
    destruct (downloadUrl result) as [url|] eqn:Hurl.
    + unfold set_has.
      destruct (bool_decide_reflect (url = EmptyString)) as [Hempty|Hfull]; cbn [orb].
      * destruct (IH seen (S index)) as (Hnd & Hall & Hcov).
        repeat split; [exact Hnd | apply Hskip; auto |].
        intros r u Hr Hu Hne. apply elem_of_cons in Hr as [->|Hr]; [congruence|eauto].
      * destruct (bool_decide_reflect (url ∈ seen)) as [Hin|Hin].
        -- destruct (IH seen (S index)) as (Hnd & Hall & Hcov).
           repeat split; [exact Hnd | apply Hskip; auto |].
           intros r u Hr Hu Hne. apply elem_of_cons in Hr as [->|Hr]; [|eauto].
           left. congruence.
        -- destruct (IH (set_add url seen) (S index)) as (Hnd & Hall & Hcov).
           repeat split.
           ++ rewrite fmap_cons. cbn [c_downloadUrl]. apply NoDup_cons. split; [|exact Hnd].
              intros Hu. apply list_elem_of_fmap in Hu as (c & Hc & Hcin).
              destruct (proj1 (Forall_forall _ _) Hall c Hcin) as (_ & Hn & _).
              apply Hn, AnalyzerProps.set_add_elem_of. left. congruence.
           ++ constructor.
              ** cbn. rewrite Nat.sub_diag. repeat split; auto.
              ** apply Hskip; [|exact Hall].
                 intros x Hx. apply AnalyzerProps.set_add_elem_of. right. exact Hx.
           ++ intros r u Hr Hu Hne. rewrite fmap_cons. cbn [c_downloadUrl].
              apply elem_of_cons in Hr as [->|Hr].
              ** right. replace u with url by congruence. left.
              ** destruct (Hcov r u Hr Hu Hne) as [Hs|Hs].
                 --- apply AnalyzerProps.set_add_elem_of in Hs as [->|Hs];
                       [right; left | left; exact Hs].
                 --- right. right. exact Hs.
    + destruct (IH seen (S index)) as (Hnd & Hall & Hcov).
      repeat split; [exact Hnd | apply Hskip; auto |].
      intros r u Hr Hu Hne. apply elem_of_cons in Hr as [->|Hr]; [congruence|eauto].
Qed.

(** [buildCandidates] gives one candidate for each download URL of the
    input that is there and not empty: the URLs of the candidates are
    pairwise different, each candidate stands for the entry of the input at
    its [index], and no such URL of the input is lost. *)
Theorem buildCandidates_urls (nzbResults : list NzbResult) :
  NoDup (c_downloadUrl <$> buildCandidates nzbResults)
  /\ Forall (fun c => c_downloadUrl c <> EmptyString
                      /\ nzbResults !! c_index c = Some (c_result c)
                      /\ downloadUrl (c_result c) = Some (c_downloadUrl c))
            (buildCandidates nzbResults)
  /\ (forall r url, r ∈ nzbResults -> downloadUrl r = Some url -> url <> EmptyString ->
                    url ∈ c_downloadUrl <$> buildCandidates nzbResults).
Proof.
  unfold buildCandidates.
  destruct (build_from_spec nzbResults [] 0) as (Hnd & Hall & Hcov).
  repeat split; [exact Hnd | |].
  - eapply Forall_impl; [exact Hall|]. intros c (? & _ & ? & _ & Hlook).
    rewrite Nat.sub_0_r in Hlook. repeat split; assumption.
  - intros r url Hr Hu Hne. destruct (Hcov r url Hr Hu Hne) as [H|H];
      [inversion H | exact H].
Qed.

Lemma buildCandidates_helper_NoDup (nzbResults : list NzbResult) :
  NoDup (c_downloadUrl <$> buildCandidates nzbResults).
Proof. apply (build_from_spec nzbResults [] 0). Qed.

Lemma buildCandidates_urls_witness :
  "http://idx/two.nzb"%string ∈ c_downloadUrl <$> buildCandidates sample_results.
Proof.
  eapply (proj2 (proj2 (buildCandidates_urls sample_results))).
  - right. left.
  - reflexivity.
  - discriminate.
Defined.

(** *** The selection *)

Lemma rankCandidates_Permutation (candidates : list Candidate) (p : option Z)
    (set : list string) :
  rankCandidates candidates p set ≡ₚ candidates.
Proof.
  rewrite RunnerFacts.rankCandidates_parts, !RunnerFacts.sort_by_Permutation.
  apply RunnerFacts.filter_split_Permutation.
Qed.

Lemma unique_titles_spec (candidates : list Candidate) :
  forall seen,
    unique_titles seen candidates `sublist_of` candidates
    /\ NoDup (filter (fun t => t <> EmptyString)
                (c_normalizedTitle <$> unique_titles seen candidates))
    /\ (forall c, c ∈ unique_titles seen candidates ->
                  c_normalizedTitle c <> EmptyString -> c_normalizedTitle c ∉ seen)
    /\ (forall c, c ∈ candidates -> c_normalizedTitle c = EmptyString ->
                  c ∈ unique_titles seen candidates).
Proof.
  induction candidates as [|c candidates IH]; intros seen.
  - cbn. split; [constructor|]. split; [constructor|].
    split; intros ? H; inversion H.
  - cbn [unique_titles]. unfold set_has.
    destruct (bool_decide_reflect (c_normalizedTitle c = EmptyString)) as [He|Hne];
      cbn [negb].
    + destruct (IH seen) as (Hsub & Hnd & Hfresh & Hkeep).
      repeat split.
      * apply sublist_skip, Hsub.
      * rewrite fmap_cons, filter_cons_False by (rewrite He; intros H; apply H; reflexivity).
        exact Hnd.
      * intros x Hx. apply elem_of_cons in Hx as [->|Hx]; [contradiction | auto].
      * intros x Hx Hxe. apply elem_of_cons in Hx as [->|Hx]; [left | right; auto].
    + destruct (bool_decide_reflect (c_normalizedTitle c ∈ seen)) as [Hin|Hin].
      * destruct (IH seen) as (Hsub & Hnd & Hfresh & Hkeep).
        repeat split; [apply sublist_cons, Hsub | exact Hnd | exact Hfresh |].
        intros x Hx Hxe. apply elem_of_cons in Hx as [->|Hx]; [contradiction | auto].
      * destruct (IH (set_add (c_normalizedTitle c) seen)) as (Hsub & Hnd & Hfresh & Hkeep).
        repeat split.
        -- apply sublist_skip, Hsub.
        -- rewrite fmap_cons, filter_cons_True by exact Hne.
           apply NoDup_cons. split; [|exact Hnd].
           intros Ht. apply list_elem_of_filter in Ht as [_ Ht].
           apply list_elem_of_fmap in Ht as (x & Hx & Hxin).
           apply (Hfresh x Hxin); [congruence|].
           apply AnalyzerProps.set_add_elem_of. left. congruence.
        -- intros x Hx Hxne. apply elem_of_cons in Hx as [->|Hx]; [exact Hin|].
           intros Hs. apply (Hfresh x Hx Hxne), AnalyzerProps.set_add_elem_of.
           right. exact Hs.
        -- intros x Hx Hxe. apply elem_of_cons in Hx as [->|Hx]; [left | right; auto].
Qed.

Lemma filter_sublist_mono {A} (P : A -> Prop) `{!forall x, Decision (P x)}
    (l1 l2 : list A) :
  l1 `sublist_of` l2 -> filter P l1 `sublist_of` filter P l2.
Proof.
  induction 1 as [|x l1 l2 _ IH|x l1 l2 _ IH]; [constructor | |].
  - rewrite !filter_cons. destruct (decide (P x)); [apply sublist_skip|]; exact IH.
  - rewrite filter_cons. destruct (decide (P x)); [apply sublist_cons|]; exact IH.
Qed.

Lemma selectCandidates_sublist (nzbResults : list NzbResult) (options : Options) :
  exists ranked,
    ranked ≡ₚ buildCandidates nzbResults
    /\ selectCandidates nzbResults options
       `sublist_of` unique_titles [] ranked
    /\ unique_titles [] ranked `sublist_of` ranked.
Proof.
  unfold selectCandidates.
  exists (rankCandidates (buildCandidates nzbResults)
            (z ← preferredSizeBytes options;
             Double.finite_or_null (Double.of_exact z))
            (normalizeIndexerSet (preferredIndexerIds options))).
  split; [apply rankCandidates_Permutation|].
  split; [apply sublist_take | apply unique_titles_spec].
Qed.

Lemma selectCandidates_NoDup (nzbResults : list NzbResult) (options : Options) :
  NoDup (c_downloadUrl <$> selectCandidates nzbResults options).
Proof.
  destruct (selectCandidates_sublist nzbResults options) as (ranked & Hp & Hs1 & Hs2).
  eapply sublist_NoDup; [|apply fmap_sublist; etransitivity; [exact Hs1 | exact Hs2]].
  rewrite Hp. apply buildCandidates_helper_NoDup.
Qed.

(** The selection holds at most [max(1, maxCandidates)] candidates, all of
    them candidates built from the input, with pairwise different URLs and,
    where the normalized title is not empty, pairwise different titles. *)
Theorem selectCandidates_bounds (nzbResults : list NzbResult) (options : Options) :
  (length (selectCandidates nzbResults options)
   <= Nat.max 1 (default DEFAULT_MAX_CANDIDATES (maxCandidates options)))%nat
  /\ NoDup (c_downloadUrl <$> selectCandidates nzbResults options)
  /\ (forall c, c ∈ selectCandidates nzbResults options ->
                c ∈ buildCandidates nzbResults)
  /\ NoDup (filter (fun t => t <> EmptyString)
              (c_normalizedTitle <$> selectCandidates nzbResults options)).
Proof.
  split.
  { unfold selectCandidates. rewrite length_take. lia. }
  split; [apply selectCandidates_NoDup|].
  destruct (selectCandidates_sublist nzbResults options) as (ranked & Hp & Hs1 & Hs2).
  split.
  - intros c Hc. rewrite <- Hp.
    eapply elem_of_sublist; [|exact Hs2]. eapply elem_of_sublist; [exact Hc | exact Hs1].
  - eapply sublist_NoDup; [apply (unique_titles_spec ranked [])|].
    apply filter_sublist_mono, fmap_sublist, Hs1.
Qed.

End RunnerProps.

(** ** Runner: downloads and assembly *)

Module AssemblyProps.
Import Str Inspector Analyzer Runner.

Lemma foldl_inv {X M} (P : M -> Prop) (f : M -> X -> M) (xs : list X) :
  (forall m x, x ∈ xs -> P m -> P (f m x)) -> forall m, P m -> P (foldl f m xs).
Proof.
  induction xs as [|x xs IH]; intros Hf m Hm; [exact Hm|].
  cbn [foldl]. apply IH.
  - intros m' x' Hx'. apply Hf. right. exact Hx'.
  - apply Hf; [left | exact Hm].
Qed.

Lemma map_set_key {V} (k x : string) (v : V) (m : list (string * V)) :
  x ∈ (map_set k v m).*1 <-> x = k \/ x ∈ m.*1.
Proof.
  rewrite RunnerFacts.map_set_keys.
  destruct (bool_decide_reflect (k ∈ m.*1)) as [Hin|Hin].
  - split; [right; assumption | intros [->|H]; assumption].
  - rewrite elem_of_app, list_elem_of_singleton. tauto.
Qed.

Lemma map_set_Forall {V} (P : string * V -> Prop) (k : string) (v : V)
    (m : list (string * V)) :
  P (k, v) -> Forall P m -> Forall P (map_set k v m).
Proof.
  intros Hkv. induction 1 as [|[k' v'] m Hp Hm IH]; cbn [map_set].
  - repeat constructor. exact Hkv.
  - destruct (bool_decide_reflect (k' = k)) as [->|Hne]; constructor; assumption.
Qed.

Lemma map_get_set {V} (k k' : string) (v : V) (m : list (string * V)) :
  map_get k' (map_set k v m) = if bool_decide (k = k') then Some v else map_get k' m.
Proof.
  induction m as [|[k0 v0] m IH]; cbn [map_set map_get].
  - reflexivity.
  - destruct (bool_decide_reflect (k0 = k)) as [->|Hne]; cbn [map_get].
    + destruct (bool_decide (k = k')); reflexivity.
    + rewrite IH. destruct (bool_decide_reflect (k0 = k')) as [->|Hne'].
      * rewrite bool_decide_eq_false_2 by congruence. reflexivity.
      * reflexivity.
Qed.

(** *** [downloadNzbs] *)

Lemma download_from_spec (fetch : Candidate -> Fetch) (candidates : list Candidate) :
  forall r,
    let out := download_from fetch candidates r in
    (forall p, p ∈ payloads out ->
               p ∈ payloads r \/ (p.1 ∈ candidates /\ p.2 <> EmptyString))
    /\ (forall k, k ∈ (failures out).*1 ->
                  k ∈ (failures r).*1 \/ k ∈ c_downloadUrl <$> candidates)
    /\ (forall p, p ∈ payloads r -> p ∈ payloads out)
    /\ (forall k, k ∈ (failures r).*1 -> k ∈ (failures out).*1)
    /\ (dl_timedOut r = true -> dl_timedOut out = true)
    /\ (dl_timedOut out = false ->
        forall c, c ∈ candidates ->
                  c ∈ (payloads out).*1 \/ c_downloadUrl c ∈ (failures out).*1).
Proof.
  induction candidates as [|c candidates IH]; intros r; cbn zeta.
  - cbn. repeat split; auto. intros _ ? H. inversion H.
  - cbn [download_from]. destruct (fetch c) as [|data|err].
    + cbn. repeat split; auto. discriminate.
    + destruct (bool_decide_reflect (data = EmptyString)) as [He|Hne].
      * specialize (IH {| payloads := payloads r;
                          failures := map_set (c_downloadUrl c)
                                        {| code := None; message := "Empty NZB payload";
                                           dropClient := false |} (failures r);
                          dl_timedOut := dl_timedOut r |}).
        cbn zeta in IH. cbn [payloads failures dl_timedOut] in IH.
        destruct IH as (Hp & Hf & Hpm & Hfm & Ht & Hc).
        repeat split; [| | exact Hpm | | exact Ht |].
        -- intros p H. destruct (Hp p H) as [?|[? ?]]; [left; assumption|].
           right. split; [right|]; assumption.
        -- intros k H. destruct (Hf k H) as [Hk|Hk].
           ++ apply map_set_key in Hk as [->|Hk]; [right; left | left; exact Hk].
           ++ right. right. exact Hk.
        -- intros k H. apply Hfm, map_set_key. right. exact H.
        -- intros Hno x Hx. apply elem_of_cons in Hx as [->|Hx]; [|auto].
           right. apply Hfm, map_set_key. left. reflexivity.
      * specialize (IH {| payloads := payloads r ++ [(c, data)];
                          failures := failures r; dl_timedOut := dl_timedOut r |}).
        cbn zeta in IH. cbn [payloads failures dl_timedOut] in IH.
        destruct IH as (Hp & Hf & Hpm & Hfm & Ht & Hc).
        repeat split; [| | | exact Hfm | exact Ht |].
        -- intros p H. destruct (Hp p H) as [Hp'|[? ?]].
           ++ apply elem_of_app in Hp' as [?|Hp']; [left; assumption|].
              apply list_elem_of_singleton in Hp' as ->. right. split; [left | exact Hne].
           ++ right. split; [right|]; assumption.
        -- intros k H. destruct (Hf k H) as [Hk|Hk]; [left | right; right]; exact Hk.
        -- intros p H. apply Hpm, elem_of_app. left. exact H.
        -- intros Hno x Hx. apply elem_of_cons in Hx as [->|Hx]; [|auto].
           left. apply (list_elem_of_fmap_2' fst _ (c, data));
             [apply Hpm, elem_of_app; right; left | reflexivity].
    + specialize (IH {| payloads := payloads r;
                        failures := map_set (c_downloadUrl c) err (failures r);
                        dl_timedOut := dl_timedOut r |}).
      cbn zeta in IH. cbn [payloads failures dl_timedOut] in IH.
      destruct IH as (Hp & Hf & Hpm & Hfm & Ht & Hc).
      repeat split; [| | exact Hpm | | exact Ht |].
      * intros p H. destruct (Hp p H) as [?|[? ?]]; [left; assumption|].
        right. split; [right|]; assumption.
      * intros k H. destruct (Hf k H) as [Hk|Hk].
        -- apply map_set_key in Hk as [->|Hk]; [right; left | left; exact Hk].
        -- right. right. exact Hk.
      * intros k H. apply Hfm, map_set_key. right. exact H.
      * intros Hno x Hx. apply elem_of_cons in Hx as [->|Hx]; [|auto].
        right. apply Hfm, map_set_key. left. reflexivity.
Qed.

(** Every payload of [downloadNzbs] is the body, never empty, of one of the
    candidates; every failure is filed under the URL of one of them; and
    unless the budget ran out every candidate has a payload or a failure. *)
Theorem downloadNzbs_outcome (fetch : Candidate -> Fetch) (candidates : list Candidate) :
  Forall (fun p => p.1 ∈ candidates /\ p.2 <> EmptyString)
         (payloads (downloadNzbs fetch candidates))
  /\ (forall k, k ∈ (failures (downloadNzbs fetch candidates)).*1 ->
                k ∈ c_downloadUrl <$> candidates)
  /\ (dl_timedOut (downloadNzbs fetch candidates) = false ->
      forall c, c ∈ candidates ->
                c ∈ (payloads (downloadNzbs fetch candidates)).*1
                \/ c_downloadUrl c ∈ (failures (downloadNzbs fetch candidates)).*1).
Proof.
  unfold downloadNzbs.
  pose proof (download_from_spec fetch candidates
                {| payloads := []; failures := []; dl_timedOut := false |}) as H.
  cbn zeta in H. destruct H as (Hp & Hf & _ & _ & _ & Hc).
  repeat split; [| | exact Hc].
  - apply Forall_forall. intros p H. destruct (Hp p H) as [Hn|Hn]; [inversion Hn | exact Hn].
  - intros k H. destruct (Hf k H) as [Hn|Hn]; [inversion Hn | exact Hn].
Qed.

Lemma downloadNzbs_outcome_witness :
  let c := {| c_result := {| downloadUrl := Some "http://idx/one.nzb"%string;
                             size := Some 700; r_title := Some "Movie"%string;
                             r_indexerId := None; r_indexer := None |};
              c_index := 0; c_size := 700; c_indexerId := None;
              c_indexerName := None;
              c_downloadUrl := "http://idx/one.nzb";
              c_title := Some "Movie"%string;
              c_normalizedTitle := "movie" |} in
  c ∈ (payloads (downloadNzbs (fun _ => Fetched "<nzb/>")
                   (selectCandidates sample_results sample_options))).*1
  \/ c_downloadUrl c
     ∈ (failures (downloadNzbs (fun _ => Fetched "<nzb/>")
                    (selectCandidates sample_results sample_options))).*1.
Proof.
  cbn zeta.
  apply (proj2 (proj2 (downloadNzbs_outcome (fun _ => Fetched "<nzb/>")
                         (selectCandidates sample_results sample_options)))).
  - vm_compute. reflexivity.
  - vm_compute. left.
Defined.

End AssemblyProps.

(** ** Runner: the decision map of [triageAndRank] *)

Module TriageRankProps.
Import Str Inspector Analyzer Runner AssemblyProps.

Lemma attachMetadata_status byUrl url d :
  s_status (attachMetadata byUrl url d) = s_status d
  /\ s_error (attachMetadata byUrl url d) = s_error d
  /\ s_blockers (attachMetadata byUrl url d) = s_blockers d
  /\ s_warnings (attachMetadata byUrl url d) = s_warnings d
  /\ s_archiveFindings (attachMetadata byUrl url d) = s_archiveFindings d
  /\ s_nzbIndex (attachMetadata byUrl url d) = s_nzbIndex d
  /\ s_fileCount (attachMetadata byUrl url d) = s_fileCount d.
Proof. unfold attachMetadata. destruct (map_get url byUrl); repeat split. Qed.

Lemma attachMetadata_fields byUrl url d c :
  map_get url byUrl = Some c ->
  s_title (attachMetadata byUrl url d) = or_null (c_title c)
  /\ s_normalizedTitle (attachMetadata byUrl url d) = or_null (Some (c_normalizedTitle c))
  /\ s_indexerId (attachMetadata byUrl url d) = or_null (c_indexerId c)
  /\ s_indexerName (attachMetadata byUrl url d) = or_null (c_indexerName c).
Proof. unfold attachMetadata. intros ->. repeat split. Qed.

Section Assembly.
Context (P : string * Summary -> Prop) (byUrl : list (string * Candidate)).

Lemma add_failures_Forall failures m :
  Forall P m ->
  (forall entry, entry ∈ failures ->
     P (entry.1, attachMetadata byUrl entry.1
                   (bare fetch_error
                      (Some (message_or "Failed to fetch NZB payload" entry.2))
                      ["fetch-error"%string] []))) ->
  Forall P (add_failures byUrl failures m).
Proof.
  intros Hm Hf. unfold add_failures. apply (foldl_inv (Forall P)); [|exact Hm].
  intros m' x Hx Hm'. apply map_set_Forall; auto.
Qed.

Lemma add_missing_Forall (timedOut : bool) (selected : list Candidate) m :
  Forall P m ->
  (forall c, c ∈ selected ->
     P (c_downloadUrl c, attachMetadata byUrl (c_downloadUrl c)
                           (bare (if timedOut then pending else skipped) None [] []))) ->
  Forall P (add_missing byUrl timedOut selected m).
Proof.
  intros Hm Hf. unfold add_missing. apply (foldl_inv (Forall P)); [|exact Hm].
  intros m' x Hx Hm'. destruct (map_has _ m'); [exact Hm'|].
  apply map_set_Forall; auto.
Qed.

Lemma add_decisions_Forall payloads ds m :
  Forall P m ->
  (forall i d p, ds !! i = Some d -> payloads !! i = Some p ->
     P (c_downloadUrl p.1, attachMetadata byUrl (c_downloadUrl p.1)
                             (summarizeDecision d))) ->
  Forall P (add_decisions byUrl payloads ds m).
Proof.
  intros Hm Hf. unfold add_decisions. apply (foldl_inv (Forall P)); [|exact Hm].
  intros m' [i d] Hx Hm'. cbn [fst snd].
  apply elem_of_lookup_imap in Hx as (i' & d' & Heq & Hd). inversion Heq; subst i' d'.
  destruct (payloads !! i) as [p|] eqn:Hp; [|exact Hm'].
  apply map_set_Forall; eauto.
Qed.

Lemma add_errors_Forall err payloads m :
  Forall P m ->
  (forall p, p ∈ payloads ->
     P (c_downloadUrl p.1, attachMetadata byUrl (c_downloadUrl p.1)
                             (bare error None ["triage-error"%string]
                                (if bool_decide (message err = EmptyString) then []
                                 else [message err])))) ->
  Forall P (add_errors byUrl err payloads m).
Proof.
  intros Hm Hf. unfold add_errors. apply (foldl_inv (Forall P)); [|exact Hm].
  intros m' x Hx Hm'. destruct (map_has _ m'); [exact Hm'|].
  apply map_set_Forall; auto.
Qed.

End Assembly.

(** A property of entries holds of every decision when it holds of each
    entry the four loops can write. *)
Lemma triageAndRank_Forall (P : string * Summary -> Prop)
    (nzbResults : list NzbResult) (options : Options)
    (download : list Candidate -> DownloadResult) (elapsedAfterDownloads : Z)
    (triage : list string -> TriageOutcome) :
  let selected := selectCandidates nzbResults options in
  let byUrl := foldl (fun m candidate => map_set (c_downloadUrl candidate) candidate m)
                     [] selected in
  let dl := download selected in
  let out := triageAndRank nzbResults options download elapsedAfterDownloads triage in
  (forall entry, entry ∈ failures dl ->
     P (entry.1, attachMetadata byUrl entry.1
                   (bare fetch_error
                      (Some (message_or "Failed to fetch NZB payload" entry.2))
                      ["fetch-error"%string] []))) ->
  (forall ds i d p,
     triage (map snd (payloads dl)) = TriageSummary ds ->
     ds !! i = Some d -> payloads dl !! i = Some p ->
     P (c_downloadUrl p.1, attachMetadata byUrl (c_downloadUrl p.1)
                             (summarizeDecision d))) ->
  (forall err p,
     triage (map snd (payloads dl)) = TriageThrew err -> p ∈ payloads dl ->
     P (c_downloadUrl p.1, attachMetadata byUrl (c_downloadUrl p.1)
                             (bare error None ["triage-error"%string]
                                (if bool_decide (message err = EmptyString) then []
                                 else [message err])))) ->
  (forall c, c ∈ selected ->
     P (c_downloadUrl c, attachMetadata byUrl (c_downloadUrl c)
                           (bare (if timedOut out then pending else skipped) None [] []))) ->
  Forall P (decisions out).
Proof.
  cbn zeta. unfold triageAndRank.
  destruct (selectCandidates nzbResults options) as [|c0 selected] eqn:Hsel.
  { intros; constructor. }
  set (byUrl := foldl _ [] (c0 :: selected)).
  set (dl := download (c0 :: selected)).
  intros Hf Hd He Hm.
  assert (Hm0 : Forall P (add_failures byUrl (failures dl) []))
    by (apply add_failures_Forall; [constructor | exact Hf]).
  destruct (payloads dl) as [|p ps] eqn:Hpay; cbn [decisions timedOut] in *.
  { apply add_missing_Forall; assumption. }
  apply add_missing_Forall; [|exact Hm].
  destruct (0 <? _); [|exact Hm0].
  destruct (triage _) as [ds|err] eqn:Ht.
  - apply add_decisions_Forall; [exact Hm0|]. intros i d q Hi Hq. eapply Hd; eauto.
  - apply add_errors_Forall; [exact Hm0|]. intros q Hq. eapply He; eauto.
Qed.

Lemma decisions_NoDup (nzbResults : list NzbResult) (options : Options)
    (download : list Candidate -> DownloadResult) (elapsedAfterDownloads : Z)
    (triage : list string -> TriageOutcome) :
  NoDup (decisions (triageAndRank nzbResults options download
                      elapsedAfterDownloads triage)).*1.
Proof.
  unfold triageAndRank.
  destruct (selectCandidates nzbResults options) as [|c0 selected]; [constructor|].
  set (byUrl := foldl _ [] (c0 :: selected)).
  set (dl := download (c0 :: selected)).
  assert (Hm0 : NoDup (add_failures byUrl (failures dl) []).*1)
    by (apply RunnerFacts.add_failures_keeps; constructor).
  destruct (payloads dl); cbn [decisions];
    apply RunnerFacts.add_missing_keeps; [exact Hm0|].
  destruct (0 <? _); [|exact Hm0].
  destruct (triage _).
  - apply RunnerFacts.add_decisions_keeps, Hm0.
  - apply RunnerFacts.add_errors_keeps, Hm0.
Qed.

Lemma decisions_cover (nzbResults : list NzbResult) (options : Options)
    (download : list Candidate -> DownloadResult) (elapsedAfterDownloads : Z)
    (triage : list string -> TriageOutcome) (c : Candidate) :
  c ∈ selectCandidates nzbResults options ->
  c_downloadUrl c ∈ (decisions (triageAndRank nzbResults options download
                                  elapsedAfterDownloads triage)).*1.
Proof.
  unfold triageAndRank.
  destruct (selectCandidates nzbResults options) as [|c0 selected];
    [intros H; inversion H|].
  intros Hc. destruct (payloads _); cbn [decisions];
    apply RunnerFacts.add_missing_covers, Hc.
Qed.

Lemma considered_length (nzbResults : list NzbResult) (options : Options)
    (download : list Candidate -> DownloadResult) (elapsedAfterDownloads : Z)
    (triage : list string -> TriageOutcome) :
  candidatesConsidered (triageAndRank nzbResults options download
                          elapsedAfterDownloads triage)
  = length (selectCandidates nzbResults options).
Proof.
  unfold triageAndRank.
  destruct (selectCandidates nzbResults options) as [|c0 selected]; [reflexivity|].
  destruct (payloads _); reflexivity.
Qed.

(** With the downloads done by [downloadNzbs], whatever each request meets
    and however the analysis settles, the keys of [decisions] are the URLs of
    the selected candidates, each once, so that the map has
    [candidatesConsidered] entries. *)
Theorem triageAndRank_keys (nzbResults : list NzbResult) (options : Options)
    (fetch : Candidate -> Fetch) (elapsedAfterDownloads : Z)
    (triage : list string -> TriageOutcome) :
  let out := triageAndRank nzbResults options (downloadNzbs fetch)
               elapsedAfterDownloads triage in
  (decisions out).*1 ≡ₚ c_downloadUrl <$> selectCandidates nzbResults options
  /\ length (decisions out) = candidatesConsidered out.
Proof.
  cbn zeta.
  set (out := triageAndRank _ _ _ _ _).
  set (selected := selectCandidates nzbResults options).
  assert (Hperm : (decisions out).*1 ≡ₚ c_downloadUrl <$> selected).
  { apply NoDup_Permutation.
    - apply decisions_NoDup.
    - apply RunnerProps.selectCandidates_NoDup.
    - intros k. split.
      + intros Hk. apply list_elem_of_fmap in Hk as ([k' s] & -> & Hin). cbn [fst].
        pose proof (download_from_spec fetch selected
                      {| payloads := []; failures := []; dl_timedOut := false |}) as Hdl.
        cbn zeta in Hdl. destruct Hdl as (Hp & Hf & _).
        fold (downloadNzbs fetch selected) in Hp, Hf.
        assert (Hall : Forall (fun p : string * Summary => p.1 ∈ c_downloadUrl <$> selected)
                         (decisions out)).
        { apply triageAndRank_Forall; cbn [fst]; fold selected.
          - intros entry He. destruct (Hf entry.1) as [Hn|Hn];
              [apply list_elem_of_fmap_2, He | inversion Hn | exact Hn].
          - intros ds i d p _ _ Hi. apply list_elem_of_fmap_2.
            destruct (Hp p) as [Hn|[Hn _]];
              [eapply list_elem_of_lookup_2, Hi | inversion Hn | exact Hn].
          - intros err p _ Hi. apply list_elem_of_fmap_2.
            destruct (Hp p Hi) as [Hn|[Hn _]]; [inversion Hn | exact Hn].
          - intros c Hc. apply list_elem_of_fmap_2, Hc. }
        rewrite Forall_forall in Hall. apply (Hall (k', s) Hin).
      + intros Hk. apply list_elem_of_fmap in Hk as (c & -> & Hc).
        apply decisions_cover, Hc. }
  split; [exact Hperm|].
  unfold out at 2. rewrite considered_length. fold selected.
  rewrite <- (length_fmap fst (decisions out)), Hperm, length_fmap. reflexivity.
Qed.

Lemma byUrl_other (k : string) (selected : list Candidate) :
  forall m, k ∉ c_downloadUrl <$> selected ->
    map_get k (foldl (fun m candidate => map_set (c_downloadUrl candidate) candidate m)
                     m selected)
    = map_get k m.
Proof.
  induction selected as [|c0 selected IH]; intros m Hk; [reflexivity|].
  cbn [foldl]. rewrite IH.
  - rewrite map_get_set. rewrite bool_decide_eq_false_2; [reflexivity|].
    intros Heq. apply Hk. rewrite <- Heq. left.
  - intros Hin. apply Hk. right. exact Hin.
Qed.

Lemma byUrl_lookup (selected : list Candidate) (c : Candidate) :
  forall m, NoDup (c_downloadUrl <$> selected) -> c ∈ selected ->
    map_get (c_downloadUrl c)
      (foldl (fun m candidate => map_set (c_downloadUrl candidate) candidate m)
             m selected)
    = Some c.
Proof.
  induction selected as [|c0 selected IH]; intros m Hnd Hc; [inversion Hc|].
  cbn [fmap list_fmap] in Hnd. apply NoDup_cons in Hnd as [Hfresh Hnd].
  cbn [foldl]. apply elem_of_cons in Hc as [->|Hc].
  - rewrite byUrl_other by exact Hfresh.
    rewrite map_get_set, bool_decide_eq_true_2 by reflexivity. reflexivity.
  - apply IH; assumption.
Qed.

(** Every decision, whichever loop wrote it, carries the title, normalized
    title and indexer of the selected candidate whose URL is its key, each
    turned into null when empty or absent. *)
Theorem triageAndRank_metadata (nzbResults : list NzbResult) (options : Options)
    (download : list Candidate -> DownloadResult) (elapsedAfterDownloads : Z)
    (triage : list string -> TriageOutcome) (c : Candidate) (s : Summary) :
  c ∈ selectCandidates nzbResults options ->
  (c_downloadUrl c, s)
    ∈ decisions (triageAndRank nzbResults options download elapsedAfterDownloads triage) ->
  s_title s = or_null (c_title c)
  /\ s_normalizedTitle s = or_null (Some (c_normalizedTitle c))
  /\ s_indexerId s = or_null (c_indexerId c)
  /\ s_indexerName s = or_null (c_indexerName c).
Proof.
  intros Hc Hin.
  set (selected := selectCandidates nzbResults options) in *.
  set (byUrl := foldl (fun m candidate => map_set (c_downloadUrl candidate) candidate m)
                      [] selected).
  assert (Hall : Forall (fun p : string * Summary =>
                           exists d, p.2 = attachMetadata byUrl p.1 d)
                   (decisions (triageAndRank nzbResults options download
                                 elapsedAfterDownloads triage))).
  { apply triageAndRank_Forall; intros; cbn [fst snd]; eexists; reflexivity. }
  rewrite Forall_forall in Hall. destruct (Hall _ Hin) as [d Hd]. cbn [fst snd] in Hd.
  rewrite Hd. apply attachMetadata_fields.
  apply byUrl_lookup; [apply RunnerProps.selectCandidates_NoDup | exact Hc].
Qed.

Lemma triageAndRank_metadata_witness :
  exists s, ("http://idx/one.nzb"%string, s) ∈ decisions sample_output
            /\ s_title s = Some "Movie"%string
            /\ s_normalizedTitle s = Some "movie"%string.
Proof.
  eexists. split; [vm_compute; left|].
  pose proof (triageAndRank_metadata sample_results sample_options
                (downloadNzbs (fun _ => Fetched "<nzb/>")) 100 sample_triage
                {| c_result := {| downloadUrl := Some "http://idx/one.nzb"%string;
                                  size := Some 700; r_title := Some "Movie"%string;
                                  r_indexerId := None; r_indexer := None |};
                   c_index := 0; c_size := 700; c_indexerId := None;
                   c_indexerName := None;
                   c_downloadUrl := "http://idx/one.nzb";
                   c_title := Some "Movie"%string;
                   c_normalizedTitle := "movie" |}
                _
                ltac:(vm_compute; left) ltac:(vm_compute; left)) as (Ht & Hn & _).
  split; [exact Ht | exact Hn].
Defined.

Lemma summarizeDecision_status (d : NzbDecision) :
  s_status (summarizeDecision d) = verified
  \/ s_status (summarizeDecision d) = unverified
  \/ s_status (summarizeDecision d) = blocked.
Proof.
  unfold summarizeDecision. cbn [s_status].
  destruct (decision d), (blockers d), (existsb positive_finding (archiveFindings d)); auto.
Qed.

(** The two fill-in statuses tell whether the run timed out: a decision is
    [pending] only in a result whose [timedOut] is set and [skipped] only in
    one where it is not; so the two never occur in the same result. *)
Theorem triageAndRank_pending_skipped (nzbResults : list NzbResult) (options : Options)
    (download : list Candidate -> DownloadResult) (elapsedAfterDownloads : Z)
    (triage : list string -> TriageOutcome) :
  let out := triageAndRank nzbResults options download elapsedAfterDownloads triage in
  Forall (fun p => (s_status p.2 = pending -> timedOut out = true)
                   /\ (s_status p.2 = skipped -> timedOut out = false))
         (decisions out).
Proof.
  cbn zeta. apply triageAndRank_Forall; intros; cbn [fst snd];
    rewrite (proj1 (attachMetadata_status _ _ _)).
  - split; discriminate.
  - destruct (summarizeDecision_status d) as [->|[->| ->]]; split; discriminate.
  - split; discriminate.
  - cbn [bare s_status]. destruct (timedOut _); split; congruence.
Qed.

End TriageRankProps.

(** ** Runner: what each download ends as *)

Module OutcomeProps.
Import Str Inspector Analyzer Runner AssemblyProps TriageRankProps.

Lemma map_get_elem {V} (k : string) (v : V) (m : list (string * V)) :
  map_get k m = Some v -> (k, v) ∈ m.
Proof.
  induction m as [|[k' v'] m IH]; cbn [map_get]; [discriminate|].
  destruct (bool_decide_reflect (k' = k)) as [->|Hne].
  - intros [= ->]. left.
  - intros H. right. apply IH, H.
Qed.

Lemma map_get_key {V} (k : string) (m : list (string * V)) :
  is_Some (map_get k m) <-> k ∈ m.*1.
Proof.
  induction m as [|[k' v'] m IH]; cbn [map_get fmap list_fmap fst].
  - split; [intros [? H]; discriminate H | intros H; inversion H].
  - destruct (bool_decide_reflect (k' = k)) as [->|Hne].
    + split; [left | eexists; reflexivity].
    + rewrite IH, elem_of_cons. split; [right; assumption | intros [?|?]; congruence].
Qed.

Lemma add_missing_get byUrl (timedOut : bool) (selected : list Candidate) (k : string) :
  forall m : list (string * Summary),
    k ∈ m.*1 -> map_get k (add_missing byUrl timedOut selected m) = map_get k m.
Proof.
  induction selected as [|c selected IH]; intros m Hk; [reflexivity|].
  unfold add_missing in *. cbn [foldl]. unfold map_has.
  destruct (bool_decide_reflect (c_downloadUrl c ∈ m.*1)) as [Hin|Hout]; [apply IH, Hk|].
  rewrite IH by (apply RunnerFacts.map_set_mono, Hk).
  rewrite map_get_set, bool_decide_eq_false_2; [reflexivity | congruence].
Qed.

Lemma add_failures_other byUrl (failures : list (string * JsError)) (k : string) :
  forall m : list (string * Summary),
    k ∉ failures.*1 -> map_get k (add_failures byUrl failures m) = map_get k m.
Proof.
  induction failures as [|[k0 e0] failures IH]; intros m Hk; [reflexivity|].
  unfold add_failures in *. cbn [foldl fst snd].
  rewrite IH by (intros H; apply Hk; right; exact H).
  rewrite map_get_set, bool_decide_eq_false_2; [reflexivity|].
  intros ->. apply Hk. left.
Qed.

Lemma add_failures_get byUrl (failures : list (string * JsError)) (k : string)
    (e : JsError) :
  forall m : list (string * Summary),
    NoDup failures.*1 -> (k, e) ∈ failures ->
    map_get k (add_failures byUrl failures m)
    = Some (attachMetadata byUrl k
              (bare fetch_error (Some (message_or "Failed to fetch NZB payload" e))
                 ["fetch-error"%string] [])).
Proof.
  induction failures as [|[k0 e0] failures IH]; intros m Hnd Hin; [inversion Hin|].
  cbn [fmap list_fmap fst] in Hnd. apply NoDup_cons in Hnd as [Hfresh Hnd].
  apply elem_of_cons in Hin as [[= -> ->]|Hin].
  - unfold add_failures. cbn [foldl fst snd].
    fold (add_failures byUrl failures).
    change (foldl _ ?m0 failures) with (add_failures byUrl failures m0).
    rewrite add_failures_other by exact Hfresh.
    rewrite map_get_set, bool_decide_eq_true_2 by reflexivity. reflexivity.
  - unfold add_failures in *. cbn [foldl]. apply IH; assumption.
Qed.

Lemma add_decisions_other byUrl (payloads : list (Candidate * string))
    (ds : list NzbDecision) (k : string) (m : list (string * Summary)) :
  k ∉ c_downloadUrl <$> payloads.*1 ->
  map_get k (add_decisions byUrl payloads ds m) = map_get k m.
Proof.
  intros Hk. unfold add_decisions.
  apply (foldl_inv (fun m' => map_get k m' = map_get k m)); [|reflexivity].
  intros m' [i d] _ Hm'. cbn [fst snd].
  destruct (payloads !! i) as [p|] eqn:Hp; [|exact Hm'].
  rewrite map_get_set, bool_decide_eq_false_2; [exact Hm'|].
  intros Heq. apply Hk. rewrite <- Heq.
  apply list_elem_of_fmap_2, list_elem_of_fmap_2. eapply list_elem_of_lookup_2, Hp.
Qed.

Lemma add_errors_other byUrl (err : JsError) (payloads : list (Candidate * string))
    (k : string) (m : list (string * Summary)) :
  k ∉ c_downloadUrl <$> payloads.*1 ->
  map_get k (add_errors byUrl err payloads m) = map_get k m.
Proof.
  intros Hk. unfold add_errors.
  apply (foldl_inv (fun m' => map_get k m' = map_get k m)); [|reflexivity].
  intros m' p Hp Hm'. destruct (map_has _ m'); [exact Hm'|].
  rewrite map_get_set, bool_decide_eq_false_2; [exact Hm'|].
  intros Heq. apply Hk. rewrite <- Heq.
  apply list_elem_of_fmap_2, list_elem_of_fmap_2, Hp.
Qed.

Lemma add_decisions_get byUrl (payloads : list (Candidate * string)) :
  NoDup (c_downloadUrl <$> payloads.*1) ->
  forall (ds : list NzbDecision) (m : list (string * Summary)) i p d,
    payloads !! i = Some p -> ds !! i = Some d ->
    map_get (c_downloadUrl p.1) (add_decisions byUrl payloads ds m)
    = Some (attachMetadata byUrl (c_downloadUrl p.1) (summarizeDecision d)).
Proof.
  intros Hnd ds. induction ds as [|d' ds IH] using rev_ind; intros m i p d Hp Hd;
    [inversion Hd|].
  unfold add_decisions in *. rewrite imap_app, foldl_app. cbn [imap foldl fst snd].
  rewrite Nat.add_0_r.
  destruct (payloads !! length ds) as [q|] eqn:Hq.
  - rewrite map_get_set.
    destruct (bool_decide_reflect (c_downloadUrl q.1 = c_downloadUrl p.1)) as [Heq|Hne].
    + assert (Hi : length ds = i).
      { eapply NoDup_lookup; [exact Hnd | |].
        - rewrite !list_lookup_fmap, Hq. reflexivity.
        - rewrite !list_lookup_fmap, Hp. cbn. rewrite Heq. reflexivity. }
      subst i. rewrite Hq in Hp. injection Hp as ->.
      rewrite lookup_app_r, Nat.sub_diag in Hd by lia. injection Hd as ->. reflexivity.
    + apply lookup_app_Some in Hd as [Hd|[Hle Hd]]; [eapply IH; eassumption|].
      destruct (i - length ds)%nat as [|n] eqn:Hn; [|inversion Hd].
      assert (i = length ds) by lia. subst i. congruence.
  - apply lookup_app_Some in Hd as [Hd|[Hle Hd]]; [eapply IH; eassumption|].
    destruct (i - length ds)%nat as [|n] eqn:Hn; [|inversion Hd].
    assert (i = length ds) by lia. subst i. congruence.
Qed.

(** Downloads of candidates with distinct URLs: the payloads have distinct
    URLs, the failures distinct keys, and no URL is on both sides. *)
Lemma download_from_apart (fetch : Candidate -> Fetch) (candidates : list Candidate) :
  forall r,
    NoDup (c_downloadUrl <$> candidates) ->
    NoDup (c_downloadUrl <$> (payloads r).*1) ->
    NoDup (failures r).*1 ->
    (forall k, k ∈ (failures r).*1 -> k ∉ c_downloadUrl <$> (payloads r).*1) ->
    (forall c, c ∈ candidates ->
               (c_downloadUrl c ∉ (failures r).*1)
               /\ (c_downloadUrl c ∉ c_downloadUrl <$> (payloads r).*1)) ->
    let out := download_from fetch candidates r in
    NoDup (c_downloadUrl <$> (payloads out).*1)
    /\ NoDup (failures out).*1
    /\ (forall k, k ∈ (failures out).*1 -> k ∉ c_downloadUrl <$> (payloads out).*1).
Proof.
  induction candidates as [|c candidates IH]; intros r Hnd Hp Hf Hd Hc; cbn zeta.
  { cbn. auto. }
  cbn [fmap list_fmap] in Hnd. apply NoDup_cons in Hnd as [Hfresh Hnd].
  destruct (Hc c) as [Hcf Hcp]; [left|].
  assert (Hrest : forall c', c' ∈ candidates -> c_downloadUrl c' <> c_downloadUrl c).
  { intros c' Hc' Heq. apply Hfresh. rewrite <- Heq. apply list_elem_of_fmap_2, Hc'. }
  assert (Hfail : forall err,
             let r' := {| payloads := payloads r;
                          failures := map_set (c_downloadUrl c) err (failures r);
                          dl_timedOut := dl_timedOut r |} in
             NoDup (c_downloadUrl <$> (payloads (download_from fetch candidates r')).*1)
             /\ NoDup (failures (download_from fetch candidates r')).*1
             /\ (forall k, k ∈ (failures (download_from fetch candidates r')).*1 ->
                   k ∉ c_downloadUrl <$> (payloads (download_from fetch candidates r')).*1)).
  { intros err r'. apply IH; subst r'; cbn [payloads failures]; [exact Hnd | exact Hp | | |].
    - apply RunnerFacts.map_set_NoDup, Hf.
    - intros k Hk. apply map_set_key in Hk as [->|Hk]; [exact Hcp | apply Hd, Hk].
    - intros c' Hc'. destruct (Hc c') as [Hcf' Hcp']; [right; exact Hc'|].
      split; [|exact Hcp'].
      intros Hk. apply map_set_key in Hk as [Hk|Hk]; [apply (Hrest c' Hc' Hk) | auto]. }
  cbn [download_from]. destruct (fetch c) as [|data|err].
  - cbn. auto.
  - destruct (bool_decide (data = EmptyString)); [apply Hfail|].
    apply IH; cbn [payloads failures]; [exact Hnd | | exact Hf | |].
    + rewrite fmap_app, fmap_app. cbn. apply NoDup_app. split; [exact Hp|].
      split; [|apply NoDup_singleton].
      intros x Hx Hx'. apply list_elem_of_singleton in Hx'. subst x. auto.
    + intros k Hk. rewrite fmap_app, fmap_app. cbn. rewrite elem_of_app.
      intros [Hk'|Hk']; [apply (Hd k Hk Hk')|].
      apply list_elem_of_singleton in Hk'. subst k. auto.
    + intros c' Hc'. destruct (Hc c') as [Hcf' Hcp']; [right; exact Hc'|].
      split; [exact Hcf'|].
      rewrite fmap_app, fmap_app. cbn. rewrite elem_of_app.
      intros [Hk'|Hk']; [auto|].
      apply list_elem_of_singleton in Hk'. apply (Hrest c' Hc' Hk').
  - apply Hfail.
Qed.

Lemma downloadNzbs_apart (fetch : Candidate -> Fetch) (candidates : list Candidate) :
  NoDup (c_downloadUrl <$> candidates) ->
  NoDup (c_downloadUrl <$> (payloads (downloadNzbs fetch candidates)).*1)
  /\ NoDup (failures (downloadNzbs fetch candidates)).*1
  /\ (forall k, k ∈ (failures (downloadNzbs fetch candidates)).*1 ->
        k ∉ c_downloadUrl <$> (payloads (downloadNzbs fetch candidates)).*1).
Proof.
  intros Hnd. unfold downloadNzbs. apply download_from_apart; cbn; auto.
  - constructor.
  - constructor.
  - intros k H. inversion H.
  - intros c _. split; intros H; inversion H.
Qed.

(** When the analysis returns in time, the decision at each index goes to
    the candidate whose payload has that index: its entry in [decisions] is
    the summary of that decision, and no later loop rewrites it. *)
Theorem triageAndRank_evaluated (nzbResults : list NzbResult) (options : Options)
    (fetch : Candidate -> Fetch) (elapsedAfterDownloads : Z)
    (triage : list string -> TriageOutcome)
    (ds : list NzbDecision) (i : nat) (p : Candidate * string) (d : NzbDecision) :
  let dl := downloadNzbs fetch (selectCandidates nzbResults options) in
  let out := triageAndRank nzbResults options (downloadNzbs fetch)
               elapsedAfterDownloads triage in
  0 < default DEFAULT_TIME_BUDGET_MS (timeBudgetMs options) - elapsedAfterDownloads ->
  triage (map snd (payloads dl)) = TriageSummary ds ->
  payloads dl !! i = Some p ->
  ds !! i = Some d ->
  evaluatedCount out = length ds
  /\ exists s, (c_downloadUrl p.1, s) ∈ decisions out
               /\ s_status s = s_status (summarizeDecision d)
               /\ s_blockers s = blockers d
               /\ s_warnings s = warnings d
               /\ s_archiveFindings s = archiveFindings d
               /\ s_nzbIndex s = Some (nzbIndex d)
               /\ s_fileCount s = Some (fileCount d).
Proof.
  cbn zeta. intros Hbudget Htriage Hp Hd.
  pose proof (downloadNzbs_apart fetch _
                (RunnerProps.selectCandidates_NoDup nzbResults options)) as (Hnd & _ & _).
  unfold triageAndRank.
  destruct (selectCandidates nzbResults options) as [|c0 selected] eqn:Hsel.
  { cbn in Hp. inversion Hp. }
  set (byUrl := foldl _ [] (c0 :: selected)).
  set (dl := downloadNzbs fetch (c0 :: selected)) in *.
  destruct (payloads dl) as [|q qs] eqn:Hpay; [inversion Hp|].
  apply Z.ltb_lt in Hbudget. rewrite Hbudget, Htriage. cbn [evaluatedCount decisions].
  split; [reflexivity|].
  exists (attachMetadata byUrl (c_downloadUrl p.1) (summarizeDecision d)).
  split.
  - apply map_get_elem.
    pose proof (add_decisions_get byUrl (q :: qs) Hnd ds
                  (add_failures byUrl (failures dl) []) i p d Hp Hd) as Hget.
    rewrite add_missing_get; [exact Hget|].
    apply map_get_key. rewrite Hget. eexists; reflexivity.
  - destruct (attachMetadata_status byUrl (c_downloadUrl p.1) (summarizeDecision d))
      as (-> & _ & -> & -> & -> & -> & ->).
    repeat split.
Qed.

Lemma triageAndRank_evaluated_witness :
  exists s, ("http://idx/one.nzb"%string, s) ∈ decisions sample_output
            /\ s_status s = unverified.
Proof.
  destruct (triageAndRank_evaluated sample_results sample_options
              (fun _ => Fetched "<nzb/>") 100 sample_triage
              [buildDecision accept [] [] 1 None 0 []] 0
              ({| c_result := {| downloadUrl := Some "http://idx/one.nzb"%string;
                                 size := Some 700; r_title := Some "Movie"%string;
                                 r_indexerId := None; r_indexer := None |};
                  c_index := 0; c_size := 700; c_indexerId := None;
                  c_indexerName := None;
                  c_downloadUrl := "http://idx/one.nzb";
                  c_title := Some "Movie"%string;
                  c_normalizedTitle := "movie" |}, "<nzb/>"%string)
              (buildDecision accept [] [] 1 None 0 []))
    as (_ & s & Hin & Hst & _).
  - vm_compute. reflexivity.
  - vm_compute. reflexivity.
  - vm_compute. reflexivity.
  - reflexivity.
  - exists s. split; [exact Hin | exact Hst].
Defined.

(** A download that failed is reported as such: the URL of every failure of
    [downloadNzbs] ends in [decisions] with status fetch-error, the one
    blocker fetch-error and the message of the failure (or the stock message
    when it has none), whatever the analysis of the other payloads does. *)
Theorem triageAndRank_fetch_error (nzbResults : list NzbResult) (options : Options)
    (fetch : Candidate -> Fetch) (elapsedAfterDownloads : Z)
    (triage : list string -> TriageOutcome) (k : string) (e : JsError) :
  let dl := downloadNzbs fetch (selectCandidates nzbResults options) in
  let out := triageAndRank nzbResults options (downloadNzbs fetch)
               elapsedAfterDownloads triage in
  (k, e) ∈ failures dl ->
  exists s, (k, s) ∈ decisions out
            /\ s_status s = fetch_error
            /\ s_blockers s = ["fetch-error"%string]
            /\ s_error s = Some (message_or "Failed to fetch NZB payload" e).
Proof.
  cbn zeta. intros Hin.
  pose proof (downloadNzbs_apart fetch _
                (RunnerProps.selectCandidates_NoDup nzbResults options))
    as (_ & Hnd & Hapart).
  unfold triageAndRank.
  destruct (selectCandidates nzbResults options) as [|c0 selected] eqn:Hsel.
  { cbn in Hin. inversion Hin. }
  set (byUrl := foldl _ [] (c0 :: selected)).
  set (dl := downloadNzbs fetch (c0 :: selected)) in *.
  assert (Hk : k ∉ c_downloadUrl <$> (payloads dl).*1)
    by (apply Hapart; apply (list_elem_of_fmap_2' fst _ (k, e)); [exact Hin | reflexivity]).
  pose proof (add_failures_get byUrl (failures dl) k e [] Hnd Hin) as Hget.
  set (s := attachMetadata byUrl k _) in Hget.
  exists s. split.
  - apply map_get_elem.
    destruct (payloads dl) as [|q qs] eqn:Hpay; cbn [decisions].
    + rewrite add_missing_get; [exact Hget|].
      apply map_get_key. rewrite Hget. eexists; reflexivity.
    + rewrite add_missing_get.
      * destruct (0 <? _); [|exact Hget].
        destruct (triage _) as [ds|err].
        -- rewrite add_decisions_other by exact Hk. exact Hget.
        -- rewrite add_errors_other by exact Hk. exact Hget.
      * apply map_get_key.
        destruct (0 <? _); [|rewrite Hget; eexists; reflexivity].
        destruct (triage _) as [ds|err].
        -- rewrite add_decisions_other by exact Hk. rewrite Hget. eexists; reflexivity.
        -- rewrite add_errors_other by exact Hk. rewrite Hget. eexists; reflexivity.
  - subst s.
    destruct (attachMetadata_status byUrl k
                (bare fetch_error (Some (message_or "Failed to fetch NZB payload" e))
                   ["fetch-error"%string] [])) as (-> & -> & -> & _).
    repeat split.
Qed.

Lemma triageAndRank_fetch_error_witness :
  exists s,
    ("http://idx/one.nzb"%string, s)
      ∈ decisions (triageAndRank sample_results sample_options
                     (downloadNzbs (fun _ => FetchFailed {| code := None;
                                                            message := "socket hang up";
                                                            dropClient := false |}))
                     100 sample_triage)
    /\ s_status s = fetch_error
    /\ s_error s = Some "socket hang up"%string.
Proof.
  destruct (triageAndRank_fetch_error sample_results sample_options
              (fun _ => FetchFailed {| code := None; message := "socket hang up";
                                       dropClient := false |})
              100 sample_triage "http://idx/one.nzb"
              {| code := None; message := "socket hang up"; dropClient := false |})
    as (s & Hin & Hst & _ & Herr).
  - vm_compute. left.
  - exists s. repeat split; [exact Hin | exact Hst | exact Herr].
Defined.

End OutcomeProps.

(** ** Runner: the summary of an analysis *)

Module SummaryProps.
Import Str Inspector Analyzer Runner.

Lemma analyze_at_verdict (raw : Result JsError Parsed) (ctx : Ctx) (env : Env) :
  (decision (analyze_at raw ctx env) = accept /\ blockers (analyze_at raw ctx env) = [])
  \/ (decision (analyze_at raw ctx env) = reject
      /\ blockers (analyze_at raw ctx env) <> []).
Proof.
  unfold analyze_at, analyzeSingleNzb.
  destruct (analyze_state raw ctx env) as [[parsed st]|err].
  - pose proof (AnalyzerFacts.decide_on_invariant parsed ctx st) as Hinv.
    destruct (decision (decide_on parsed ctx st)) eqn:Hd.
    + left. split; [reflexivity | apply Hinv; reflexivity].
    + right. split; [reflexivity|]. intros Hb. apply Hinv in Hb. discriminate Hb.
  - right. destruct (AnalyzerFacts.buildErrorDecision_invariant err (ctx_nzbIndex ctx))
      as [-> ->]. split; [reflexivity | discriminate].
Qed.

(** What [summarizeDecision] makes of the decision stored for an NZB: the
    status is blocked exactly when the NZB was rejected, which is exactly
    when the summary lists a blocker; verified needs a finding that is a
    stored archive or a segment found present, and unverified means there is
    none. *)
Theorem summary_of_analysis (raw : Result JsError Parsed) (ctx : Ctx) (env : Env) :
  let d := analyze_at raw ctx env in
  let s := summarizeDecision d in
  (s_status s = blocked <-> decision d = reject)
  /\ (s_status s = blocked <-> s_blockers s <> [])
  /\ (s_status s = verified ->
      exists f, f ∈ s_archiveFindings s /\ positive_finding f = true)
  /\ (s_status s = unverified ->
      Forall (fun f => positive_finding f = false) (s_archiveFindings s))
  /\ s_status s <> fetch_error /\ s_status s <> skipped
  /\ s_status s <> pending /\ s_status s <> error.
Proof.
  cbn zeta. unfold summarizeDecision. cbn [s_status s_blockers s_archiveFindings].
  destruct (analyze_at_verdict raw ctx env) as [[-> ->]|[-> Hb]].
  - destruct (existsb positive_finding (archiveFindings (analyze_at raw ctx env)))
      eqn:Hex.
    + repeat split; try discriminate; try congruence.
      intros _. apply existsb_exists in Hex as (f & Hf & Hpos).
      exists f. split; [apply list_elem_of_In, Hf | exact Hpos].
    + repeat split; try discriminate; try congruence.
      intros _. apply Forall_forall. intros f Hf.
      destruct (positive_finding f) eqn:Hpos; [|reflexivity].
      assert (existsb positive_finding (archiveFindings (analyze_at raw ctx env)) = true)
        by (apply existsb_exists; exists f; split; [apply list_elem_of_In, Hf | exact Hpos]).
      congruence.
  - destruct (blockers (analyze_at raw ctx env)) eqn:Hbl; [congruence|].
    repeat split; try discriminate; try congruence.
Qed.

End SummaryProps.

(** ** STAT and BODY on a borrowed client *)

Module StatProps.
Import Str Analyzer Stat.

(** The promise of a STAT settles with its first event and never again:
    whatever events follow (a callback after the timer, a second callback),
    the outcome is the one of the first. *)
Theorem stat_settles_once (ev : StatEvent) (evs : list StatEvent) :
  run_events (ev :: evs) = run_events [ev]
  /\ completed (run_events [ev]) = true
  /\ is_Some (settled (run_events [ev])).
Proof.
  assert (Hc : completed (run_events [ev]) = true /\ is_Some (settled (run_events [ev]))).
  { destruct ev as [|[err|]]; cbn; split; try reflexivity; eexists; reflexivity. }
  split; [|exact Hc].
  unfold run_events. cbn [foldl].
  apply StatFacts.settled_stays. apply Hc.
Qed.

(** Every STAT settles. It resolves exactly when the callback comes in time
    without an error; and a rejection asks for the client to be dropped only
    after the timeout or for an error in time with one of the four transport
    codes. *)
Theorem stat_outcome (reply : option (Z * option NntpErr)) :
  is_Some (statSegmentWithClient reply)
  /\ (statSegmentWithClient reply = Some Resolved
      <-> exists t, reply = Some (t, None) /\ t < STAT_TIMEOUT_MS)
  /\ (forall e, statSegmentWithClient reply = Some (Rejected e) ->
                dropClient e = true ->
                e = timeout_error
                \/ exists t err, reply = Some (t, Some err) /\ t < STAT_TIMEOUT_MS
                                 /\ n_code err ∈ (Some <$> TRANSPORT_CODES)
                                 /\ code e = n_code err).
Proof.
  unfold statSegmentWithClient, events_of.
  destruct reply as [[t err]|].
  - destruct (Z.ltb_spec t STAT_TIMEOUT_MS) as [Hlt|Hge].
    + destruct err as [err|]; cbn.
      * split; [eexists; reflexivity|]. split.
        -- split; [discriminate | intros (t' & [=] & _)].
        -- intros e [= <-] Hdrop. right. exists t, err.
           split; [reflexivity|]. split; [exact Hlt|].
           cbn [dropClient stat_error_of] in Hdrop. unfold is_transport in Hdrop.
           destruct (n_code err) as [c|] eqn:Hcode; [|discriminate].
           apply bool_decide_eq_true in Hdrop.
           split; [apply (list_elem_of_fmap_2 Some) in Hdrop; exact Hdrop|].
           cbn [code stat_error_of]. rewrite Hcode. reflexivity.
      * split; [eexists; reflexivity|]. split.
        -- split; [intros _; exists t; split; [reflexivity | exact Hlt] | reflexivity].
        -- intros e [=].
    + assert (Hrun : settled (run_events [TimerFired; Callback err])
                     = Some (Rejected timeout_error)) by (destruct err; reflexivity).
      rewrite Hrun. split; [eexists; reflexivity|]. split.
      * split; [discriminate | intros (t' & [= <- _] & Ht'); lia].
      * intros e [= <-] _. left. reflexivity.
  - cbn. split; [eexists; reflexivity|]. split.
    + split; [discriminate | intros (t' & [=] & _)].
    + intros e [= <-] _. left. reflexivity.
Qed.

End StatProps.

Module BodyProps.
Import Buf Str Inspector Analyzer Stat Body.

(** A BODY resolves only with a buffer that has bytes in it; a callback
    without error and without bytes is rejected with [BODY_ERROR], and no
    rejection of that kind asks for the client to be dropped. *)
Theorem body_resolves_nonempty (err : option NntpErr) (bodyBuffer : option Buffer)
    (b : Buffer) :
  fetchSegmentBodyWithClient err bodyBuffer = Ok b
  <-> err = None /\ bodyBuffer = Some b /\ b <> [].
Proof.
  unfold fetchSegmentBodyWithClient. destruct err as [err|].
  - split; [discriminate | intros [[=] _]].
  - destruct bodyBuffer as [[|x xs]|].
    + split; [discriminate | intros (_ & [= <-] & Hne); congruence].
    + split; [intros [= <-]; repeat split; discriminate | intros (_ & [= <-] & _); reflexivity].
    + split; [discriminate | intros (_ & [=] & _)].
Qed.

Lemma body_resolves_nonempty_witness :
  fetchSegmentBodyWithClient None (Some sample_body) = Ok sample_body.
Proof.
  apply (body_resolves_nonempty None (Some sample_body) sample_body).
  repeat split. vm_compute. discriminate.
Defined.

(** How a failed BODY of the first segment of an archive is reported by
    [inspectArchiveViaNntp]: body-missing exactly when the error of the
    callback has code 430 (the number) or the code BODY_MISSING,
    decode-error exactly when it has the code DECODE_ERROR, body-error
    otherwise; so an error without code is a body-error even when its text
    speaks of 430. *)
Theorem body_failure_status (file : File) (ctx : Ctx) (env : Env) (st : St)
    (first : Segment) (rest : list Segment) (err : NntpErr)
    (bodyBuffer : option Buffer) :
  segments file = first :: rest ->
  seg_id first <> EmptyString ->
  acquire env (calls st) = Ok tt ->
  stat env (calls st) (seg_id first) = Ok tt ->
  exists res,
    (inspectArchiveViaNntp file ctx (answering env (Some err) bodyBuffer) st).1 = Ok res
    /\ (n_status res = body_missing
        <-> n_code err = Some (CodeNum 430)
            \/ n_code err = Some (CodeStr "BODY_MISSING"))
    /\ (n_status res = decode_error <-> n_code err = Some (CodeStr "DECODE_ERROR"))
    /\ (n_status res = body_missing \/ n_status res = decode_error
        \/ n_status res = body_error)
    /\ (n_code err = None -> n_status res = body_error).
Proof.
  intros Hseg Hid Hacq Hstat. unfold inspectArchiveViaNntp. rewrite Hseg.
  rewrite bool_decide_eq_false_2 by exact Hid.
  cbn [answering acquire stat body calls log_stat].
  cbn zeta.
  change (acquire (answering env (Some err) bodyBuffer)) with (acquire env).
  change (stat (answering env (Some err) bodyBuffer)) with (stat env).
  rewrite Hacq, Hstat.
  change (body (answering env (Some err) bodyBuffer) (seg_id first))
    with (fetchSegmentBodyWithClient (Some err) bodyBuffer).
  unfold fetchSegmentBodyWithClient, code_is. cbn [code message].
  destruct (n_code err) as [[s|n]|] eqn:Hcode; repeat case_bool_decide;
    (eexists; split; [reflexivity|]); cbn [n_status nntp_result];
    intuition (try discriminate; congruence).
Qed.

Lemma body_failure_status_witness :
  exists res,
    (inspectArchiveViaNntp sample_archive_a (sample_ctx None None)
       (answering sample_env
          (Some {| n_code := None; Stat.n_message := "430 No Such Article" |}) None)
       {| st_blockers := []; st_warnings := []; st_findings := [];
          checkedSegments := []; statLog := []; calls := 0; draws := 0 |}).1 = Ok res
    /\ n_status res = body_error.
Proof.
  destruct (body_failure_status sample_archive_a (sample_ctx None None) sample_env
              {| st_blockers := []; st_warnings := []; st_findings := [];
                 checkedSegments := []; statLog := []; calls := 0; draws := 0 |}
              (sample_segment "s0") [sample_segment "s1"]
              {| n_code := None; Stat.n_message := "430 No Such Article" |} None)
    as (res & Hres & _ & _ & _ & Hnone).
  - reflexivity.
  - discriminate.
  - reflexivity.
  - reflexivity.
  - exists res. split; [exact Hres | apply Hnone; reflexivity].
Defined.

End BodyProps.

(** ** Borrowing and the pool *)

Module BorrowProps.
Import Analyzer Borrow.

(** [runWithClient] never releases a client it did not get: with a pool
    that is null no call is made on the pool at all, and when [acquire]
    rejects or gives the null client the call fails with no release. *)
Theorem runWithClient_without_client {A} (pool : bool)
    (acquired : Result JsError (option nat))
    (handler : nat -> list PoolCall * Result JsError A) (s : Frame) :
  pool = false \/ (forall client, acquired <> Ok (Some client)) ->
  let out := runWithClient pool acquired handler s in
  (exists e, out.1 = Err e)
  /\ releases (calls out.2) = releases (calls s)
  /\ (pool = false -> calls out.2 = calls s).
Proof.
  intros Hno. cbn zeta. unfold runWithClient.
  destruct pool; cbn [negb].
  - destruct Hno as [Hp|Hacq]; [discriminate Hp|].
    unfold bind, pool_acquire, log_call, throw, ret, releases. cbn.
    destruct acquired as [[client|]|e].
    + exfalso. apply (Hacq client). reflexivity.
    + cbn. split; [eexists; reflexivity|].
      split; [|discriminate]. rewrite omap_app. cbn. apply app_nil_r.
    + cbn. split; [eexists; reflexivity|].
      split; [|discriminate]. rewrite omap_app. cbn. apply app_nil_r.
  - cbn. split; [eexists; reflexivity|]. split; reflexivity.
Qed.

Lemma runWithClient_without_client_witness :
  releases (calls (runWithClient true (Ok None)
                     (fun _ : nat => ([] : list PoolCall, Ok tt : Result JsError unit))
                     fresh_frame).2)
  = [].
Proof.
  apply (runWithClient_without_client true (Ok None)
           (fun _ : nat => ([] : list PoolCall, Ok tt : Result JsError unit)) fresh_frame).
  right. intros client. discriminate.
Defined.

End BorrowProps.

Module PoolProps.
Import Pool PoolTrace.

Lemma scheduleKeepAlive_rest (t : Tick) (c : nat) (s : PoolState) :
  handed (scheduleKeepAlive t c s) = handed s
  /\ closing (scheduleKeepAlive t c s) = closing s
  /\ allClients (scheduleKeepAlive t c s) = allClients s
  /\ lastUsed (scheduleKeepAlive t c s) = lastUsed s.
Proof.
  unfold scheduleKeepAlive.
  destruct (closing s || bool_decide (c ∈ noopTimers s)); [repeat split|].
  destruct (negb (fresh t)); repeat split.
Qed.

Lemma pop_snoc (l : list nat) (c : nat) : pop (l ++ [c]) = Some (c, l).
Proof. unfold pop. rewrite reverse_snoc, reverse_involutive. reflexivity. Qed.

Lemma step_order (keepAliveMs : Z) (t : Tick) (ev : Event) (s : PoolState) :
  no_waiter_while_idle s ->
  (handed (step keepAliveMs t ev s)).*1 ++ waiters (step keepAliveMs t ev s)
  = ((handed s).*1 ++ waiters s) ++ accepted keepAliveMs [(t, ev)] s.
Proof.
  intros Hinv. cbn [accepted]. rewrite app_nil_r.
  destruct ev as [w|client drop|replacement|client|client|client| | |]; cbn [step];
    rewrite ?app_nil_r.
  - unfold acquireClient. destruct (closing s); [rewrite app_nil_r; reflexivity|].
    destruct (pop (idle s)) as [[client rest]|] eqn:Hpop; cbn.
    + destruct Hinv as [Hw|Hi]; [|rewrite Hi, PoolFacts.pop_nil in Hpop; discriminate].
      rewrite Hw, fmap_app, !app_nil_r. reflexivity.
    + rewrite app_assoc. reflexivity.
  - unfold releaseClient. destruct client as [client|]; [|reflexivity].
    destruct drop; [reflexivity|].
    destruct (waiters s) as [|waiter rest] eqn:Hw; cbn.
    + destruct (PoolFacts.scheduleKeepAlive_lists t client
                  (touch t (set_idle (idle s ++ [client]) s))) as [-> _].
      destruct (scheduleKeepAlive_rest t client
                  (touch t (set_idle (idle s ++ [client]) s))) as [-> _].
      cbn. rewrite Hw. reflexivity.
    + rewrite fmap_app, <- app_assoc. reflexivity.
  - unfold replacementArrived. cbn.
    destruct (waiters s) as [|waiter rest] eqn:Hw; cbn; rewrite ?Hw.
    + reflexivity.
    + rewrite fmap_app, <- app_assoc. reflexivity.
  - reflexivity.
  - unfold keepAliveOk. destruct (_ && _ && _); [|reflexivity].
    destruct (PoolFacts.scheduleKeepAlive_lists t client s) as [-> _].
    destruct (scheduleKeepAlive_rest t client s) as [-> _]. reflexivity.
  - reflexivity.
  - unfold rotate. destruct (closing s); [reflexivity|].
    destruct (negb (fresh t)); [reflexivity|].
    destruct (_ <? _); [reflexivity|].
    destruct (waiters s) as [|w ws] eqn:Hw; [|rewrite Hw; reflexivity].
    destruct (pop (idle s)) as [[client rest]|]; cbn; rewrite ?Hw; reflexivity.
  - cbn. rewrite fmap_app. f_equal.
    induction (waiters s) as [|w ws IH]; [reflexivity|]. cbn. f_equal. exact IH.
  - reflexivity.
Qed.

Lemma run_order (keepAliveMs : Z) (evs : list (Tick * Event)) :
  forall s, no_waiter_while_idle s ->
    (handed (run keepAliveMs evs s)).*1 ++ waiters (run keepAliveMs evs s)
    = ((handed s).*1 ++ waiters s) ++ accepted keepAliveMs evs s.
Proof.
  induction evs as [|[t ev] evs IH]; intros s Hinv.
  - cbn. rewrite app_nil_r. reflexivity.
  - unfold run in *. cbn [foldl fst snd].
    rewrite IH by (apply PoolFacts.step_keeps, Hinv).
    rewrite step_order by exact Hinv.
    cbn [accepted]. rewrite !app_nil_r, <- !app_assoc. reflexivity.
Qed.

(** The pool serves in the order of asking: at any point of any trace, the
    acquires already answered, in the order in which they were answered,
    followed by those still waiting, are the acquires the pool took up, in
    the order in which they were made; none is lost, answered twice or
    overtaken. *)
Theorem pool_serves_in_order (keepAliveMs : Z) (t0 : Tick) (initialClients : list nat)
    (evs : list (Tick * Event)) :
  let s := run keepAliveMs evs (initial t0 initialClients) in
  (handed s).*1 ++ waiters s = accepted keepAliveMs evs (initial t0 initialClients).
Proof.
  cbn zeta. rewrite run_order by (left; reflexivity). reflexivity.
Qed.

Lemma closed_step (keepAliveMs : Z) (t : Tick) (ev : Event) (s : PoolState) :
  closing s = true -> waiters s = [] -> noopTimers s = ∅ ->
  closing (step keepAliveMs t ev s) = true
  /\ waiters (step keepAliveMs t ev s) = []
  /\ noopTimers (step keepAliveMs t ev s) = ∅
  /\ handed (step keepAliveMs t ev s) = handed s.
Proof.
  intros Hc Hw Ht.
  destruct ev as [w|client drop|replacement|client|client|client| | |]; cbn [step].
  - unfold acquireClient. rewrite Hc. auto.
  - unfold releaseClient. destruct client as [client|]; [|auto].
    destruct drop.
    + cbn. rewrite Ht. repeat split; auto. apply empty_difference_L.
    + rewrite Hw. unfold scheduleKeepAlive. cbn. rewrite Hc. cbn. auto.
  - unfold replacementArrived. cbn. rewrite Hw. cbn. auto.
  - cbn. rewrite Ht. repeat split; auto. apply empty_difference_L.
  - unfold keepAliveOk. rewrite Hc. cbn. auto.
  - cbn. auto.
  - unfold rotate. rewrite Hc. auto.
  - cbn. rewrite Hw. cbn. rewrite app_nil_r. auto.
  - cbn. auto.
Qed.

(** [close()] is final: it answers every waiting acquire with the null
    client, and whatever happens afterwards the pool stays closing, no
    acquire waits, no keep-alive timer is armed and nothing more is handed
    out. *)
Theorem close_is_final (keepAliveMs : Z) (s : PoolState) (evs : list (Tick * Event)) :
  let s' := run keepAliveMs evs (close s) in
  closing s' = true
  /\ waiters s' = []
  /\ noopTimers s' = ∅
  /\ handed s' = handed s ++ map (fun w => (w, None)) (waiters s).
Proof.
  cbn zeta.
  assert (H : forall s0, closing s0 = true -> waiters s0 = [] -> noopTimers s0 = ∅ ->
                closing (run keepAliveMs evs s0) = true
                /\ waiters (run keepAliveMs evs s0) = []
                /\ noopTimers (run keepAliveMs evs s0) = ∅
                /\ handed (run keepAliveMs evs s0) = handed s0).
  { induction evs as [|[t ev] evs IH]; intros s0 Hc Hw Ht; [auto|].
    unfold run in *. cbn [foldl fst snd].
    destruct (closed_step keepAliveMs t ev s0 Hc Hw Ht) as (Hc' & Hw' & Ht' & Hh').
    rewrite <- Hh'. apply IH; assumption. }
  apply (H (close s)); reflexivity.
Qed.

(** A client given back and asked for again: after a release without drop
    into a pool that is open and has no waiter, the next acquire gets that
    very client at once, with its keep-alive timer cancelled, and the idle
    list is as before the release. *)
Theorem release_then_acquire (t1 t2 : Tick) (client w : nat) (s : PoolState) :
  closing s = false ->
  waiters s = [] ->
  let s' := acquireClient t2 w (releaseClient t1 (Some client) false s) in
  idle s' = idle s
  /\ handed s' = handed s ++ [(w, Some client)]
  /\ waiters s' = []
  /\ (client ∉ noopTimers s')
  /\ lastUsed s' = now t2
  /\ allClients s' = allClients s.
Proof.
  intros Hc Hw. cbn zeta. unfold releaseClient. rewrite Hw.
  set (s1 := touch t1 (set_idle (idle s ++ [client]) s)).
  destruct (PoolFacts.scheduleKeepAlive_lists t1 client s1) as [Hw1 Hi1].
  destruct (scheduleKeepAlive_rest t1 client s1) as (Hh1 & Hc1 & Ha1 & _).
  unfold acquireClient. rewrite Hc1, Hi1. cbn [s1 closing touch set_idle idle].
  rewrite Hc, pop_snoc. cbn. rewrite Hh1, Hw1, Ha1. cbn. rewrite Hw.
  repeat split. rewrite elem_of_difference, elem_of_singleton. tauto.
Qed.

Lemma release_then_acquire_witness :
  let t := {| now := 5; fresh := true |} in
  handed (acquireClient t 1 (releaseClient t (Some 7%nat) false (initial t [])))
  = [(1%nat, Some 7%nat)].
Proof.
  cbn zeta.
  apply (release_then_acquire {| now := 5; fresh := true |} {| now := 5; fresh := true |}
           7 1 (initial {| now := 5; fresh := true |} [])); reflexivity.
Defined.

End PoolProps.

(** ** The workers of [analyzeWithConcurrency] *)

Module WorkersProps.
Import Workers.

Section Scheduling.
Context {D : Type} (total : nat) (decide : nat -> D).

Lemma claim_consistent (w : nat) (s : @WState D) :
  consistent total decide s -> consistent total decide (claim total w s).
Proof.
  intros (Hle & Hlen & Hnd & Hlt & Hres). unfold claim.
  destruct (bool_decide_reflect (total <= nextIndex s)%nat) as [Hfull|Hroom];
    [repeat split; assumption|].
  unfold consistent. cbn [nextIndex results waiting].
  rewrite fmap_app. cbn [fmap list_fmap snd].
  split; [lia|]. split; [exact Hlen|]. split; [|split].
  - apply NoDup_app. split; [exact Hnd|]. split; [|apply NoDup_singleton].
    intros i Hi Hi'. apply list_elem_of_singleton in Hi'. subst i.
    apply Hlt in Hi. lia.
  - intros i Hi. apply elem_of_app in Hi as [Hi|Hi].
    + apply Hlt in Hi. lia.
    + apply list_elem_of_singleton in Hi. lia.
  - intros i Hi. rewrite (Hres i Hi). f_equal.
    rewrite (bool_decide_ext _ ((i < S (nextIndex s))%nat
                                /\ i ∉ (waiting s).*2 ++ [nextIndex s])); [reflexivity|].
    rewrite elem_of_app, list_elem_of_singleton. intuition lia.
Qed.

Lemma claim_busy (w : nat) (s : @WState D) : busy total (claim total w s).
Proof.
  unfold busy, claim.
  destruct (bool_decide_reflect (total <= nextIndex s)%nat) as [Hfull|Hroom];
    [lia|].
  cbn. intros _ H. apply app_eq_nil in H as [_ H]. discriminate H.
Qed.

Lemma store_consistent (k w index : nat) (s : @WState D) :
  waiting s !! k = Some (w, index) ->
  consistent total decide s ->
  consistent total decide
    {| nextIndex := nextIndex s;
       results := <[index := Some (index, decide index)]> (results s);
       waiting := delete k (waiting s) |}.
Proof.
  intros Hk (Hle & Hlen & Hnd & Hlt & Hres).
  pose proof (take_drop_middle _ _ _ Hk) as Hsplit.
  rewrite delete_take_drop.
  set (l1 := take k (waiting s)) in *. set (l2 := drop (S k) (waiting s)) in *.
  rewrite <- Hsplit in Hnd, Hlt, Hres.
  rewrite fmap_app in Hnd, Hlt, Hres. cbn [fmap list_fmap snd] in Hnd, Hlt, Hres.
  apply NoDup_app in Hnd as (Hnd1 & Hcross & Hnd2).
  apply NoDup_cons in Hnd2 as [Hfresh Hnd2].
  assert (Hindex : (index < nextIndex s)%nat)
    by (apply Hlt, elem_of_app; right; left).
  unfold consistent. cbn [nextIndex results waiting]. rewrite fmap_app.
  split; [exact Hle|]. split; [rewrite length_insert; exact Hlen|].
  split; [|split].
  - apply NoDup_app. split; [exact Hnd1|]. split; [|exact Hnd2].
    intros i Hi Hi'. apply (Hcross i Hi). right. exact Hi'.
  - intros i Hi. apply Hlt. apply elem_of_app in Hi as [Hi|Hi];
      apply elem_of_app; [left; exact Hi | right; right; exact Hi].
  - intros i Hi. destruct (Nat.eq_dec i index) as [->|Hne].
    + rewrite list_lookup_insert_eq by lia. f_equal.
      rewrite bool_decide_eq_true_2; [reflexivity|].
      split; [exact Hindex|]. rewrite elem_of_app. intros [Hin|Hin].
      * apply (Hcross index Hin). left.
      * apply Hfresh, Hin.
    + rewrite list_lookup_insert_ne by congruence. rewrite (Hres i Hi). f_equal.
      rewrite (bool_decide_ext _ ((i < nextIndex s)%nat /\ i ∉ l1.*2 ++ l2.*2));
        [reflexivity|].
      rewrite !elem_of_app, elem_of_cons. tauto.
Qed.

Lemma settle_consistent (w : nat) (s : @WState D) :
  consistent total decide s -> consistent total decide (settle total decide w s).
Proof.
  intros Hs. unfold settle.
  destruct (list_find _ (waiting s)) as [[k [w' index]]|] eqn:Hfind; [|exact Hs].
  apply list_find_Some in Hfind as (Hk & _ & _).
  apply claim_consistent, (store_consistent k w' index s Hk Hs).
Qed.

Lemma settle_busy (w : nat) (s : @WState D) :
  busy total s -> busy total (settle total decide w s).
Proof.
  intros Hs. unfold settle.
  destruct (list_find _ (waiting s)) as [[k [w' index]]|]; [|exact Hs].
  apply claim_busy.
Qed.

Lemma start_consistent (parallelLimit : nat) :
  consistent total decide (start total parallelLimit).
Proof.
  unfold start. apply (AssemblyProps.foldl_inv (consistent total decide)).
  - intros s w _. apply claim_consistent.
  - unfold consistent. cbn. split; [lia|]. split; [apply length_replicate|].
    split; [constructor|]. split; [intros i Hi; inversion Hi|].
    intros i Hi. rewrite lookup_replicate_2 by exact Hi.
    rewrite bool_decide_eq_false_2 by lia. reflexivity.
Qed.

Lemma start_busy (parallelLimit : nat) :
  (0 < parallelLimit)%nat -> busy total (start (D:=D) total parallelLimit).
Proof.
  intros Hp. unfold start. destruct parallelLimit as [|p]; [lia|].
  rewrite seq_S, foldl_app. cbn [foldl]. apply claim_busy.
Qed.

Lemma run_consistent (parallelLimit : nat) (schedule : list nat) :
  consistent total decide (run total decide parallelLimit schedule).
Proof.
  unfold run. apply (AssemblyProps.foldl_inv (consistent total decide)).
  - intros s w _. apply settle_consistent.
  - apply start_consistent.
Qed.

Lemma run_busy (parallelLimit : nat) (schedule : list nat) :
  (0 < parallelLimit)%nat -> busy total (run total decide parallelLimit schedule).
Proof.
  intros Hp. unfold run. apply (AssemblyProps.foldl_inv (busy total)).
  - intros s w _. apply settle_busy.
  - apply start_busy, Hp.
Qed.

Lemma done_results (s : @WState D) :
  consistent total decide s -> busy total s -> waiting s = [] ->
  omap id (results s) = (fun i => (i, decide i)) <$> seq 0 total.
Proof.
  intros (Hle & Hlen & _ & _ & Hres) Hbusy Hw.
  assert (Hnext : nextIndex s = total).
  { destruct (lt_dec (nextIndex s) total) as [Hlt|Hge]; [|lia].
    exfalso. apply (Hbusy Hlt), Hw. }
  assert (Hall : results s = Some <$> ((fun i => (i, decide i)) <$> seq 0 total)).
  { apply list_eq. intros i. destruct (lt_dec i total) as [Hi|Hi].
    - rewrite (Hres i Hi), Hw, Hnext, !list_lookup_fmap, lookup_seq_lt by exact Hi.
      cbn. f_equal. rewrite bool_decide_eq_true_2; [reflexivity|].
      split; [exact Hi | intros H; inversion H].
    - rewrite !lookup_ge_None_2; [reflexivity | |].
      + rewrite !length_fmap, length_seq. lia.
      + lia. }
  rewrite Hall. generalize ((fun i => (i, decide i)) <$> seq 0 total).
  intros l. induction l as [|x l IH]; [reflexivity|]. cbn. f_equal. exact IH.
Qed.

Lemma drains (n : nat) :
  forall s, consistent total decide s ->
    (total - nextIndex s + length (waiting s) <= n)%nat ->
    exists schedule,
      waiting (foldl (fun s w => settle total decide w s) s schedule) = [].
Proof.
  induction n as [|n IH]; intros s Hs Hmu.
  - exists []. cbn. destruct (waiting s); [reflexivity | cbn in Hmu; lia].
  - destruct (waiting s) as [|[w index] rest] eqn:Hw; [exists []; exact Hw|].
    destruct (IH (settle total decide w s)) as [schedule Hdone].
    + apply settle_consistent, Hs.
    + unfold settle. rewrite Hw. cbn [list_find fst].
      rewrite decide_True by reflexivity. cbn [fmap option_fmap option_map delete].
      unfold claim. cbn [nextIndex waiting].
      destruct Hs as (Hle & _).
      destruct (bool_decide_reflect (total <= nextIndex s)%nat) as [Hfull|Hroom];
        cbn [nextIndex waiting] in *; rewrite ?length_app;
        cbn [length list_delete] in *; lia.
    + exists (w :: schedule). exact Hdone.
Qed.

End Scheduling.

(** With at least one worker, the analyses can always run to the end, and
    whenever they have (no worker is left waiting), in whatever order they
    settled and however many workers shared them, [analyzeWithConcurrency]
    returns one entry for every NZB, in the order of the input, each holding
    the decision for its own index. *)
Theorem analyzeWithConcurrency_results {D : Type} (total : nat) (decide : nat -> D)
    (parallelLimit : nat) :
  (0 < parallelLimit)%nat ->
  (exists schedule, waiting (run total decide parallelLimit schedule) = [])
  /\ forall schedule,
       waiting (run total decide parallelLimit schedule) = [] ->
       analyzeWithConcurrency total decide parallelLimit schedule
       = (fun i => (i, decide i)) <$> seq 0 total.
Proof.
  intros Hp. split.
  - destruct (drains total decide _ (start total parallelLimit)
                (start_consistent total decide parallelLimit) (le_n _))
      as [schedule Hdone].
    exists schedule. exact Hdone.
  - intros schedule Hdone. unfold analyzeWithConcurrency.
    destruct (bool_decide_reflect (total = 0%nat)) as [->|Hne]; [reflexivity|].
    apply done_results; [apply run_consistent | apply run_busy, Hp | exact Hdone].
Qed.

Lemma analyzeWithConcurrency_results_witness :
  analyzeWithConcurrency 3 (fun i => Nat.even i) 2 [1; 0; 1]%nat
  = [(0, true); (1, false); (2, true)]%nat.
Proof.
  apply (proj2 (analyzeWithConcurrency_results 3 (fun i => Nat.even i) 2
                  ltac:(lia)) [1; 0; 1]%nat).
  vm_compute. reflexivity.
Defined.

End WorkersProps.

(** ** The counts of [triageNzbs] *)

Module FlagsProps.
Import Str Inspector Analyzer AnalyzerTerms Flags.

(** A flag leaves the counts of the other flags alone. *)
Lemma bump_other (counts : gmap string Count) (x item : string) :
  x <> item -> bump counts x !! item = counts !! item.
Proof.
  intros Hne. unfold bump.
  destruct (counts !! x) as [[n|]|]; rewrite ?lookup_insert_ne by exact Hne;
    try reflexivity.
  destruct (bool_decide _); [reflexivity|].
  destruct (bool_decide _); rewrite lookup_insert_ne by exact Hne; reflexivity.
Qed.

Lemma bump_same (counts : gmap string Count) (item : string) :
  item ∉ INHERITED ->
  bump counts item !! item
  = match counts !! item with
    | Some (Num n) => Some (Num (n + 1))
    | Some Text => Some Text
    | None => Some (Num 1)
    end.
Proof.
  intros Hitem. unfold bump.
  destruct (counts !! item) as [[n|]|]; rewrite ?lookup_insert_eq; try reflexivity.
  rewrite bool_decide_eq_false_2.
  - rewrite bool_decide_eq_false_2 by exact Hitem. apply lookup_insert_eq.
  - intros ->. apply Hitem. unfold INHERITED. rewrite !elem_of_cons. tauto.
Qed.

Lemma bumps_count (item : string) (items : list string) :
  item ∉ INHERITED ->
  forall (counts : gmap string Count) (n : nat),
    counts !! item = (if n is O then None else Some (Num n)) ->
    foldl bump counts items !! item
    = (if (n + length (filter (fun x => x = item) items))%nat is O
       then None
       else Some (Num (n + length (filter (fun x => x = item) items)))).
Proof.
  intros Hitem. induction items as [|x items IH]; intros counts n Hn.
  - cbn. rewrite Nat.add_0_r. exact Hn.
  - cbn [foldl]. destruct (decide (x = item)) as [->|Hne].
    + rewrite filter_cons_True by reflexivity. cbn [length].
      rewrite (IH (bump counts item) (S n)).
      * replace (S n + length (filter (fun x => x = item) items))%nat
          with (n + S (length (filter (fun x => x = item) items)))%nat by lia.
        reflexivity.
      * rewrite bump_same by exact Hitem. rewrite Hn.
        destruct n; [reflexivity|]. do 2 f_equal. lia.
    + rewrite filter_cons_False by exact Hne.
      apply IH. rewrite bump_other by exact Hne. exact Hn.
Qed.

(** For a flag that is not a name inherited from [Object.prototype],
    [buildFlagCounts] has no property when no decision carries the flag, and
    otherwise the number of times the flag occurs among the decisions. *)
Theorem buildFlagCounts_counts (decisions : list NzbDecision)
    (property : NzbDecision -> list string) (item : string) :
  item ∉ INHERITED ->
  buildFlagCounts decisions property !! item
  = (if occurrences item decisions property is O then None
     else Some (Num (occurrences item decisions property))).
Proof.
  intros Hitem. unfold buildFlagCounts, occurrences.
  assert (H : forall (counts : gmap string Count) (n : nat),
             counts !! item = (if n is O then None else Some (Num n)) ->
             foldl (fun counts decision => foldl bump counts (property decision))
                   counts decisions !! item
             = (if (n + length (filter (fun x => x = item)
                                  (concat (property <$> decisions))))%nat is O
                then None
                else Some (Num (n + length (filter (fun x => x = item)
                                              (concat (property <$> decisions))))))).
  { induction decisions as [|d decisions IH]; intros counts n Hn.
    - cbn. rewrite Nat.add_0_r. exact Hn.
    - cbn [foldl fmap list_fmap concat].
      rewrite filter_app, length_app, Nat.add_assoc.
      apply IH. apply bumps_count; assumption. }
  apply (H ∅ 0%nat). apply lookup_empty.
Qed.

Lemma buildFlagCounts_counts_witness :
  buildFlagCounts
    [buildDecision reject ["missing-articles"; "rar-solid"]%string [] 1 None 0 [];
     buildDecision accept [] [] 1 None 1 [];
     buildDecision reject ["missing-articles"]%string [] 1 None 2 []]
    blockers !! "missing-articles"%string
  = Some (Num 2).
Proof.
  rewrite (buildFlagCounts_counts _ blockers "missing-articles").
  - reflexivity.
  - unfold INHERITED. rewrite !elem_of_cons, elem_of_nil.
    intros H. repeat (destruct H as [H|H]; [discriminate H|]). exact H.
Defined.

End FlagsProps.
